(** * Cicerone: the itinerary services, embedded and verified

    A shallow embedding of the TypeScript services of the Cicerone travel
    planner (the [geminiService] modules, the [cleanJson] helper, and the
    [handleRefine] handler of the application shell), with the properties
    the specification states about them.

    Layout:
    - JavaScript strings (sequences of UTF-16 code units) and the string
      built-ins the code calls;
    - a small backtracking matcher for the two regular expressions of
      [cleanJson];
    - JavaScript values as [JSON.parse] produces them, property reads and
      writes, [Object.assign], truthiness and strict equality;
    - the services themselves, one module per copy of the service file;
    - the theorems. *)

From Stdlib Require Import ZArith QArith Ascii String.
From stdpp Require Import gmap strings list fin_maps.

Close Scope Q_scope.
Open Scope Z_scope.
Open Scope nat_scope.

(** ** JavaScript strings *)

(** A JavaScript string is a finite sequence of UTF-16 code units; a code
    unit is kept as its number. *)
Abbreviation jstring := (list N).

(** A literal of the embedding, from its ASCII spelling. *)
Definition js (s : string) : jstring :=
  N_of_ascii <$> list_ascii_of_string s.

(** The same, with every apostrophe of the spelling read as a double quote
    (code unit 34), to write JSON text. *)
Definition jsq (s : string) : jstring :=
  (fun c => if (c =? 39)%N then 34%N else c) <$> js s.

(** [WhiteSpace] and [LineTerminator] of ECMAScript: what the class [\s] of
    a regular expression matches and what [String.prototype.trim] strips. *)
Definition is_ws (c : N) : bool :=
  ((9 <=? c)%N && (c <=? 13)%N)
  || (c =? 32)%N || (c =? 160)%N || (c =? 5760)%N
  || ((8192 <=? c)%N && (c <=? 8202)%N)
  || (c =? 8232)%N || (c =? 8233)%N || (c =? 8239)%N
  || (c =? 8287)%N || (c =? 12288)%N || (c =? 65279)%N.

(** [s.startsWith(pat)] *)
Fixpoint startsWith (s pat : jstring) {struct pat} : bool :=
  match pat, s with
  | [], _ => true
  | p :: pat', c :: s' => (c =? p)%N && startsWith s' pat'
  | _ :: _, [] => false
  end.

(** [s.indexOf(c)] for a one-unit search string: the first position, or -1. *)
Definition indexOf (s : jstring) (c : N) : Z :=
  match list_find (fun x => x = c) s with
  | Some (i, _) => Z.of_nat i
  | None => (-1)%Z
  end.

(** [s.lastIndexOf(c)] for a one-unit search string: the last position, or -1. *)
Definition lastIndexOf (s : jstring) (c : N) : Z :=
  match list_find (fun x => x = c) (reverse s) with
  | Some (i, _) => Z.of_nat (length s - 1 - i)
  | None => (-1)%Z
  end.

(** [s.substring(a, b)]: both ends are clamped to [0, length] and swapped
    when they come in the wrong order. *)
Definition substring (s : jstring) (a b : Z) : jstring :=
  let len := Z.of_nat (length s) in
  let clamp := fun x : Z => Z.max 0 (Z.min x len) in
  let lo := Z.min (clamp a) (clamp b) in
  let hi := Z.max (clamp a) (clamp b) in
  take (Z.to_nat (hi - lo)) (drop (Z.to_nat lo) s).

Fixpoint trimStart (s : jstring) : jstring :=
  match s with
  | c :: s' => if is_ws c then trimStart s' else s
  | [] => []
  end.

Definition trimEnd (s : jstring) : jstring :=
  reverse (trimStart (reverse s)).

(** [s.trim()] *)
Definition trim (s : jstring) : jstring := trimEnd (trimStart s).

(** [s.replace(/pat/g, rep)] for a pattern that is a literal, non-empty
    string: occurrences are replaced from left to right and do not overlap.
    [skip] counts the units of the occurrence being replaced that are still
    to be passed over. *)
Fixpoint replace_from (pat rep : jstring) (skip : nat) (s : jstring) : jstring :=
  match s with
  | [] => []
  | c :: s' =>
      match skip with
      | S k => replace_from pat rep k s'
      | O =>
          if startsWith s pat
          then rep ++ replace_from pat rep (length pat - 1) s'
          else c :: replace_from pat rep 0 s'
      end
  end.

Definition replace_g (s pat rep : jstring) : jstring :=
  replace_from pat rep 0 s.

(** ** Regular expressions

    The fragment of ECMAScript regular expressions that [cleanJson] uses:
    a sequence of literals, greedy stars over a character class and one
    lazy star over a character class that is also capture group 1. The
    matcher backtracks exactly as the ECMAScript one: a greedy star tries
    the longest repetition first, a lazy star the shortest first. *)
Inductive atom : Type :=
  | Lit (l : jstring)
  | Greedy (cls : N -> bool)
  | LazyGroup (cls : N -> bool).

(** [cls*] followed by the rest of the pattern [k]: the longest run first,
    then one unit less, and so on. *)
Fixpoint greedy_star (cls : N -> bool) (k : jstring -> option jstring) (s : jstring)
  : option jstring :=
  match s with
  | c :: s' =>
      if cls c
      then match greedy_star cls k s' with
           | Some r => Some r
           | None => k s
           end
      else k s
  | [] => k []
  end.

(** [(cls*?)] followed by the rest of the pattern [k], which is given what
    the group has captured: the empty run first, then one unit more, and so
    on. [acc] is the run so far, last unit first. *)
Fixpoint lazy_star (cls : N -> bool) (k : jstring -> jstring -> option jstring)
    (s : jstring) (acc : jstring) : option jstring :=
  match k s (reverse acc) with
  | Some r => Some r
  | None =>
      match s with
      | c :: s' => if cls c then lazy_star cls k s' (c :: acc) else None
      | [] => None
      end
  end.

(** [exec_here re s cap]: the pattern [re] matched against a prefix of [s];
    the result is the text captured by the group ([cap] until the group is
    reached). *)
Fixpoint exec_here (re : list atom) (s : jstring) (cap : jstring) : option jstring :=
  match re with
  | [] => Some cap
  | Lit l :: re' =>
      if startsWith s l then exec_here re' (drop (length l) s) cap else None
  | Greedy cls :: re' => greedy_star cls (fun s' => exec_here re' s' cap) s
  | LazyGroup cls :: re' => lazy_star cls (exec_here re') s []
  end.

(** [s.match(re)] for a pattern without the [g] flag, projected on capture
    group 1: the match that starts leftmost, [None] for [null]. *)
Fixpoint regex_match (re : list atom) (s : jstring) : option jstring :=
  match exec_here re s [] with
  | Some cap => Some cap
  | None =>
      match s with
      | _ :: s' => regex_match re s'
      | [] => None
      end
  end.

Definition any_unit (c : N) : bool := true.

Definition fence : jstring := js "```".
Definition fence_json : jstring := js "```json".

(** [/```json\s*([\s\S]*?)\s*```/] *)
Definition re_fence_json : list atom :=
  [Lit fence_json; Greedy is_ws; LazyGroup any_unit; Greedy is_ws; Lit fence].

(** [/```\s*([\s\S]*?)\s*```/] *)
Definition re_fence : list atom :=
  [Lit fence; Greedy is_ws; LazyGroup any_unit; Greedy is_ws; Lit fence].

(** [a || b] on the results of two [match] calls. *)
Definition or_else {A} (a b : option A) : option A :=
  match a with Some _ => a | None => b end.

(** ** [cleanJson] *)

Module Frontend.

(** [cleanJson] of src/frontend/services/geminiService.ts (lines 12-31; the
    copies at lines 335-354 of that file and in src/unnamed/part_003 are the
    same text). 91, 93, 123 and 125 are the code units of the square
    brackets and the braces. *)
Definition cleanJson (text : jstring) : jstring :=
  match or_else (regex_match re_fence_json text) (regex_match re_fence text) with
  | Some m1 => trim m1
  | None =>
      let firstBracket := indexOf text 91 in
      let lastBracket := lastIndexOf text 93 in
      if negb (firstBracket =? -1)%Z && negb (lastBracket =? -1)%Z
         && (lastBracket >? firstBracket)%Z
      then substring text firstBracket (lastBracket + 1)
      else
        let firstBrace := indexOf text 123 in
        let lastBrace := lastIndexOf text 125 in
        if negb (firstBrace =? -1)%Z && negb (lastBrace =? -1)%Z
           && (lastBrace >? firstBrace)%Z
        then substring text firstBrace (lastBrace + 1)
        else trim (replace_g (replace_g text fence_json []) fence [])
  end.

End Frontend.

Module Backend.

(** [cleanJson] of src/backend/api.ts (lines 14-16). *)
Definition cleanJson (text : jstring) : jstring :=
  trim (replace_g (replace_g text fence_json []) fence []).

End Backend.

(** ** JavaScript values

    The values [JSON.parse] can produce, and [undefined]. An object is the
    finite map of its own properties; an array is the list of its elements.
    Numbers are kept as rationals (what [JSON.parse] reads is a finite
    number; no claim computes with one). *)
#[warnings="-register-all"]
Inductive JSValue : Type :=
  | JUndefined
  | JNull
  | JBool (b : bool)
  | JNumber (q : Q)
  | JString (s : jstring)
  | JArray (elems : list JSValue)
  | JObject (props : gmap jstring JSValue).

(** What a [throw] carries: the two built-in errors the services can raise,
    [new Error(message)], and the reason of a rejected completion call. *)
Inductive Exn : Type :=
  | SyntaxError
  | TypeError
  | Error (message : jstring)
  | Rejection (reason : jstring).

(** The result of running a piece of the program: it returns, it throws, or
    it takes a step the embedding does not cover ([Unmodelled]). A
    [try]/[catch] of the program catches [Throw] only, so that whatever is
    proved of a [Return] or a [Throw] is a fact of the program. The steps
    left out are: a named property written on an array, the spread of an
    array or of a non-empty string, [Object.assign] from or to anything but
    an object or from an object that has a property named [__proto__],
    [===] between two objects or arrays that may be one and the same, and
    the string of an object or array in a template. *)
Inductive outcome (A : Type) : Type :=
  | Return (a : A)
  | Throw (e : Exn)
  | Unmodelled.
Arguments Return {A} a.
Arguments Throw {A} e.
Arguments Unmodelled {A}.

#[global] Instance outcome_ret : MRet outcome := fun A a => Return a.
#[global] Instance outcome_bind : MBind outcome := fun A B f m =>
  match m with
  | Return a => f a
  | Throw e => Throw e
  | Unmodelled => Unmodelled
  end.

(** [try { body } catch (e) { handler }] *)
Definition try_catch {A} (body : outcome A) (handler : Exn -> outcome A) : outcome A :=
  match body with
  | Throw e => handler e
  | _ => body
  end.

(** [ToBoolean] *)
Definition truthy (v : JSValue) : bool :=
  match v with
  | JUndefined | JNull => false
  | JBool b => b
  | JNumber q => negb (Qeq_bool q 0)
  | JString s => match s with [] => false | _ :: _ => true end
  | JArray _ | JObject _ => true
  end.

(** [a === b], which is also the key comparison of a [Map] on these values.
    Two objects (or arrays) are equal when they are one and the same, which
    the values do not record: [None]. *)
Definition strict_eq (a b : JSValue) : option bool :=
  match a, b with
  | JUndefined, JUndefined => Some true
  | JNull, JNull => Some true
  | JBool x, JBool y => Some (Bool.eqb x y)
  | JNumber x, JNumber y => Some (Qeq_bool x y)
  | JString x, JString y => Some (bool_decide (x = y))
  | (JArray _ | JObject _), (JArray _ | JObject _) => None
  | _, _ => Some false
  end.

(** [a === b] where [a] and [b] come from two values with no part in
    common (one of them fresh from [JSON.parse]): an object of one is never
    an object of the other. *)
Definition strict_eq_apart (a b : JSValue) : bool :=
  default false (strict_eq a b).

(** [v.k], for the property names the services use (none of them is defined
    on a built-in prototype, so a value that is not an object has none). *)
Definition get_prop (v : JSValue) (k : jstring) : outcome JSValue :=
  match v with
  | JUndefined | JNull => Throw TypeError
  | JObject p => Return (default JUndefined (p !! k))
  | _ => Return JUndefined
  end.

(** [v.k = x] in strict mode (the services are ES modules), with the value
    after the write. *)
Definition set_prop (v : JSValue) (k : jstring) (x : JSValue) : outcome JSValue :=
  match v with
  | JObject p => Return (JObject (<[k := x]> p))
  | JArray _ => Unmodelled
  | _ => Throw TypeError
  end.

(** [Object.assign(target, source)], with the target after the call: every
    own property of the source is written on the target. *)
Definition Object_assign (target source : JSValue) : outcome JSValue :=
  match target, source with
  | JObject t, JObject s =>
      if decide (is_Some (s !! js "__proto__")) then Unmodelled
      else Return (JObject (s ∪ t))
  | _, _ => Unmodelled
  end.

(** The receiver of [.forEach], [.find] or [.map]: these are array methods,
    and calling them on anything else is a [TypeError]. *)
Definition as_array (v : JSValue) : outcome (list JSValue) :=
  match v with
  | JArray l => Return l
  | _ => Throw TypeError
  end.

(** A callback run on each element in turn; the first throw ends the loop. *)
Fixpoint traverse {A B} (f : A -> outcome B) (l : list A) : outcome (list B) :=
  match l with
  | [] => Return []
  | x :: l' => y ← f x; ys ← traverse f l'; Return (y :: ys)
  end.

(** A [Map]: the bindings, the latest first. [set] of a key that is bound
    already replaces the binding, which reads the same as shadowing it. *)
Abbreviation JSMap := (list (JSValue * JSValue)).

Definition Map_set (m : JSMap) (k v : JSValue) : JSMap := (k, v) :: m.

Definition Map_get (m : JSMap) (k : JSValue) : JSValue :=
  match List.find (fun kv => strict_eq_apart (fst kv) k) m with
  | Some kv => snd kv
  | None => JUndefined
  end.

(** What the completion service does with a call: the promise is rejected,
    or it resolves to a response whose [text] is a string or [undefined].
    The prompt only matters to the service, so the services of the
    embedding take the service's answer as an argument. *)
Inductive Completion : Type :=
  | Rejected (reason : Exn)
  | Responded (text : option jstring).

Definition await (c : Completion) : outcome (option jstring) :=
  match c with
  | Rejected e => Throw e
  | Responded t => Return t
  end.

(** [!text] for [text : string | undefined] *)
Definition no_text (text : option jstring) : bool :=
  match text with
  | None | Some [] => true
  | Some (_ :: _) => false
  end.

(** [String(text)], what [JSON.parse] does to its argument first. *)
Definition ToString (text : option jstring) : jstring :=
  match text with
  | Some s => s
  | None => js "undefined"
  end.

(** Property names and constants of the services. *)
Definition str (s : string) : JSValue := JString (js s).

(** ** What the copies of the service share

    The repository holds the service module five times
    (src/services/geminiService.ts, two copies in
    src/frontend/services/geminiService.ts, src/unnamed/part_003 and
    src/backend/api.ts). The traversals below are the same text in all of
    them; what differs from copy to copy is stated in each copy's module. *)

(** [{...v}]: the own properties of [v]. *)
Definition spread (v : JSValue) : outcome (gmap jstring JSValue) :=
  match v with
  | JObject p => Return p
  | JArray (_ :: _) | JString (_ :: _) => Unmodelled
  | _ => Return ∅
  end.

(** A value after the loop body has mutated, in place, what its property
    [k] holds. *)
Definition mutated (v : JSValue) (k : jstring) (x : JSValue) : JSValue :=
  match v with
  | JObject p => JObject (<[k := x]> p)
  | _ => v
  end.

(** [data.days.forEach(day => day.activities.forEach(act => body))], where
    [body] mutates [act]; [f] gives the activity after the body has run. *)
Definition for_each_activity (f : JSValue -> outcome JSValue) (data : JSValue)
  : outcome JSValue :=
  days ← get_prop data (js "days");
  ds ← as_array days;
  ds' ← traverse (fun day =>
           acts ← get_prop day (js "activities");
           al ← as_array acts;
           al' ← traverse f al;
           Return (mutated day (js "activities") (JArray al'))) ds;
  Return (mutated data (js "days") (JArray ds')).

(** [d.activities.forEach(a => oldActivityMap.set(a.id, a))] *)
Fixpoint set_activities (acts : list JSValue) (m : JSMap) : outcome JSMap :=
  match acts with
  | [] => Return m
  | a :: rest => id ← get_prop a (js "id"); set_activities rest (Map_set m id a)
  end.

Fixpoint set_days (days : list JSValue) (m : JSMap) : outcome JSMap :=
  match days with
  | [] => Return m
  | d :: rest =>
      acts ← get_prop d (js "activities");
      al ← as_array acts;
      m' ← set_activities al m;
      set_days rest m'
  end.

(** [const oldActivityMap = new Map();
     currentItinerary.days.forEach(d => d.activities.forEach(a =>
       oldActivityMap.set(a.id, a)));] *)
Definition oldActivityMap (currentItinerary : JSValue) : outcome JSMap :=
  days ← get_prop currentItinerary (js "days");
  ds ← as_array days;
  set_days ds [].

(** [dst.k = src.k;] for each [k] of [keys], in order. *)
Fixpoint copy_props (keys : list jstring) (src dst : JSValue) : outcome JSValue :=
  match keys with
  | [] => Return dst
  | k :: ks => v ← get_prop src k; dst' ← set_prop dst k v; copy_props ks src dst'
  end.

(** [dst.k = v;] for each [(k, v)] of [kvs], in order. *)
Fixpoint assign_props (kvs : list (jstring * JSValue)) (dst : JSValue) : outcome JSValue :=
  match kvs with
  | [] => Return dst
  | (k, v) :: rest => dst' ← set_prop dst k v; assign_props rest dst'
  end.

(** The body of the inner loop of [refineItinerary]:
<<
      const old = oldActivityMap.get(act.id);
      if (old) {
        act.k = old.k;                       // for each k of copied
        if (old.isLocked) Object.assign(act, old);
      } else {
        act.k = v;                           // for each (k, v) of defaults
      }
>> *)
Definition merge_activity (copied : list jstring) (defaults : list (jstring * JSValue))
    (oldMap : JSMap) (act : JSValue) : outcome JSValue :=
  id ← get_prop act (js "id");
  let old := Map_get oldMap id in
  if truthy old then
    act' ← copy_props copied old act;
    locked ← get_prop old (js "isLocked");
    if truthy locked then Object_assign act' old else Return act'
  else assign_props defaults act.

(** What tells the copies of [refineItinerary] apart. *)
Record RefineCopy : Type := {
  (** what [JSON.parse] is given: [cleanJson(text)], or [text] itself *)
  sanitized : jstring -> jstring;
  (** whether the loop stands under [if (data.days)] *)
  guards_days : bool;
  (** the properties copied from the prior activity *)
  copied : list jstring;
  (** the properties set on an activity that has no prior one *)
  defaults : list (jstring * JSValue);
  (** the properties of the itinerary copied from the prior itinerary *)
  carried : list jstring
}.

Section Shared.

(** [JSON.parse], a built-in: [None] when it throws its [SyntaxError].
    Nothing is assumed of it. *)
Variable JSON_parse : jstring -> option JSValue.

Definition parse (text : jstring) : outcome JSValue :=
  match JSON_parse text with
  | Some v => Return v
  | None => Throw SyntaxError
  end.

(** The state merge of [refineItinerary], from [// Merge state] to
    [return data] (lines 156-177 of src/services/geminiService.ts). *)
Definition merge_state (c : RefineCopy) (currentItinerary data : JSValue)
  : outcome JSValue :=
  oldMap ← oldActivityMap currentItinerary;
  data' ← (if guards_days c
           then days ← get_prop data (js "days");
                if truthy days
                then for_each_activity (merge_activity (copied c) (defaults c) oldMap) data
                else Return data
           else for_each_activity (merge_activity (copied c) (defaults c) oldMap) data);
  copy_props (carried c) currentItinerary data'.

(** [refineItinerary(currentItinerary, userRequest)]. The outer
    [try { ... } catch (error) { console.error(...); throw error; }] throws
    again what it caught. *)
Definition refine_copy (c : RefineCopy) (currentItinerary : JSValue)
    (userRequest : jstring) (response : Completion) : outcome JSValue :=
  try_catch
    (text ← await response;
     if no_text text then Throw (Error (js "No response from AI"))
     else
       data ← parse (sanitized c (ToString text));
       merge_state c currentItinerary data)
    (fun error => Throw error).

(** [updatedActivities.find(u => u.id === original.id)] *)
Fixpoint find_update (updates : list JSValue) (original : JSValue) : outcome JSValue :=
  match updates with
  | [] => Return JUndefined
  | u :: rest =>
      uid ← get_prop u (js "id");
      oid ← get_prop original (js "id");
      if strict_eq_apart uid oid then Return u else find_update rest original
  end.

(** The callback of [activities.map] in [recalculateDaySchedule]:
<<
      const updated = updatedActivities.find(u => u.id === original.id);
      if (updated) {
        return { ...original, time: updated.time,
                 transportToNext: updated.transportToNext };
      }
      return original;
>> *)
Definition merge_update (updatedActivities original : JSValue) : outcome JSValue :=
  us ← as_array updatedActivities;
  updated ← find_update us original;
  if truthy updated then
    p ← spread original;
    time ← get_prop updated (js "time");
    transportToNext ← get_prop updated (js "transportToNext");
    Return (JObject (<[js "transportToNext" := transportToNext]> (<[js "time" := time]> p)))
  else Return original.

(** The properties of each activity that the prompt of
    [recalculateDaySchedule] reads, before the [try]:
    [activities.map(a => ({ id: a.id, title: a.title, ... }))]. *)
Definition prompt_reads (keys : list jstring) (activities : list JSValue) : outcome unit :=
  _ ← traverse (fun a => traverse (get_prop a) keys) activities; Return ().

(** [recalculateDaySchedule(activities, previousLocation)]; [on_no_text] is
    what the copy does when the response has no text, [keys] what its
    prompt reads of each activity. *)
Definition recalculate_copy (keys : list jstring) (on_no_text : outcome (list JSValue))
    (activities : list JSValue) (previousLocation : option jstring)
    (response : Completion) : outcome (list JSValue) :=
  _ ← prompt_reads keys activities;
  try_catch
    (text ← await response;
     if no_text text then on_no_text
     else
       updatedActivities ← parse (Frontend.cleanJson (ToString text));
       traverse (merge_update updatedActivities) activities)
    (fun error => Return activities).

(** A wishlist item, the object literal [analyzeSocialContent] returns. *)
Record WishlistItem : Type := {
  item_id : jstring;
  item_content : jstring;
  item_type : jstring;
  item_analysis : JSValue
}.

(** [{ possibleName: "Unknown Spot", summary: "Could not analyze", tags: [] }] *)
Definition placeholder : JSValue :=
  JObject (<[js "possibleName" := str "Unknown Spot"]>
          (<[js "summary" := str "Could not analyze"]>
          (<[js "tags" := JArray []]> ∅))).

(** [analyzeSocialContent(content)]. [read] is what the copy hands to
    [JSON.parse]: [JSON.parse(text)] or [JSON.parse(cleanJson(text))], the
    latter a [TypeError] when [text] is [undefined] ([text.match]). [now] is
    [Date.now().toString()]. The completion call stands before the [try]. *)
Definition analyze_copy (read : option jstring -> outcome jstring) (now : jstring)
    (content : jstring) (response : Completion) : outcome WishlistItem :=
  text ← await response;
  analysis ← try_catch (s ← read text; parse s) (fun e => Return placeholder);
  Return {| item_id := now;
            item_content := content;
            item_type := if startsWith content (js "http") then js "url" else js "text";
            item_analysis := analysis |}.

End Shared.

(** [TripInput] of the shared types. The embedding reads what is attached to
    the generated itinerary and what the prompt template reads through
    (the interests and the logistics); the rest only goes into the prompt. *)
Record TripInput : Type := {
  destination : JSValue;
  startDate : JSValue;
  durationDays : JSValue;
  budget : JSValue;
  travelers : JSValue;
  interests : JSValue;
  mustVisit : JSValue;
  logistics : JSValue
}.

(** [cleanJson(text)] where [text] may be [undefined] ([text.match] is then
    a [TypeError]). *)
Definition cleanJson_of (text : option jstring) : outcome jstring :=
  match text with
  | Some s => Return (Frontend.cleanJson s)
  | None => Throw TypeError
  end.

(** [`${v}`] in a template: a primitive value turns into a string. The
    string of an object or of an array goes through its [toString], which
    the embedding does not follow. *)
Definition interpolate (v : JSValue) : outcome unit :=
  match v with
  | JObject _ | JArray _ => Unmodelled
  | _ => Return ()
  end.

(** [`${v || 'N/A'}`] *)
Definition interpolate_or (v : JSValue) : outcome unit :=
  if truthy v then interpolate v else Return ().

(** [`${v.join(', ')}`]: a [TypeError] unless [v] is an array (nothing else
    has a [join]); each element is turned into a string. *)
Definition interpolate_join (v : JSValue) : outcome unit :=
  l ← as_array v; _ ← traverse interpolate l; Return ().

(** [`${input.logistics.k1.k2}`]: a [TypeError] where [input.logistics] or
    [input.logistics.k1] is [null] or [undefined]. *)
Definition interpolate_logistics (input : TripInput) (k1 k2 : jstring) : outcome unit :=
  o ← get_prop (logistics input) k1; v ← get_prop o k2; interpolate v.

Definition interpolate_logistics_or (input : TripInput) (k1 k2 : jstring) : outcome unit :=
  o ← get_prop (logistics input) k1; v ← get_prop o k2; interpolate_or v.

(** The prompt template of [generateItinerary], which is evaluated before
    the [try] (lines 72-89 of src/services/geminiService.ts, 36-88 of
    src/frontend/services/geminiService.ts), placeholder after placeholder:
<<
    ${input.destination} ${input.durationDays} ${input.startDate}
    ${input.budget} ${input.travelers} ${input.interests.join(', ')}
    ${input.mustVisit || 'None'}                 // the frontend copy only
    ${input.logistics.arrival.type} ${input.logistics.arrival.location}
    ${input.logistics.arrival.time} ${input.logistics.arrival.address || 'N/A'}
    ${input.logistics.departure.type} ${input.logistics.departure.location}
    ${input.logistics.departure.time} ${input.logistics.departure.address || 'N/A'}
    ${input.logistics.accommodation.name} ${input.logistics.accommodation.address}
>>
    An error here is thrown before the completion call is made, and past
    the [catch] of the function. [must_visit] tells whether the template
    has the placeholder of [input.mustVisit]. *)
Definition generate_prompt_reads (must_visit : bool) (input : TripInput) : outcome unit :=
  _ ← interpolate (destination input);
  _ ← interpolate (durationDays input);
  _ ← interpolate (startDate input);
  _ ← interpolate (budget input);
  _ ← interpolate (travelers input);
  _ ← interpolate_join (interests input);
  _ ← (if must_visit then interpolate_or (mustVisit input) else Return ());
  _ ← interpolate_logistics input (js "arrival") (js "type");
  _ ← interpolate_logistics input (js "arrival") (js "location");
  _ ← interpolate_logistics input (js "arrival") (js "time");
  _ ← interpolate_logistics_or input (js "arrival") (js "address");
  _ ← interpolate_logistics input (js "departure") (js "type");
  _ ← interpolate_logistics input (js "departure") (js "location");
  _ ← interpolate_logistics input (js "departure") (js "time");
  _ ← interpolate_logistics_or input (js "departure") (js "address");
  _ ← interpolate_logistics input (js "accommodation") (js "name");
  interpolate_logistics input (js "accommodation") (js "address").

(** ** src/services/geminiService.ts *)
Module Services.
Section Copy.
Variable JSON_parse : jstring -> option JSValue.

(** The body of the inner loop of [generateItinerary] (lines 110-114). *)
Definition hydrate (act : JSValue) : outcome JSValue :=
  act1 ← set_prop act (js "feedback") (str "neutral");
  isLocked ← get_prop act1 (js "isLocked");
  act2 ← set_prop act1 (js "isLocked") (if truthy isLocked then isLocked else JBool false);
  set_prop act2 (js "userNotes") (str "").

(** [generateItinerary(input)] (lines 69-122). *)
Definition generateItinerary (input : TripInput) (response : Completion)
  : outcome JSValue :=
  _ ← generate_prompt_reads false input;
  try_catch
    (text ← await response;
     if no_text text then Throw (Error (js "No response from AI"))
     else
       data ← parse JSON_parse (ToString text);
       data1 ← set_prop data (js "logistics") (logistics input);
       data2 ← set_prop data1 (js "wishlist") (JArray []);
       for_each_activity hydrate data2)
    (fun error => Throw error).

(** What this copy of [refineItinerary] (lines 124-182) copies and sets. *)
Definition copy : RefineCopy := {|
  sanitized := fun text => text;
  guards_days := false;
  copied := [js "feedback"; js "actualCost"; js "userNotes"];
  defaults := [(js "feedback", str "neutral"); (js "isLocked", JBool false)];
  carried := [js "wishlist"; js "logistics"]
|}.

Definition refineItinerary : JSValue -> jstring -> Completion -> outcome JSValue :=
  refine_copy JSON_parse copy.

(** [analyzeSocialContent(content)] (lines 184-220): [JSON.parse(text)]. *)
Definition analyzeSocialContent : jstring -> jstring -> Completion -> outcome WishlistItem :=
  analyze_copy JSON_parse (fun text => Return (ToString text)).

End Copy.
End Services.

(** ** src/frontend/services/geminiService.ts, lines 1-323 *)
Module FrontendA.
Section Copy.
Variable JSON_parse : jstring -> option JSValue.
(** [Math.random().toString(36).substr(2, 9)], by the number of the call. *)
Variable random_id : nat -> jstring.

(** The body of the inner loop of [generateItinerary] (lines 125-128); [n]
    counts the calls of [Math.random] so far. *)
Definition hydrate (n : nat) (act : JSValue) : outcome (nat * JSValue) :=
  act1 ← set_prop act (js "feedback") (str "neutral");
  isLocked ← get_prop act1 (js "isLocked");
  act2 ← set_prop act1 (js "isLocked") (if truthy isLocked then isLocked else JBool false);
  act3 ← set_prop act2 (js "userNotes") (str "");
  id ← get_prop act3 (js "id");
  if truthy id then Return (n, act3)
  else act4 ← set_prop act3 (js "id") (JString (random_id n)); Return (S n, act4).

Fixpoint hydrate_activities (n : nat) (acts : list JSValue) : outcome (nat * list JSValue) :=
  match acts with
  | [] => Return (n, [])
  | act :: rest =>
      r ← hydrate n act;
      rs ← hydrate_activities (fst r) rest;
      Return (fst rs, snd r :: snd rs)
  end.

Fixpoint hydrate_days (n : nat) (days : list JSValue) : outcome (nat * list JSValue) :=
  match days with
  | [] => Return (n, [])
  | day :: rest =>
      acts ← get_prop day (js "activities");
      al ← as_array acts;
      r ← hydrate_activities n al;
      rs ← hydrate_days (fst r) rest;
      Return (fst rs, mutated day (js "activities") (JArray (snd r)) :: snd rs)
  end.

(** [generateItinerary(input)] (lines 33-138). *)
Definition generateItinerary (input : TripInput) (response : Completion)
  : outcome JSValue :=
  _ ← generate_prompt_reads true input;
  try_catch
    (text ← await response;
     if no_text text then Throw (Error (js "No response text from AI"))
     else
       data ← try_catch (parse JSON_parse (Frontend.cleanJson (ToString text)))
                (fun parseError => Throw (Error (js "Failed to parse AI response")));
       data1 ← set_prop data (js "logistics") (logistics input);
       data2 ← set_prop data1 (js "wishlist") (JArray []);
       data3 ← set_prop data2 (js "startDate") (startDate input);
       data4 ← set_prop data3 (js "durationDays") (durationDays input);
       data5 ← set_prop data4 (js "travelers") (travelers input);
       data6 ← set_prop data5 (js "interests") (interests input);
       days ← get_prop data6 (js "days");
       if truthy days then
         ds ← as_array days;
         r ← hydrate_days 0 ds;
         Return (mutated data6 (js "days") (JArray (snd r)))
       else Return data6)
    (fun error => Throw error).

(** What this copy of [refineItinerary] (lines 140-207) copies and sets. *)
Definition copy : RefineCopy := {|
  sanitized := Frontend.cleanJson;
  guards_days := true;
  copied := [js "feedback"; js "actualCost"; js "userNotes"; js "selectedTransport"];
  defaults := [(js "feedback", str "neutral"); (js "isLocked", JBool false)];
  carried := [js "wishlist"; js "logistics"; js "startDate"; js "durationDays";
              js "travelers"; js "interests"]
|}.

Definition refineItinerary : JSValue -> jstring -> Completion -> outcome JSValue :=
  refine_copy JSON_parse copy.

(** [recalculateDaySchedule(activities, previousLocation)] (lines 209-272). *)
Definition recalculateDaySchedule
  : list JSValue -> option jstring -> Completion -> outcome (list JSValue) :=
  recalculate_copy JSON_parse
    [js "id"; js "title"; js "location"; js "durationMinutes"; js "isLocked"; js "time"]
    (Throw (Error (js "No response from AI"))).

(** [analyzeSocialContent(content)] (lines 274-309):
    [JSON.parse(cleanJson(text))]. *)
Definition analyzeSocialContent : jstring -> jstring -> Completion -> outcome WishlistItem :=
  analyze_copy JSON_parse cleanJson_of.

End Copy.
End FrontendA.

(** ** src/frontend/services/geminiService.ts, lines 324-651 *)
Module FrontendB.
Section Copy.
Variable JSON_parse : jstring -> option JSValue.

(** What this copy of [refineItinerary] (lines 472-532) copies and sets. *)
Definition copy : RefineCopy := {|
  sanitized := Frontend.cleanJson;
  guards_days := false;
  copied := [js "feedback"; js "actualCost"; js "userNotes"; js "isMandatory"];
  defaults := [(js "feedback", str "neutral"); (js "isLocked", JBool false);
               (js "isMandatory", JBool false)];
  carried := [js "wishlist"; js "logistics"]
|}.

Definition refineItinerary : JSValue -> jstring -> Completion -> outcome JSValue :=
  refine_copy JSON_parse copy.

(** [recalculateDaySchedule(activities, previousLocation)] (lines 534-600). *)
Definition recalculateDaySchedule
  : list JSValue -> option jstring -> Completion -> outcome (list JSValue) :=
  recalculate_copy JSON_parse
    [js "id"; js "title"; js "location"; js "durationMinutes"; js "isLocked"; js "time"]
    (Throw (Error (js "No response from AI"))).

(** [analyzeSocialContent(content)] (lines 602-637). *)
Definition analyzeSocialContent : jstring -> jstring -> Completion -> outcome WishlistItem :=
  analyze_copy JSON_parse cleanJson_of.

End Copy.
End FrontendB.

(** ** src/unnamed/part_003 *)
Module Part003.
Section Copy.
Variable JSON_parse : jstring -> option JSValue.

(** What this copy of [refineItinerary] (lines 144-206) copies and sets. *)
Definition copy : RefineCopy := {|
  sanitized := Frontend.cleanJson;
  guards_days := false;
  copied := [js "feedback"; js "actualCost"; js "userNotes"; js "isMandatory";
             js "selectedTransport"];
  defaults := [(js "feedback", str "neutral"); (js "isLocked", JBool false);
               (js "isMandatory", JBool false)];
  carried := [js "wishlist"; js "logistics"]
|}.

Definition refineItinerary : JSValue -> jstring -> Completion -> outcome JSValue :=
  refine_copy JSON_parse copy.

(** [recalculateDaySchedule(activities, previousLocation)] (lines 208-275):
    a response without text returns the activities at once. *)
Definition recalculateDaySchedule (activities : list JSValue)
  : option jstring -> Completion -> outcome (list JSValue) :=
  recalculate_copy JSON_parse
    [js "id"; js "title"; js "location"; js "durationMinutes"; js "time"; js "isLocked";
     js "selectedTransport"]
    (Return activities) activities.

(** [analyzeSocialContent(content)] (lines 277-314): [JSON.parse(text)]. *)
Definition analyzeSocialContent : jstring -> jstring -> Completion -> outcome WishlistItem :=
  analyze_copy JSON_parse (fun text => Return (ToString text)).

End Copy.
End Part003.

(** ** src/backend/api.ts *)
Module BackendApi.
Section Copy.
Variable JSON_parse : jstring -> option JSValue.

(** What this copy of [refineItinerary] (lines 170-231) copies and sets; its
    [cleanJson] is the short one. *)
Definition copy : RefineCopy := {|
  sanitized := Backend.cleanJson;
  guards_days := false;
  copied := [js "feedback"; js "actualCost"; js "userNotes"; js "isMandatory"];
  defaults := [(js "feedback", str "neutral"); (js "isLocked", JBool false);
               (js "isMandatory", JBool false)];
  carried := [js "wishlist"; js "logistics"]
|}.

Definition refineItinerary : JSValue -> jstring -> Completion -> outcome JSValue :=
  refine_copy JSON_parse copy.

(** [analyzeSocialContent(content)] (lines 233-270): [JSON.parse(text)]. *)
Definition analyzeSocialContent : jstring -> jstring -> Completion -> outcome WishlistItem :=
  analyze_copy JSON_parse (fun text => Return (ToString text)).

End Copy.
End BackendApi.

(** ** The application shell: [handleRefine] (src/unnamed/part_000) *)

(** The state of [App] that [handleRefine] reads or writes, the alerts shown
    (latest first) and whether [localStorage.setItem] throws when called. *)
Record AppState : Type := {
  itinerary : JSValue;
  refinePrompt : jstring;
  showRefineInput : bool;
  isRefining : bool;
  savedPlans : JSValue;
  alerts : list jstring;
  setItem_throws : option Exn
}.

Definition setItinerary (v : JSValue) (st : AppState) : AppState :=
  {| itinerary := v; refinePrompt := refinePrompt st;
     showRefineInput := showRefineInput st; isRefining := isRefining st;
     savedPlans := savedPlans st; alerts := alerts st;
     setItem_throws := setItem_throws st |}.

Definition setRefinePrompt (s : jstring) (st : AppState) : AppState :=
  {| itinerary := itinerary st; refinePrompt := s;
     showRefineInput := showRefineInput st; isRefining := isRefining st;
     savedPlans := savedPlans st; alerts := alerts st;
     setItem_throws := setItem_throws st |}.

Definition setShowRefineInput (b : bool) (st : AppState) : AppState :=
  {| itinerary := itinerary st; refinePrompt := refinePrompt st;
     showRefineInput := b; isRefining := isRefining st;
     savedPlans := savedPlans st; alerts := alerts st;
     setItem_throws := setItem_throws st |}.

Definition setIsRefining (b : bool) (st : AppState) : AppState :=
  {| itinerary := itinerary st; refinePrompt := refinePrompt st;
     showRefineInput := showRefineInput st; isRefining := b;
     savedPlans := savedPlans st; alerts := alerts st;
     setItem_throws := setItem_throws st |}.

Definition setSavedPlans (v : JSValue) (st : AppState) : AppState :=
  {| itinerary := itinerary st; refinePrompt := refinePrompt st;
     showRefineInput := showRefineInput st; isRefining := isRefining st;
     savedPlans := v; alerts := alerts st;
     setItem_throws := setItem_throws st |}.

Definition alert (msg : jstring) (st : AppState) : AppState :=
  {| itinerary := itinerary st; refinePrompt := refinePrompt st;
     showRefineInput := showRefineInput st; isRefining := isRefining st;
     savedPlans := savedPlans st; alerts := msg :: alerts st;
     setItem_throws := setItem_throws st |}.

(** [savedPlans.filter(p => p.id !== plan.id)] *)
Fixpoint filter_others (plan : JSValue) (plans : list JSValue) : outcome (list JSValue) :=
  match plans with
  | [] => Return []
  | p :: rest =>
      pid ← get_prop p (js "id");
      planid ← get_prop plan (js "id");
      match strict_eq pid planid with
      | None => Unmodelled
      | Some same =>
          rest' ← filter_others plan rest;
          Return (if same then rest' else p :: rest')
      end
  end.

(** A statement of a handler: the state it leaves, and how it ended. *)
Abbreviation step := (AppState * outcome unit)%type.

(** [saveToHistory(plan)] (lines 39-43):
<<
      const updated = [plan, ...savedPlans.filter(p => p.id !== plan.id)];
      setSavedPlans(updated);
      localStorage.setItem('cicerone_saved_plans', JSON.stringify(updated));
>> *)
Definition saveToHistory (plan : JSValue) (st : AppState) : step :=
  match ps ← as_array (savedPlans st); filter_others plan ps with
  | Return others =>
      let st' := setSavedPlans (JArray (plan :: others)) st in
      match setItem_throws st with
      | Some e => (st', Throw e)
      | None => (st', Return ())
      end
  | Throw e => (st, Throw e)
  | Unmodelled => (st, Unmodelled)
  end.

Section Shell.

(** The [refineItinerary] the shell imports. *)
Variable refineItinerary : JSValue -> jstring -> Completion -> outcome JSValue.

(** The [try] block of [handleRefine] (lines 105-111). *)
Definition handleRefine_try (st : AppState) (response : Completion) : step :=
  match updated ← refineItinerary (itinerary st) (refinePrompt st) response;
        id ← get_prop (itinerary st) (js "id");
        set_prop updated (js "id") id with
  | Return updated =>
      saveToHistory updated
        (setShowRefineInput false (setRefinePrompt [] (setItinerary updated st)))
  | Throw e => (st, Throw e)
  | Unmodelled => (st, Unmodelled)
  end.

(** [handleRefine] (lines 102-117):
<<
    if (!itinerary || !refinePrompt.trim()) return;
    setIsRefining(true);
    try { ... } catch (error) { alert("Refinement failed."); }
    finally { setIsRefining(false); }
>> *)
Definition handleRefine (st : AppState) (response : Completion) : outcome AppState :=
  if negb (truthy (itinerary st)) || negb (truthy (JString (trim (refinePrompt st))))
  then Return st
  else
    match handleRefine_try (setIsRefining true st) response with
    | (st', Return _) => Return (setIsRefining false st')
    | (st', Throw _) => Return (setIsRefining false (alert (js "Refinement failed.") st'))
    | (_, Unmodelled) => Unmodelled
    end.

End Shell.

(** ** A reading of [JSON.parse]

    The grammar of ECMA-404 with the reviver left out: what [JSON.parse]
    returns on a text, [None] where it throws. Numbers are read exactly
    (the built-in rounds them to the nearest double). The theorems do not
    depend on it: they hold for any function in the place of [JSON.parse];
    it is what the examples run. *)
Module JSON.

Definition is_json_ws (c : N) : bool :=
  (c =? 32)%N || (c =? 9)%N || (c =? 10)%N || (c =? 13)%N.

Fixpoint skip_ws (s : jstring) : jstring :=
  match s with
  | c :: s' => if is_json_ws c then skip_ws s' else s
  | [] => []
  end.

Definition digit (c : N) : option N :=
  if (48 <=? c)%N && (c <=? 57)%N then Some (c - 48)%N else None.

Definition hex_digit (c : N) : option N :=
  if (48 <=? c)%N && (c <=? 57)%N then Some (c - 48)%N
  else if (97 <=? c)%N && (c <=? 102)%N then Some (c - 87)%N
  else if (65 <=? c)%N && (c <=? 70)%N then Some (c - 55)%N
  else None.

(** The digits at the head of [s]: their value on top of [acc], how many
    they are, and the rest. *)
Fixpoint digits (s : jstring) (acc : N) (n : nat) : N * nat * jstring :=
  match s with
  | c :: s' =>
      match digit c with
      | Some d => digits s' (10 * acc + d)%N (S n)
      | None => (acc, n, s)
      end
  | [] => (acc, n, [])
  end.

(** The characters of a string literal after its opening quote, up to the
    closing one: escapes are decoded, a control character ends the parse. *)
Fixpoint string_body (s : jstring) (acc : jstring) : option (jstring * jstring) :=
  match s with
  | [] => None
  | 34%N :: rest => Some (reverse acc, rest)
  | 92%N :: 117%N :: a :: b :: c :: d :: rest =>
      match hex_digit a, hex_digit b, hex_digit c, hex_digit d with
      | Some x, Some y, Some z, Some w =>
          string_body rest ((4096 * x + 256 * y + 16 * z + w)%N :: acc)
      | _, _, _, _ => None
      end
  | 92%N :: e :: rest =>
      match e with
      | 34%N => string_body rest (34%N :: acc)
      | 92%N => string_body rest (92%N :: acc)
      | 47%N => string_body rest (47%N :: acc)
      | 98%N => string_body rest (8%N :: acc)
      | 102%N => string_body rest (12%N :: acc)
      | 110%N => string_body rest (10%N :: acc)
      | 114%N => string_body rest (13%N :: acc)
      | 116%N => string_body rest (9%N :: acc)
      | _ => None
      end
  | c :: rest => if (c <? 32)%N then None else string_body rest (c :: acc)
  end.

(** [-? int frac? exp?], as the rational it denotes. *)
Definition number (s : jstring) : option (Q * jstring) :=
  let (neg, s1) := match s with 45%N :: r => (true, r) | _ => (false, s) end in
  match s1 with
  | [] => None
  | c :: _ =>
      match digits s1 0 0 with
      | (_, O, _) => None
      | (i, S ni, s2) =>
          if (c =? 48)%N && negb (Nat.eqb ni 0) then None
          else
            let '(m, nf, s3, ok_frac) :=
              match s2 with
              | 46%N :: r =>
                  let '(m, nf, r') := digits r i 0 in (m, nf, r', negb (Nat.eqb nf 0))
              | _ => (i, O, s2, true)
              end in
            let '(e, s4, ok_exp) :=
              match s3 with
              | (101%N | 69%N) :: r =>
                  let (eneg, r1) :=
                    match r with
                    | 45%N :: r' => (true, r')
                    | 43%N :: r' => (false, r')
                    | _ => (false, r)
                    end in
                  let '(ev, ne, r2) := digits r1 0 0 in
                  ((if eneg then - Z.of_N ev else Z.of_N ev)%Z, r2, negb (Nat.eqb ne 0))
              | _ => (0%Z, s3, true)
              end in
            if ok_frac && ok_exp then
              let scale := (e - Z.of_nat nf)%Z in
              let mz := (if neg then - Z.of_N m else Z.of_N m)%Z in
              let q := if (0 <=? scale)%Z
                       then Qmake (mz * 10 ^ scale) 1
                       else Qred (Qmake mz (Z.to_pos (10 ^ (- scale)))) in
              Some (q, s4)
            else None
      end
  end.

(** A value, the elements of an array after its opening bracket, and the
    members of an object after its opening brace. [fuel] bounds the calls;
    twice the length of the text and two is enough for any text. *)
Fixpoint value (fuel : nat) (s : jstring) : option (JSValue * jstring) :=
  match fuel with
  | O => None
  | S fuel' =>
      match skip_ws s with
      | 123%N :: r =>
          match skip_ws r with
          | 125%N :: r' => Some (JObject ∅, r')
          | _ => members fuel' r ∅
          end
      | 91%N :: r =>
          match skip_ws r with
          | 93%N :: r' => Some (JArray [], r')
          | _ => elements fuel' r []
          end
      | 34%N :: r =>
          match string_body r [] with
          | Some (str, r') => Some (JString str, r')
          | None => None
          end
      | 116%N :: 114%N :: 117%N :: 101%N :: r => Some (JBool true, r)
      | 102%N :: 97%N :: 108%N :: 115%N :: 101%N :: r => Some (JBool false, r)
      | 110%N :: 117%N :: 108%N :: 108%N :: r => Some (JNull, r)
      | s' =>
          match number s' with
          | Some (q, r) => Some (JNumber q, r)
          | None => None
          end
      end
  end
with elements (fuel : nat) (s : jstring) (acc : list JSValue)
  : option (JSValue * jstring) :=
  match fuel with
  | O => None
  | S fuel' =>
      match value fuel' s with
      | Some (v, r) =>
          match skip_ws r with
          | 44%N :: r' => elements fuel' r' (v :: acc)
          | 93%N :: r' => Some (JArray (reverse (v :: acc)), r')
          | _ => None
          end
      | None => None
      end
  end
with members (fuel : nat) (s : jstring) (acc : gmap jstring JSValue)
  : option (JSValue * jstring) :=
  match fuel with
  | O => None
  | S fuel' =>
      match skip_ws s with
      | 34%N :: r =>
          match string_body r [] with
          | Some (k, r1) =>
              match skip_ws r1 with
              | 58%N :: r2 =>
                  match value fuel' r2 with
                  | Some (v, r3) =>
                      match skip_ws r3 with
                      | 44%N :: r4 => members fuel' r4 (<[k := v]> acc)
                      | 125%N :: r4 => Some (JObject (<[k := v]> acc), r4)
                      | _ => None
                      end
                  | None => None
                  end
              | _ => None
              end
          | None => None
          end
      | _ => None
      end
  end.

(** [JSON.parse(text)] *)
Definition parse (text : jstring) : option JSValue :=
  match value (2 * length text + 2) text with
  | Some (v, rest) =>
      match skip_ws rest with
      | [] => Some v
      | _ :: _ => None
      end
  | None => None
  end.

End JSON.

(** * Definitions of the statements

    What the theorems say of the program: readers of itineraries, the
    relations that state the sanitizer, and the itineraries and
    responses of the examples. *)

(** ** Facts about the string built-ins *)

Abbreviation ws_run := (Forall (fun c : N => is_ws c = true)).

(** ** The two patterns of [cleanJson], in closed form *)

(** The rest of both patterns after the group, [\s*```], matches at [s]. *)
Definition closes (s : jstring) : bool := startsWith (trimStart s) fence.

(** The capture of the lazy group: the shortest prefix of [s] after which
    [\s*```] matches. *)
Fixpoint lazy_find (s : jstring) : option jstring :=
  if closes s then Some []
  else match s with
       | c :: s' => cons c <$> lazy_find s'
       | [] => None
       end.

(** ** Fenced blocks, as the specification speaks of them *)

(** [pat] occurs in [s] between [pre] and [post], and nowhere earlier. *)
Definition first_occurrence (pat s pre post : jstring) : Prop :=
  s = pre ++ pat ++ post ∧
  ∀ pre' post', s = pre' ++ pat ++ post' -> length pre <= length pre'.

(** [text] holds an opening marker [op] and, after it, a closing fence. *)
Definition block_exists (op text : jstring) : Prop :=
  ∃ pre body post, text = pre ++ op ++ body ++ fence ++ post.

(** [body] is the interior of the fenced block of [text] that opens with
    the first [op] and closes with the first fence after it. *)
Definition fenced_block (op text body : jstring) : Prop :=
  ∃ pre post,
    first_occurrence op text pre (body ++ fence ++ post) ∧
    first_occurrence fence (body ++ fence ++ post) body post.

Abbreviation re_fenced op :=
  [Lit op; Greedy is_ws; LazyGroup any_unit; Greedy is_ws; Lit fence].

(** A span from an opening unit [o] to a closing unit [c] after it. *)
Definition span_exists (o c : N) (text : jstring) : Prop :=
  ∃ pre mid post, text = pre ++ [o] ++ mid ++ [c] ++ post.

(** [out] is the span of [text] from its first [o] to its last [c]. *)
Definition outer_span (o c : N) (text out : jstring) : Prop :=
  ∃ pre mid post,
    text = pre ++ out ++ post ∧ out = [o] ++ mid ++ [c] ∧ (o ∉ pre) ∧ (c ∉ post).

(** The test [first !== -1 && last !== -1 && last > first] of [cleanJson]. *)
Definition span_test (o c : N) (text : jstring) : bool :=
  negb (indexOf text o =? -1)%Z && negb (lastIndexOf text c =? -1)%Z
  && (lastIndexOf text c >? indexOf text o)%Z.

(** No fence starts anywhere in [s]. *)
Definition fence_free (s : jstring) : Prop :=
  ∀ n, startsWith (drop n s) fence = false.

(** ** The sanitizer, as the specification words it *)

(** The four steps of the specification, in their order of priority: the
    interior of a fenced block (one that opens with [```json] before one
    that opens with a bare fence), the span of square brackets, the span of
    braces, the text with the fence markers removed. *)
Inductive Sanitized (text : jstring) : jstring -> Prop :=
  | San_json_block body :
      fenced_block fence_json text body ->
      Sanitized text (trim body)
  | San_block body :
      ¬ block_exists fence_json text ->
      fenced_block fence text body ->
      Sanitized text (trim body)
  | San_brackets out :
      ¬ block_exists fence text ->
      outer_span 91 93 text out ->
      Sanitized text out
  | San_braces out :
      ¬ block_exists fence text ->
      ¬ span_exists 91 93 text ->
      outer_span 123 125 text out ->
      Sanitized text out
  | San_plain :
      ¬ block_exists fence text ->
      ¬ span_exists 91 93 text ->
      ¬ span_exists 123 125 text ->
      Sanitized text (trim (replace_g (replace_g text fence_json []) fence [])).

(** ** Reading itineraries *)

(** [v.k] where it cannot throw. *)
Definition prop (v : JSValue) (k : jstring) : JSValue :=
  match v with
  | JObject p => default JUndefined (p !! k)
  | _ => JUndefined
  end.

Definition nullish (v : JSValue) : bool :=
  match v with
  | JUndefined | JNull => true
  | _ => false
  end.

(** The days of an itinerary and the activities of a day, where they are
    arrays. *)
Definition days_of (it : JSValue) : list JSValue :=
  match prop it (js "days") with
  | JArray ds => ds
  | _ => []
  end.

Definition activities_of (day : JSValue) : list JSValue :=
  match prop day (js "activities") with
  | JArray al => al
  | _ => []
  end.

(** The activity at place [j] of day [d]. *)
Definition activity_at (it : JSValue) (d j : nat) : option JSValue :=
  day ← days_of it !! d; activities_of day !! j.

(** All activities of an itinerary, day after day. *)
Definition all_activities (it : JSValue) : list JSValue :=
  days_of it ≫= activities_of.

(** The activity of the prior itinerary that the lookup holds for [id]: the
    last one whose id is [id]. *)
Definition prior_activity (P id : JSValue) : option JSValue :=
  List.find (fun a => strict_eq_apart (prop a (js "id")) id) (reverse (all_activities P)).

(** [keys] written on the properties [p], each with what [g] gives for it. *)
Definition copy_map (keys : list jstring) (g : jstring -> JSValue)
    (p : gmap jstring JSValue) : gmap jstring JSValue :=
  foldl (fun m k => <[k := g k]> m) p keys.

Definition assign_map (kvs : list (jstring * JSValue))
    (p : gmap jstring JSValue) : gmap jstring JSValue :=
  foldl (fun m kv => <[fst kv := snd kv]> m) p kvs.

(** ** The lookup of prior activities *)

Definition keyed (a : JSValue) : JSValue * JSValue := (prop a (js "id"), a).

(** The copies of [refineItinerary] in the repository. *)
Definition copies : list RefineCopy :=
  [Services.copy; FrontendA.copy; FrontendB.copy; Part003.copy; BackendApi.copy].

(** How a call of the completion service fails the pipeline of
    [recalculateDaySchedule]: the call is rejected, the response has no
    text, or the sanitized text is not JSON. *)
Inductive pipeline_fails (JSON_parse : jstring -> option JSValue) : Completion -> Prop :=
  | fails_rejected reason : pipeline_fails JSON_parse (Rejected reason)
  | fails_no_text text : no_text text = true -> pipeline_fails JSON_parse (Responded text)
  | fails_parse text :
      JSON_parse (Frontend.cleanJson text) = None ->
      pipeline_fails JSON_parse (Responded (Some text)).

(** * The claims *)

(** ** The sanitizer *)


(** A JSON document with a fence inside a string. *)
Definition fenced_inside : jstring := jsq "{'t':'```a[1]b```'}".

Definition plain_document : jstring := jsq " {'a':[1,2],'b':{'c':'x'}} ".

(** ** Reconciliation *)

(** A prior itinerary: one day, one locked activity. *)
Definition prior_text : jstring :=
  jsq "{'id':'p','destination':'Lisbon','days':[{'date':'2025-05-01','dayNumber':1,'activities':[{'id':'a1','time':'09:00','title':'Castle Tour','location':'Alfama','isLocked':true,'feedback':'like'}]}],'wishlist':['tram'],'logistics':{'stay':'Hotel Lisboa'},'startDate':'2025-05-01','durationDays':1,'travelers':2,'interests':['food']}".

Definition prior : JSValue := default JNull (JSON.parse prior_text).

(** A candidate for it: the locked activity moved and renamed, with an
    image; and a new activity that comes with notes of the model. *)
Definition candidate_text : jstring :=
  jsq "{'id':'c','destination':'Lisbon','days':[{'date':'2025-05-01','dayNumber':1,'activities':[{'id':'a1','time':'11:00','title':'Brunch','location':'Baixa','imageUrl':'x.png'},{'id':'n1','time':'13:00','title':'Tram 28','isLocked':true,'userNotes':'Bring sunscreen'}]}],'wishlist':[],'logistics':null,'startDate':'2030-01-01'}".

Definition candidate : JSValue := default JNull (JSON.parse candidate_text).

(** The same candidate as the model sends it where the text is sanitized:
    inside a fence. *)
Definition candidate_fenced : jstring :=
  js "```json" ++ [10%N] ++ candidate_text ++ [10%N] ++ js "```".

(** A prior itinerary in which two activities have the id [a1], the first
    one locked. *)
Definition prior_twice_text : jstring :=
  jsq "{'id':'p','days':[{'activities':[{'id':'a1','title':'Castle Tour','isLocked':true},{'id':'a1','title':'Fado Night','isLocked':false}]}],'wishlist':[],'logistics':{}}".

Definition prior_twice : JSValue := default JNull (JSON.parse prior_twice_text).

Definition request : jstring := js "swap breakfast for brunch".

(** What a call of a service returned, for the examples. *)
Definition returned {A} (d : A) (o : outcome A) : A :=
  match o with
  | Return a => a
  | _ => d
  end.

Definition props_of (v : JSValue) : gmap jstring JSValue :=
  match v with
  | JObject p => p
  | _ => ∅
  end.

(** The locked activity of [prior]. *)
Definition castle_tour : gmap jstring JSValue :=
  props_of (default JNull (activity_at prior 0 0)).

Definition refined : JSValue :=
  returned JNull
    (Services.refineItinerary JSON.parse prior request (Responded (Some candidate_text))).

Definition refined_twice : JSValue :=
  returned JNull
    (Services.refineItinerary JSON.parse prior_twice request (Responded (Some candidate_text))).

(** The candidate's activity [a1]. *)
Definition brunch : JSValue := default JNull (activity_at candidate 0 0).

(** [r.k] is [P.k]: both reads return, and the same value. *)
Definition same_prop (P r : JSValue) (k : jstring) : Prop :=
  ∃ v, get_prop P k = Return v ∧ get_prop r k = Return v.

(** The application state of the examples: [prior] on screen, a request
    typed in, nothing saved yet. *)
Definition on_screen : AppState :=
  {| itinerary := prior; refinePrompt := request; showRefineInput := true;
     isRefining := false; savedPlans := JArray []; alerts := [];
     setItem_throws := None |}.

(** The application state after [handleRefine] ran on [on_screen] with
    the candidate as response. *)
Definition after_refine : AppState :=
  returned on_screen
    (handleRefine (refine_copy JSON.parse Services.copy) on_screen
       (Responded (Some candidate_text))).

(** ** Malformed responses *)

(** The arrival, departure and stay of the examples. *)
Definition trip_logistics : JSValue :=
  default JNull (JSON.parse (jsq
    "{'arrival':{'type':'flight','location':'LIS','time':'09:00'},'departure':{'type':'train','location':'Santa Apolonia','time':'18:00','address':'Av. Infante Dom Henrique 1'},'accommodation':{'name':'Hotel Lisboa','address':'Rua Augusta 1'}}")).

(** A trip input as the form builds it: the interests are an array and the
    logistics hold an arrival, a departure and an accommodation, so the
    prompt template can read it. *)
Definition trip : TripInput :=
  {| destination := str "Lisbon"; startDate := str "2025-05-01";
     durationDays := JNumber 1; budget := str "moderate"; travelers := JNumber 2;
     interests := JArray [str "food"]; mustVisit := str "";
     logistics := trip_logistics |}.

Definition apology : jstring := js "Sorry, I cannot plan this trip.".

(** The copies of [analyzeSocialContent] that parse the text as it comes,
    and those that sanitize it first. *)
Definition analyzers_raw (JSON_parse : jstring -> option JSValue)
  : list (jstring -> jstring -> Completion -> outcome WishlistItem) :=
  [Services.analyzeSocialContent JSON_parse; Part003.analyzeSocialContent JSON_parse;
   BackendApi.analyzeSocialContent JSON_parse].

Definition analyzers_sanitizing (JSON_parse : jstring -> option JSValue)
  : list (jstring -> jstring -> Completion -> outcome WishlistItem) :=
  [FrontendA.analyzeSocialContent JSON_parse; FrontendB.analyzeSocialContent JSON_parse].

(** The activities of the day of [prior], as properties. *)
Definition day_one : list (gmap jstring JSValue) := [castle_tour].

(** What [recalculateDaySchedule] may do to an activity [a] to give [o]:
    nothing, or set [time] and [transportToNext] from an update of the
    parsed response that has the id of [a]. *)
Definition rescheduled (JSON_parse : jstring -> option JSValue) (response : Completion)
    (a o : gmap jstring JSValue) : Prop :=
  o = a ∨
  ∃ text us u,
    response = Responded (Some text) ∧
    JSON_parse (Frontend.cleanJson text) = Some (JArray us) ∧ u ∈ us ∧
    strict_eq_apart (prop u (js "id")) (prop (JObject a) (js "id")) = true ∧
    o = <[js "transportToNext" := prop u (js "transportToNext")]>
          (<[js "time" := prop u (js "time")]> a).

(** What a call of [recalculateDaySchedule] on [activities] ended with: it
    returned as many activities, each with every property of the activity
    at its place, [time] and [transportToNext] apart, and each one
    [rescheduled] from it. *)
Definition keeps_frame (JSON_parse : jstring -> option JSValue) (response : Completion)
    (activities : list (gmap jstring JSValue)) (result : outcome (list JSValue)) : Prop :=
  ∃ out,
    result = Return (JObject <$> out) ∧
    length out = length activities ∧
    Forall2 (fun a o =>
      (∀ k, k ≠ js "time" -> k ≠ js "transportToNext" -> o !! k = a !! k) ∧
      rescheduled JSON_parse response a o) activities out.

Definition object_with_array : jstring := jsq "{'days':[1]}".

(** * More of [refineItinerary] *)

(** The candidate's new activity [n1]. *)
Definition tram : JSValue := default JNull (activity_at candidate 0 1).

(** A prior itinerary whose activity [a1] is not locked and has the user's
    feedback and notes. *)
Definition prior_open_text : jstring :=
  jsq "{'id':'p','days':[{'activities':[{'id':'a1','time':'09:00','title':'Castle Tour','isLocked':false,'feedback':'like','userNotes':'window seat'}]}],'wishlist':[],'logistics':{}}".

Definition prior_open : JSValue := default JNull (JSON.parse prior_open_text).

Definition castle_tour_open : JSValue := default JNull (activity_at prior_open 0 0).

Definition refined_open : JSValue :=
  returned JNull
    (Services.refineItinerary JSON.parse prior_open request (Responded (Some candidate_text))).

Definition no_days_text : jstring := jsq "{'title':'A trip'}".

(** Day for day and activity for activity, the candidate [C] and the result
    [r] go together, and an activity keeps its id where it is a string. *)
Definition same_shape (C r : JSValue) : Prop :=
  Forall2 (fun day day' =>
    Forall2 (fun a a' => ∀ s, prop a (js "id") = JString s -> prop a' (js "id") = JString s)
      (activities_of day) (activities_of day'))
    (days_of C) (days_of r).

(** * The application shell *)

(** The id of a plan, where the plan is an object and its id a string. *)
Definition string_id (v : JSValue) : option jstring :=
  match v with
  | JObject p => match p !! js "id" with Some (JString s) => Some s | _ => None end
  | _ => None
  end.

(** The saved plans other than [plan]: those with another id. *)
Definition others (plan : JSValue) (plans : list JSValue) : list JSValue :=
  filter (fun q => string_id q ≠ string_id plan) plans.

(** A history of two plans, one of them [prior]. *)
Definition earlier_plan : JSValue :=
  default JNull (JSON.parse (jsq "{'id':'q','destination':'Porto','days':[]}")).

Definition with_history : AppState :=
  {| itinerary := prior; refinePrompt := request; showRefineInput := true;
     isRefining := false; savedPlans := JArray [earlier_plan; prior]; alerts := [];
     setItem_throws := None |}.

(** * [generateItinerary] *)

(** What the hydration of [generateItinerary] makes of an activity [a] of
    the response: neutral feedback, empty notes, the lock of the response
    where it is truthy and [false] otherwise, and every other property as
    it came. *)
Definition hydrated (a a' : JSValue) : Prop :=
  prop a' (js "feedback") = str "neutral" ∧
  prop a' (js "userNotes") = str "" ∧
  prop a' (js "isLocked")
  = (if truthy (prop a (js "isLocked")) then prop a (js "isLocked") else JBool false) ∧
  ∀ k, k ∉ [js "feedback"; js "isLocked"; js "userNotes"; js "id"] -> prop a' k = prop a k.

(** Day for day and activity for activity, [R] relates the activities of
    two itineraries. *)
Definition activity_wise (R : JSValue -> JSValue -> Prop) (C r : JSValue) : Prop :=
  Forall2 (fun day day' => Forall2 R (activities_of day) (activities_of day'))
    (days_of C) (days_of r).

(** A response with two activities, one of them locked by the model and
    with notes of the model. *)
Definition generated_text : jstring :=
  jsq "{'destination':'Lisbon','days':[{'activities':[{'id':'g1','title':'Castle','isLocked':true,'userNotes':'from the model'},{'title':'Tram 28'}]}],'logistics':'none','wishlist':['x']}".

Definition generated : JSValue :=
  returned JNull (Services.generateItinerary JSON.parse trip (Responded (Some generated_text))).




(** The callback of the inner [map]. *)
Definition update_activity (activityId : jstring) (updates : gmap jstring JSValue)
    (act : JSValue) : outcome JSValue :=
  id ← get_prop act (js "id");
  match strict_eq id (JString activityId) with
  | Some true => p ← spread act; Return (JObject (updates ∪ p))
  | Some false => Return act
  | None => Unmodelled
  end.

(** [{ ...day, activities: day.activities.map(f) }] *)
Definition update_day (f : JSValue -> outcome JSValue) (day : JSValue) : outcome JSValue :=
  pd ← spread day;
  acts ← get_prop day (js "activities");
  al ← as_array acts;
  al' ← traverse f al;
  Return (JObject (<[js "activities" := JArray al']> pd)).

(** [days.map((day, idx) => idx !== dayIndex ? day : f(day))], from the
    index [idx] on. *)
Fixpoint map_day (f : JSValue -> outcome JSValue) (dayIndex idx : nat)
    (days : list JSValue) : outcome (list JSValue) :=
  match days with
  | [] => Return []
  | day :: rest =>
      day' ← (if bool_decide (idx = dayIndex) then f day else Return day);
      rest' ← map_day f dayIndex (S idx) rest;
      Return (day' :: rest')
  end.

(** [{ ...itinerary, days: itinerary.days.map((day, idx) => ...) }] *)
Definition with_day (f : JSValue -> outcome JSValue) (dayIndex : nat)
    (itinerary : JSValue) : outcome JSValue :=
  p ← spread itinerary;
  days ← get_prop itinerary (js "days");
  ds ← as_array days;
  ds' ← map_day f dayIndex 0 ds;
  Return (JObject (<[js "days" := JArray ds']> p)).

Definition handleUpdateActivity (dayIndex : nat) (activityId : jstring)
    (updates : gmap jstring JSValue) (st : AppState) : step :=
  if negb (truthy (itinerary st)) then (st, Return ())
  else
    match with_day (update_day (update_activity activityId updates)) dayIndex (itinerary st) with
    | Return newItinerary => saveToHistory newItinerary (setItinerary newItinerary st)
    | Throw e => (st, Throw e)
    | Unmodelled => (st, Unmodelled)
    end.

(** [handleAddWishlistItem] (lines 95-100):
<<
    if(!itinerary) return;
    const newItinerary = { ...itinerary,
                           wishlist: [...(itinerary.wishlist || []), item] };
    setItinerary(newItinerary);
    saveToHistory(newItinerary);
>>
    The spread of a wishlist that is truthy and not an array is a
    [TypeError] (it is not iterable), a string apart. *)
Definition iterate (v : JSValue) : outcome (list JSValue) :=
  match v with
  | JArray l => Return l
  | JString _ => Unmodelled
  | _ => Throw TypeError
  end.

Definition handleAddWishlistItem (item : JSValue) (st : AppState) : step :=
  if negb (truthy (itinerary st)) then (st, Return ())
  else
    match p ← spread (itinerary st);
          wishlist ← get_prop (itinerary st) (js "wishlist");
          l ← iterate (if truthy wishlist then wishlist else JArray []);
          Return (JObject (<[js "wishlist" := JArray (l ++ [item])]> p)) with
    | Return newItinerary => saveToHistory newItinerary (setItinerary newItinerary st)
    | Throw e => (st, Throw e)
    | Unmodelled => (st, Unmodelled)
    end.

(** ** [ItineraryView] (src/frontend/components/ItineraryView.tsx, and its
    copy in src/components/MapComponent.tsx) *)

(** The state of the view that [handleAnalyzeLink] reads or writes. *)
Record ViewState : Type := {
  wishlistUrl : jstring;
  analyzingLink : bool
}.

(** The object literal that [analyzeSocialContent] returns, as a value. *)
Definition item_value (item : WishlistItem) : JSValue :=
  JObject (<[js "id" := JString (item_id item)]>
          (<[js "content" := JString (item_content item)]>
          (<[js "type" := JString (item_type item)]>
          (<[js "analysis" := item_analysis item]> ∅)))).

(** [handleAnalyzeLink] (lines 63-75):
<<
    if(!wishlistUrl) return;
    setAnalyzingLink(true);
    try {
        const item = await analyzeSocialContent(wishlistUrl);
        onAddWishlistItem(item);
        setWishlistUrl('');
    } catch(e) {
        alert("Could not analyze link.");
    } finally {
        setAnalyzingLink(false);
    }
>>
    [analyze] is the [analyzeSocialContent] the view imports, [now] what
    [Date.now().toString()] gives it, and [onAddWishlistItem] is
    [handleAddWishlistItem] of the shell. *)
Definition handleAnalyzeLink
    (analyze : jstring -> jstring -> Completion -> outcome WishlistItem) (now : jstring)
    (view : ViewState) (st : AppState) (response : Completion)
  : outcome (ViewState * AppState) :=
  match wishlistUrl view with
  | [] => Return (view, st)
  | _ :: _ =>
      match analyze now (wishlistUrl view) response with
      | Return item =>
          match handleAddWishlistItem (item_value item) st with
          | (st', Return _) =>
              Return ({| wishlistUrl := []; analyzingLink := false |}, st')
          | (st', Throw _) =>
              Return ({| wishlistUrl := wishlistUrl view; analyzingLink := false |},
                      alert (js "Could not analyze link.") st')
          | (_, Unmodelled) => Unmodelled
          end
      | Throw _ =>
          Return ({| wishlistUrl := wishlistUrl view; analyzingLink := false |},
                  alert (js "Could not analyze link.") st)
      | Unmodelled => Unmodelled
      end
  end.

(** [TransportDisplay] (lines 97-100 of ItineraryView.tsx):
<<
    const rawText = activity.transportToNext || '';
    const options = rawText.split('|').map(t => t.trim()).filter(Boolean);
>> *)

(** [s.split(sep)] for a separator of one unit. *)
Fixpoint split (sep : N) (s : jstring) : list jstring :=
  match s with
  | [] => [[]]
  | c :: s' =>
      if (c =? sep)%N then [] :: split sep s'
      else match split sep s' with
           | h :: t => (c :: h) :: t
           | [] => [[c]]
           end
  end.

Definition transport_options (rawText : jstring) : list jstring :=
  filter (fun t => t ≠ []) (trim <$> split 124 rawText).

(** What [handleUpdateActivity] makes of an activity: the activity with
    the updates written over it where its id is the one asked for, the
    activity itself otherwise. *)
Definition edited (activityId : jstring) (updates : gmap jstring JSValue)
    (a a' : JSValue) : Prop :=
  prop a (js "id") = JString activityId ∧ (∃ pa, a = JObject pa ∧ a' = JObject (updates ∪ pa))
  ∨ prop a (js "id") ≠ JString activityId ∧ a' = a.

(** The itinerary [new] is the itinerary [old] with, in the day asked for,
    the updates written over every activity that has the id asked for:
    every other day is the same day, every other activity of that day the
    same activity, no day and no activity is added or dropped, and every
    other property of the itinerary and of the day is what it was. *)
Definition updated_in (dayIndex : nat) (activityId : jstring)
    (updates : gmap jstring JSValue) (old new : JSValue) : Prop :=
  (∀ k, k ≠ js "days" -> prop new k = prop old k) ∧
  length (days_of new) = length (days_of old) ∧
  ∀ d day day',
    days_of old !! d = Some day ->
    days_of new !! d = Some day' ->
    if bool_decide (d = dayIndex)
    then (∀ k, k ≠ js "activities" -> prop day' k = prop day k) ∧
         Forall2 (edited activityId updates) (activities_of day) (activities_of day')
    else day' = day.

(** The user writes a note on the activity [a1] of [prior]. *)
Definition note : gmap jstring JSValue := {[ js "userNotes" := str "book ahead" ]}.

Definition noted : AppState := (handleUpdateActivity 0 (js "a1") note with_history).1.

(** The same state with a storage that is full. *)
Definition storage_full : AppState :=
  {| itinerary := prior; refinePrompt := request; showRefineInput := true;
     isRefining := false; savedPlans := JArray [earlier_plan; prior]; alerts := [];
     setItem_throws := Some (Error (js "QuotaExceededError")) |}.

Definition noted_unsaved : AppState :=
  (handleUpdateActivity 0 (js "a1") note storage_full).1.

Definition pasted : ViewState :=
  {| wishlistUrl := js "https://example.org/p/1"; analyzingLink := false |}.

Definition analyzed_text : jstring :=
  jsq "{'possibleName':'Pink Street','summary':'Bars','tags':['Nightlife']}".

(** [handleReorderActivities] (src/unnamed/part_000, lines 82-93):
<<
    if(!itinerary) return;
    const newItinerary = {
      ...itinerary,
      days: itinerary.days.map((day, idx) =>
        idx === dayIndex ? { ...day, activities: newActivities } : day
      )
    };
    setItinerary(newItinerary);
>> *)
Definition handleReorderActivities (dayIndex : nat) (newActivities : list JSValue)
    (st : AppState) : step :=
  if negb (truthy (itinerary st)) then (st, Return ())
  else
    match with_day (fun day =>
                      pd ← spread day;
                      Return (JObject (<[js "activities" := JArray newActivities]> pd)))
            dayIndex (itinerary st) with
    | Return newItinerary => (setItinerary newItinerary st, Return ())
    | Throw e => (st, Throw e)
    | Unmodelled => (st, Unmodelled)
    end.

(** The state of [App] that [handleCreateItinerary] writes besides that of
    [AppState]. *)
Record Planner : Type := {
  shell : AppState;
  isLoading : bool;
  view : jstring
}.

(** [handleCreateItinerary] (src/unnamed/part_000, lines 44-58):
<<
    setIsLoading(true);
    try {
      const result = await generateItinerary(input);
      result.id = Date.now().toString();
      setItinerary(result);
      setView('planner');
      saveToHistory(result);
    } catch (error) {
      alert("Failed to generate itinerary. Please try again.");
    } finally {
      setIsLoading(false);
    }
>>
    [now] is [Date.now().toString()]. *)
Definition handleCreateItinerary
    (generateItinerary : TripInput -> Completion -> outcome JSValue) (now : jstring)
    (input : TripInput) (pl : Planner) (response : Completion) : outcome Planner :=
  match result ← generateItinerary input response;
        set_prop result (js "id") (JString now) with
  | Return result =>
      match saveToHistory result (setItinerary result (shell pl)) with
      | (st', Return _) =>
          Return {| shell := st'; isLoading := false; view := js "planner" |}
      | (st', Throw _) =>
          Return {| shell := alert (js "Failed to generate itinerary. Please try again.") st';
                    isLoading := false; view := js "planner" |}
      | (_, Unmodelled) => Unmodelled
      end
  | Throw _ =>
      Return {| shell := alert (js "Failed to generate itinerary. Please try again.") (shell pl);
                isLoading := false; view := view pl |}
  | Unmodelled => Unmodelled
  end.

(** The activities of the day of [prior], with a walk put first. *)
Definition walk : JSValue := JObject {[ js "id" := str "w1"; js "title" := str "Walk" ]}.

Definition reordered : AppState :=
  (handleReorderActivities 0 [walk; JObject castle_tour] with_history).1.

Definition at_home : Planner :=
  {| shell := with_history; isLoading := false; view := js "home" |}.

(** * Theorems *)

Set Warnings "-clear-no-such-hyp".

Lemma startsWith_prefix (s pat : jstring) :
  startsWith s pat = true <-> pat `prefix_of` s.
Proof.
  revert s. induction pat as [|p pat IH]; intros s; simpl.
  - split; [intros _; apply prefix_nil | done].
  - destruct s as [|c s].
    + split; [done | intros [k Hk]; discriminate].
    + rewrite andb_true_iff, IH, N.eqb_eq. split.
      * intros [-> Hp]. by apply prefix_cons.
      * intros [k Hk]. simplify_eq/=. split; [done | by exists k].
Qed.

Lemma startsWith_app (pat rest : jstring) : startsWith (pat ++ rest) pat = true.
Proof. apply startsWith_prefix. by exists rest. Qed.

Lemma startsWith_false (s pat : jstring) :
  startsWith s pat = false <-> ¬ pat `prefix_of` s.
Proof. rewrite <- startsWith_prefix. destruct (startsWith s pat); naive_solver. Qed.

Lemma trimStart_split (s : jstring) :
  ∃ w, s = w ++ trimStart s ∧ ws_run w.
Proof.
  induction s as [|c s (w & Hw & Hws)]; simpl.
  - by exists [].
  - destruct (is_ws c) eqn:Hc.
    + exists (c :: w). split; [by rewrite Hw at 1 | by constructor].
    + by exists [].
Qed.

Lemma trimStart_ws_app (w s : jstring) : ws_run w -> trimStart (w ++ s) = trimStart s.
Proof. induction 1 as [|c w Hc _ IH]; simpl; [done | by rewrite Hc]. Qed.

Lemma trimStart_head (s : jstring) c r : trimStart s = c :: r -> is_ws c = false.
Proof.
  induction s as [|x s IH]; simpl; [done |].
  destruct (is_ws x) eqn:Hx; [done | by intros [= <- _]].
Qed.

Lemma trimStart_not_ws (c : N) (s : jstring) : is_ws c = false -> trimStart (c :: s) = c :: s.
Proof. intros H. simpl. by rewrite H. Qed.

Lemma trimStart_idem (s : jstring) : trimStart (trimStart s) = trimStart s.
Proof.
  destruct (trimStart s) as [|c r] eqn:E; [done |].
  apply trimStart_not_ws. eapply trimStart_head, E.
Qed.

Lemma trimStart_suffix (s : jstring) : trimStart s `suffix_of` s.
Proof. destruct (trimStart_split s) as (w & Hw & _). by exists w. Qed.

Lemma trimEnd_app_ws (s w : jstring) : ws_run w -> trimEnd (s ++ w) = trimEnd s.
Proof.
  intros Hw. unfold trimEnd. rewrite reverse_app, trimStart_ws_app; [done |].
  by apply Forall_reverse.
Qed.

Lemma trimEnd_split (s : jstring) : ∃ w, s = trimEnd s ++ w ∧ ws_run w.
Proof.
  destruct (trimStart_split (reverse s)) as (w & Hw & Hws).
  exists (reverse w). split; [| by apply Forall_reverse].
  unfold trimEnd. rewrite <- reverse_app, <- Hw. by rewrite reverse_involutive.
Qed.

Lemma trimEnd_idem (s : jstring) : trimEnd (trimEnd s) = trimEnd s.
Proof. unfold trimEnd. by rewrite reverse_involutive, trimStart_idem. Qed.

Lemma trimEnd_last (s r : jstring) c : trimEnd s = r ++ [c] -> is_ws c = false.
Proof.
  unfold trimEnd. intros H. apply (f_equal reverse) in H.
  rewrite reverse_involutive, reverse_app in H. simpl in H.
  eapply trimStart_head, H.
Qed.

Lemma trim_ws_around (w a w' : jstring) :
  ws_run w -> ws_run w' -> trim (w ++ a ++ w') = trim a.
Proof.
  intros Hw Hw'. unfold trim. rewrite trimStart_ws_app by done.
  destruct (trimStart a) as [|c r] eqn:E.
  - (* [a] is all whitespace *)
    destruct (trimStart_split a) as (wa & Ha & Hwa). rewrite E, app_nil_r in Ha. subst wa.
    destruct (trimStart_split (a ++ w')) as (w2 & H2 & Hw2).
    assert (trimStart (a ++ w') = []) as ->.
    { rewrite trimStart_ws_app by done.
      destruct (trimStart w') as [|x y] eqn:E'; [done |].
      apply trimStart_head in E' as Hx.
      pose proof (trimStart_suffix w') as [k Hk]. rewrite E' in Hk.
      rewrite Hk in Hw'. apply Forall_app in Hw' as [_ Hw'].
      apply Forall_cons in Hw' as [Hx' _]. congruence. }
    done.
  - apply trimStart_head in E as Hc.
    destruct (trimStart_split a) as (wa & Ha & Hwa). rewrite E in Ha.
    rewrite Ha, <- app_assoc. rewrite trimStart_ws_app by done.
    simpl. rewrite Hc. rewrite app_comm_cons. by rewrite trimEnd_app_ws.
Qed.

Lemma trim_idem (s : jstring) : trim (trim s) = trim s.
Proof.
  unfold trim.
  assert (trimStart (trimEnd (trimStart s)) = trimEnd (trimStart s)) as ->; [| apply trimEnd_idem].
  destruct (trimStart s) as [|c r] eqn:E; [done |].
  apply trimStart_head in E as Hc.
  destruct (trimEnd_split (c :: r)) as (w & Hw & Hws).
  destruct (trimEnd (c :: r)) as [|c' r'] eqn:E'; [done |].
  simpl in Hw. injection Hw as <- _. by apply trimStart_not_ws.
Qed.

Lemma trim_sublist (s : jstring) : trim s `sublist_of` s.
Proof.
  unfold trim.
  destruct (trimEnd_split (trimStart s)) as (w & Hw & _).
  destruct (trimStart_split s) as (w' & Hw' & _).
  rewrite Hw' at 2. rewrite Hw at 2.
  apply sublist_inserts_l, sublist_inserts_r. done.
Qed.

(** [trim s] sits inside [s] with whitespace on both sides. *)
Lemma trim_split (s : jstring) : ∃ w w', s = w ++ trim s ++ w' ∧ ws_run w ∧ ws_run w'.
Proof.
  destruct (trimStart_split s) as (w & Hw & Hws).
  destruct (trimEnd_split (trimStart s)) as (w' & Hw' & Hws').
  exists w, w'. split; [| done]. unfold trim. by rewrite <- Hw', <- Hw.
Qed.

Lemma fence_head_not_ws (s : jstring) : startsWith s fence = true -> trimStart s = s.
Proof.
  intros H. apply startsWith_prefix in H as [k ->]. done.
Qed.

Lemma startsWith_ws_head c (s : jstring) :
  is_ws c = true -> startsWith (c :: s) fence ≠ true.
Proof. intros Hc H. apply startsWith_prefix in H as [k Hk]. by simplify_eq/=. Qed.

Lemma fence_length : length fence = 3.
Proof. done. Qed.

Lemma fence_json_length : length fence_json = 7.
Proof. done. Qed.

Lemma fence_json_fence : fence_json = fence ++ js "json".
Proof. done. Qed.

Opaque fence fence_json.

Lemma closes_startsWith (s : jstring) : startsWith s fence = true -> closes s = true.
Proof. intros H. unfold closes. by rewrite fence_head_not_ws. Qed.

Lemma closes_ws_app (w s : jstring) : ws_run w -> closes (w ++ s) = closes s.
Proof. intros H. unfold closes. by rewrite trimStart_ws_app. Qed.

Lemma closes_trimStart (s : jstring) : closes (trimStart s) = closes s.
Proof. unfold closes. by rewrite trimStart_idem. Qed.

Lemma lazy_star_eq cls k (s acc : jstring) :
  lazy_star cls k s acc =
  match k s (reverse acc) with
  | Some r => Some r
  | None =>
      match s with
      | c :: s' => if cls c then lazy_star cls k s' (c :: acc) else None
      | [] => None
      end
  end.
Proof. by destruct s. Qed.

Lemma exec_lit (l s cap : jstring) :
  exec_here [Lit l] s cap = if startsWith s l then Some cap else None.
Proof. done. Qed.

Lemma exec_tail (s cap : jstring) :
  exec_here [Greedy is_ws; Lit fence] s cap = if closes s then Some cap else None.
Proof.
  unfold closes.
  change (exec_here [Greedy is_ws; Lit fence] s cap)
    with (greedy_star is_ws (fun s' => exec_here [Lit fence] s' cap) s).
  induction s as [|c s IH]; [done |].
  cbn [greedy_star trimStart]. destruct (is_ws c) eqn:Hc; [| done].
  rewrite IH. destruct (startsWith (trimStart s) fence); [done |].
  rewrite exec_lit. pose proof (startsWith_ws_head c s Hc).
  by destruct (startsWith (c :: s) fence).
Qed.

Lemma lazy_star_find (s acc : jstring) :
  lazy_star any_unit (exec_here [Greedy is_ws; Lit fence]) s acc
  = (fun a => reverse acc ++ a) <$> lazy_find s.
Proof.
  revert acc. induction s as [|c s IH]; intros acc; rewrite lazy_star_eq, exec_tail;
    cbn [lazy_find].
  - destruct (closes []); simpl; [by rewrite app_nil_r | done].
  - destruct (closes (c :: s)); simpl; [by rewrite app_nil_r |].
    rewrite IH. destruct (lazy_find s); simpl; [| done].
    by rewrite reverse_cons, <- app_assoc.
Qed.

Lemma lazy_find_None_closes (s : jstring) : lazy_find s = None -> closes s = false.
Proof. destruct s; cbn [lazy_find]; destruct (closes _); done. Qed.

Lemma closes_ws_cons c (s : jstring) : is_ws c = true -> closes (c :: s) = closes s.
Proof. intros Hc. unfold closes. cbn [trimStart]. by rewrite Hc. Qed.

Lemma lazy_find_trimStart_None (s : jstring) :
  lazy_find (trimStart s) = None -> lazy_find s = None.
Proof.
  induction s as [|c s IH]; [done |]. cbn [trimStart].
  destruct (is_ws c) eqn:Hc; [| done].
  intros H. cbn [lazy_find]. apply lazy_find_None_closes in H as Hcl.
  rewrite closes_trimStart in Hcl.
  rewrite closes_ws_cons, Hcl by done. by rewrite IH.
Qed.

Lemma greedy_lazy (s : jstring) :
  greedy_star is_ws
    (fun s' => lazy_star any_unit (exec_here [Greedy is_ws; Lit fence]) s' []) s
  = lazy_find (trimStart s).
Proof.
  assert (forall s', lazy_star any_unit (exec_here [Greedy is_ws; Lit fence]) s' []
                     = lazy_find s') as K.
  { intros s'. rewrite lazy_star_find. by destruct (lazy_find s'). }
  induction s as [|c s IH]; cbn [greedy_star trimStart].
  - apply K.
  - destruct (is_ws c) eqn:Hc; [| apply K].
    rewrite IH. destruct (lazy_find (trimStart s)) eqn:E; [done |].
    rewrite K. apply lazy_find_trimStart_None. cbn [trimStart]. by rewrite Hc.
Qed.

(** A pattern [op\s*([\s\S]*?)\s*```] tried at the head of [s]. *)
Lemma exec_fenced (op s : jstring) :
  exec_here [Lit op; Greedy is_ws; LazyGroup any_unit; Greedy is_ws; Lit fence] s []
  = if startsWith s op then lazy_find (trimStart (drop (length op) s)) else None.
Proof.
  change (exec_here [Lit op; Greedy is_ws; LazyGroup any_unit; Greedy is_ws; Lit fence] s [])
    with (if startsWith s op
          then greedy_star is_ws
                 (fun s' => lazy_star any_unit (exec_here [Greedy is_ws; Lit fence]) s' [])
                 (drop (length op) s)
          else None).
  destruct (startsWith s op); [apply greedy_lazy | done].
Qed.

Lemma lazy_find_Some (s a : jstring) :
  lazy_find s = Some a ->
  ∃ b, s = a ++ b ∧ closes b = true ∧ ∀ n, n < length a -> closes (drop n s) = false.
Proof.
  revert a. induction s as [|c s IH]; intros a; cbn [lazy_find].
  - destruct (closes []) eqn:E; [| done]. intros [= <-]. exists []. split_and!; [done..|].
    simpl. lia.
  - destruct (closes (c :: s)) eqn:E.
    + intros [= <-]. exists (c :: s). split_and!; [done..|]. simpl. lia.
    + destruct (lazy_find s) as [a'|] eqn:E'; simpl; [| done].
      intros [= <-]. destruct (IH a' eq_refl) as (b & -> & Hb & Hmin).
      exists b. split_and!; [done..|].
      intros [|n] Hn; simpl; [done |]. apply Hmin. simpl in Hn. lia.
Qed.

Lemma lazy_find_None (s : jstring) :
  lazy_find s = None -> ∀ n, closes (drop n s) = false.
Proof.
  induction s as [|c s IH]; cbn [lazy_find].
  - destruct (closes []) eqn:E; [done |]. intros _ n. by rewrite drop_nil.
  - destruct (closes (c :: s)) eqn:E; [done |].
    destruct (lazy_find s) eqn:E'; simpl; [done |].
    intros _ [|n]; [done | simpl; by apply IH].
Qed.

Lemma regex_match_Some (re : list atom) (s cap : jstring) :
  regex_match re s = Some cap ->
  ∃ j, exec_here re (drop j s) [] = Some cap ∧
       ∀ j', j' < j -> exec_here re (drop j' s) [] = None.
Proof.
  induction s as [|c s IH]; simpl.
  - destruct (exec_here re [] []) eqn:E; [| done]. intros [= <-].
    exists 0. split; [done | lia].
  - destruct (exec_here re (c :: s) []) eqn:E.
    + intros [= <-]. exists 0. split; [done | lia].
    + intros H. destruct (IH H) as (j & Hj & Hmin). exists (S j). split; [done |].
      intros [|j'] Hj'; [done |]. simpl. apply Hmin. lia.
Qed.

Lemma regex_match_None (re : list atom) (s : jstring) :
  regex_match re s = None -> ∀ j, exec_here re (drop j s) [] = None.
Proof.
  induction s as [|c s IH]; simpl.
  - destruct (exec_here re [] []) eqn:E; [done |]. intros _ j. by rewrite drop_nil.
  - destruct (exec_here re (c :: s) []) eqn:E; [done |].
    intros H [|j]; [done | simpl; by apply IH].
Qed.

Lemma fence_not_in_ws (w s : jstring) n :
  ws_run w -> n < length w -> startsWith (drop n (w ++ s)) fence = false.
Proof.
  intros Hw Hn. rewrite drop_app_le by lia.
  destruct (drop n w) as [|c r] eqn:E.
  { apply (f_equal length) in E. rewrite length_drop in E. simpl in E. lia. }
  assert (is_ws c = true) as Hc.
  { assert (c ∈ w) as Hin.
    { rewrite <- (take_drop n w), E. set_solver. }
    by eapply Forall_forall in Hw. }
  simpl. pose proof (startsWith_ws_head c (r ++ s) Hc).
  by destruct (startsWith (c :: r ++ s) fence).
Qed.

Lemma closes_false_startsWith (s : jstring) :
  closes s = false -> startsWith s fence = false.
Proof.
  intros H. destruct (startsWith s fence) eqn:E; [| done].
  apply closes_startsWith in E. congruence.
Qed.

Lemma block_not_None (op text : jstring) :
  block_exists op text -> regex_match (re_fenced op) text ≠ None.
Proof.
  intros (pre & body & post & ->) H.
  pose proof (regex_match_None _ _ H (length pre)) as Hj.
  rewrite drop_app_length, exec_fenced, startsWith_app, drop_app_length in Hj.
  apply lazy_find_trimStart_None in Hj.
  pose proof (lazy_find_None _ Hj (length body)) as Hc.
  rewrite drop_app_length in Hc.
  apply closes_false_startsWith in Hc. by rewrite startsWith_app in Hc.
Qed.

Lemma regex_fenced_Some (op text cap : jstring) :
  op ≠ [] ->
  regex_match (re_fenced op) text = Some cap ->
  ∃ body, fenced_block op text body ∧ trim body = trim cap.
Proof.
  intros Hop H. apply regex_match_Some in H as (j & Hj & Hmin).
  rewrite exec_fenced in Hj.
  destruct (startsWith (drop j text) op) eqn:Hs; [| done].
  apply startsWith_prefix in Hs as [rest1 Hrest1].
  rewrite Hrest1, drop_app_length in Hj.
  destruct (trimStart_split rest1) as (w & Hw & Hws).
  apply lazy_find_Some in Hj as (b & Hb & Hcl & Hcap).
  unfold closes in Hcl. apply startsWith_prefix in Hcl as [post Hpost].
  destruct (trimStart_split b) as (w' & Hw' & Hws'). rewrite Hpost in Hw'.
  assert (j < length text) as Hjlen.
  { destruct (decide (j < length text)); [done |].
    rewrite drop_ge in Hrest1 by lia. by destruct op. }
  set (pre := take j text).
  assert (length pre = j) as Hpre by (unfold pre; rewrite length_take; lia).
  assert (text = pre ++ op ++ rest1) as Htext.
  { unfold pre. by rewrite <- Hrest1, take_drop. }
  clearbody pre.
  assert (rest1 = (w ++ cap ++ w') ++ fence ++ post) as Hr1.
  { rewrite Hw, Hb, Hw'. by rewrite <- !app_assoc. }
  exists (w ++ cap ++ w'). split; [| by apply trim_ws_around].
  exists pre, post. rewrite <- Hr1. split; split; try done.
  - (* no opening marker earlier *)
    intros pre' post' Hpre'.
    destruct (decide (length pre <= length pre')) as [|Hlt]; [done | exfalso].
    pose proof (Hmin (length pre') ltac:(lia)) as Hnone.
    rewrite Hpre' in Hnone at 1.
    rewrite drop_app_length, exec_fenced, startsWith_app, drop_app_length in Hnone.
    apply lazy_find_trimStart_None in Hnone.
    assert (post' = drop (length pre' + length op) text) as Hp'.
    { rewrite Hpre' at 1. rewrite app_assoc.
      rewrite drop_app_ge; rewrite length_app; [| lia].
      by replace (_ - _) with 0 by lia. }
    set (X := pre ++ op ++ w ++ cap ++ w').
    assert (text = X ++ fence ++ post) as HX.
    { rewrite Htext, Hr1. unfold X. by rewrite <- !app_assoc. }
    assert (length pre' + length op <= length X) as Hlen.
    { unfold X. rewrite !length_app. lia. }
    clearbody X. rewrite HX in Hp'. rewrite drop_app_le in Hp' by done.
    pose proof (lazy_find_None _ Hnone (length (drop (length pre' + length op) X))) as Hc.
    rewrite Hp', drop_app_length in Hc.
    apply closes_false_startsWith in Hc. by rewrite startsWith_app in Hc.
  - (* no closing fence earlier *)
    intros b' post'' Hb'.
    destruct (decide (length (w ++ cap ++ w') <= length b')) as [|Hlt]; [done | exfalso].
    assert (startsWith (drop (length b') rest1) fence = true) as Hst.
    { rewrite Hb', drop_app_length. apply startsWith_app. }
    rewrite !length_app in Hlt.
    destruct (decide (length b' < length w)) as [H1|H1].
    { rewrite Hr1, <- app_assoc, fence_not_in_ws in Hst by done. done. }
    destruct (decide (length b' < length w + length cap)) as [H2|H2].
    { pose proof (Hcap (length b' - length w) ltac:(lia)) as Hc.
      apply closes_false_startsWith in Hc.
      rewrite Hw in Hst. rewrite drop_app_ge in Hst by lia. congruence. }
    rewrite Hw, Hb in Hst. rewrite app_assoc in Hst.
    rewrite drop_app_ge in Hst by (rewrite length_app; lia).
    rewrite Hw', length_app in Hst.
    rewrite fence_not_in_ws in Hst; [done | done | lia].
Qed.

Lemma regex_fenced_None (op text : jstring) :
  op ≠ [] ->
  regex_match (re_fenced op) text = None <-> ¬ block_exists op text.
Proof.
  intros Hop. split.
  - intros H Hb. by apply block_not_None in Hb.
  - intros Hb. destruct (regex_match (re_fenced op) text) as [cap|] eqn:E; [| done].
    exfalso. apply Hb. apply regex_fenced_Some in E as (body & (pre & post & [-> _] & _) & _); [| done].
    by exists pre, body, post.
Qed.

(** ** [indexOf], [lastIndexOf], [substring] *)

Lemma indexOf_cases (s : jstring) (c : N) :
  (indexOf s c = (-1)%Z ∧ c ∉ s) ∨
  (∃ pre post, s = pre ++ c :: post ∧ (c ∉ pre) ∧ indexOf s c = Z.of_nat (length pre)).
Proof.
  unfold indexOf. destruct (list_find (fun x => x = c) s) as [[i x]|] eqn:E.
  - right. apply list_find_Some in E as (Hi & -> & Hmin).
    exists (take i s), (drop (S i) s). split_and!.
    + by rewrite take_drop_middle.
    + intros Hin. apply list_elem_of_lookup in Hin as [j Hj].
      apply lookup_take_Some in Hj as [Hj Hlt]. by eapply Hmin.
    + rewrite length_take. apply lookup_lt_Some in Hi. f_equal. lia.
  - left. split; [done |]. apply list_find_None in E.
    intros Hin. by eapply Forall_forall in E.
Qed.

Lemma lastIndexOf_cases (s : jstring) (c : N) :
  (lastIndexOf s c = (-1)%Z ∧ c ∉ s) ∨
  (∃ pre post, s = pre ++ c :: post ∧ (c ∉ post) ∧ lastIndexOf s c = Z.of_nat (length pre)).
Proof.
  unfold lastIndexOf. destruct (list_find (fun x => x = c) (reverse s)) as [[i x]|] eqn:E.
  - right. apply list_find_Some in E as (Hi & -> & Hmin).
    pose proof (take_drop_middle _ _ _ Hi) as Hs.
    apply (f_equal reverse) in Hs. rewrite reverse_involutive, reverse_app, reverse_cons in Hs.
    rewrite <- app_assoc in Hs. simpl in Hs.
    exists (reverse (drop (S i) (reverse s))), (reverse (take i (reverse s))). split_and!.
    + done.
    + rewrite elem_of_reverse. intros Hin. apply list_elem_of_lookup in Hin as [j Hj].
      apply lookup_take_Some in Hj as [Hj Hlt]. by eapply Hmin.
    + rewrite length_reverse, length_drop, length_reverse.
      apply lookup_lt_Some in Hi. rewrite length_reverse in Hi. f_equal. lia.
  - left. split; [done |]. apply list_find_None in E.
    intros Hin. apply elem_of_reverse in Hin. by eapply Forall_forall in E.
Qed.

Lemma substring_nat (s : jstring) (i j : nat) :
  i <= j -> j <= length s ->
  substring s (Z.of_nat i) (Z.of_nat j) = take (j - i) (drop i s).
Proof.
  intros Hij Hj. unfold substring. cbv zeta beta.
  replace (Z.max 0 (Z.min (Z.of_nat i) (Z.of_nat (length s)))) with (Z.of_nat i) by lia.
  replace (Z.max 0 (Z.min (Z.of_nat j) (Z.of_nat (length s)))) with (Z.of_nat j) by lia.
  rewrite Z.min_l, Z.max_r by lia. f_equal; [lia | f_equal; lia].
Qed.

Lemma span_test_true (o c : N) (text : jstring) :
  span_test o c text = true ->
  outer_span o c text (substring text (indexOf text o) (lastIndexOf text c + 1)).
Proof.
  unfold span_test. intros H.
  destruct (indexOf_cases text o) as [[E _]|(pre & post1 & Ht1 & Hpre & E)];
    rewrite E in H |- *; [done |].
  destruct (lastIndexOf_cases text c) as [[E' _]|(pre2 & post & Ht2 & Hpost & E')];
    rewrite E' in H |- *; [by rewrite andb_false_r in H |].
  apply andb_true_iff in H as [_ H]. apply Z.gtb_lt in H.
  assert (length pre < length pre2) as Hlt by lia.
  assert (∃ mid, pre2 = pre ++ o :: mid) as [mid Hp2].
  { exists (take (length pre2 - length pre - 1) post1).
    pose proof (f_equal (take (length pre2)) Ht2) as Ht.
    rewrite take_app_length in Ht. rewrite <- Ht at 1. rewrite Ht1.
    rewrite take_app_ge by lia. f_equal.
    destruct (length pre2 - length pre) as [|k] eqn:Ek; [lia |].
    simpl. by rewrite Nat.sub_0_r. }
  assert (text = pre ++ ([o] ++ mid ++ [c]) ++ post) as Ht.
  { rewrite Ht2 at 1. rewrite Hp2. by rewrite <- !app_assoc. }
  assert (substring text (Z.of_nat (length pre)) (Z.of_nat (length pre2) + 1)
          = [o] ++ mid ++ [c]) as ->.
  { replace (Z.of_nat (length pre2) + 1)%Z with (Z.of_nat (S (length pre2))) by lia.
    rewrite substring_nat.
    - rewrite Ht at 1. rewrite drop_app_length.
      replace (S (length pre2) - length pre) with (length ([o] ++ mid ++ [c])).
      + by rewrite take_app_length.
      + rewrite Hp2. rewrite !length_app. simpl. lia.
    - lia.
    - rewrite Ht2. rewrite length_app. simpl. lia. }
  by exists pre, mid, post.
Qed.

Lemma span_test_false (o c : N) (text : jstring) :
  span_test o c text = false -> ¬ span_exists o c text.
Proof.
  unfold span_test. intros H (a & m & p & Ht).
  assert (text !! length a = Some o) as Ho.
  { rewrite Ht. by rewrite lookup_app_r, Nat.sub_diag by lia. }
  assert (text !! (length a + 1 + length m) = Some c) as Hc.
  { rewrite Ht. rewrite lookup_app_r by lia.
    replace (length a + 1 + length m - length a) with (S (length m)) by lia.
    simpl. by rewrite lookup_app_r, Nat.sub_diag by lia. }
  destruct (indexOf_cases text o) as [[E Hn]|(pre & post1 & Ht1 & Hpre & E)].
  { apply Hn. by eapply list_elem_of_lookup_2. }
  destruct (lastIndexOf_cases text c) as [[E' Hn]|(pre2 & post & Ht2 & Hpost & E')].
  { apply Hn. by eapply list_elem_of_lookup_2. }
  rewrite E, E' in H.
  assert (length pre <= length a) as H1.
  { destruct (decide (length pre <= length a)); [done |].
    exfalso. apply Hpre. apply list_elem_of_lookup. exists (length a).
    rewrite Ht1 in Ho. by rewrite lookup_app_l in Ho by lia. }
  assert (length a + 1 + length m <= length pre2) as H2.
  { destruct (decide (length a + 1 + length m <= length pre2)); [done |].
    exfalso. apply Hpost. apply list_elem_of_lookup.
    exists (length a + 1 + length m - length pre2 - 1).
    rewrite Ht2 in Hc. rewrite lookup_app_r in Hc by lia.
    replace (length a + 1 + length m - length pre2)
      with (S (length a + 1 + length m - length pre2 - 1)) in Hc by lia.
    done. }
  assert ((Z.of_nat (length pre2) >? Z.of_nat (length pre))%Z = true) as Hgt.
  { apply Z.gtb_lt. lia. }
  rewrite Hgt in H.
  destruct (Z.eqb_spec (Z.of_nat (length pre)) (-1)); [lia |].
  destruct (Z.eqb_spec (Z.of_nat (length pre2)) (-1)); [lia |].
  done.
Qed.

(** ** [replace] with the [g] flag *)

Lemma replace_from_skip (pat rep l t : jstring) :
  replace_from pat rep (length l) (l ++ t) = replace_from pat rep 0 t.
Proof. induction l as [|x l IH]; [done | apply IH]. Qed.

Lemma replace_g_match (pat rep t : jstring) :
  pat ≠ [] -> replace_g (pat ++ t) pat rep = rep ++ replace_g t pat rep.
Proof.
  intros Hp. unfold replace_g. destruct pat as [|p pat]; [done |].
  change ((p :: pat) ++ t) with (p :: (pat ++ t)). cbn [replace_from].
  assert (startsWith (p :: pat ++ t) (p :: pat) = true) as ->
    by apply (startsWith_app (p :: pat) t).
  replace (length (p :: pat) - 1) with (length pat) by (simpl; lia).
  by rewrite replace_from_skip.
Qed.

Lemma replace_g_nomatch (pat rep s : jstring) c :
  startsWith (c :: s) pat = false ->
  replace_g (c :: s) pat rep = c :: replace_g s pat rep.
Proof. intros H. unfold replace_g. cbn [replace_from]. by rewrite H. Qed.

Lemma replace_g_nil (pat rep : jstring) : replace_g [] pat rep = [].
Proof. done. Qed.

(** An induction that follows [replace_g]. *)
Lemma replace_g_ind (pat : jstring) (P : jstring -> Prop) :
  pat ≠ [] ->
  P [] ->
  (∀ t, P t -> P (pat ++ t)) ->
  (∀ c s, startsWith (c :: s) pat = false -> P s -> P (c :: s)) ->
  ∀ s, P s.
Proof.
  intros Hp H0 Hm Hn s.
  remember (length s) as n eqn:En. revert s En.
  induction n as [n IH] using lt_wf_ind. intros s ->.
  destruct s as [|c s]; [done |].
  destruct (startsWith (c :: s) pat) eqn:E.
  - apply startsWith_prefix in E as [t Ht]. rewrite Ht. apply Hm.
    eapply IH; [| done]. rewrite Ht, length_app. destruct pat; [done | simpl; lia].
  - apply Hn; [done |]. eapply IH; [| done]. simpl. lia.
Qed.

Lemma replace_g_sublist (pat s : jstring) :
  pat ≠ [] -> replace_g s pat [] `sublist_of` s.
Proof.
  intros Hp. revert s. apply (replace_g_ind pat); [done | done | |].
  - intros t IH. rewrite replace_g_match by done. by apply sublist_inserts_l.
  - intros c s E IH. rewrite replace_g_nomatch by done. by apply sublist_skip.
Qed.

Lemma fence_free_no_block (op s : jstring) : fence_free s -> ¬ block_exists op s.
Proof.
  intros Hf (pre & body & post & ->).
  specialize (Hf (length (pre ++ op ++ body))).
  rewrite !app_assoc in Hf. rewrite <- (app_assoc _ fence post) in Hf.
  rewrite <- !app_assoc in Hf. rewrite !app_assoc in Hf.
  rewrite <- (app_assoc _ fence post) in Hf.
  by rewrite drop_app_length, startsWith_app in Hf.
Qed.

Lemma replace_g_free (pat rep s : jstring) :
  (∀ n, startsWith (drop n s) pat = false) -> replace_g s pat rep = s.
Proof.
  intros H. induction s as [|c s IH]; [done |].
  rewrite replace_g_nomatch by apply (H 0). f_equal. apply IH.
  intros n. apply (H (S n)).
Qed.

Lemma fence_free_json (s : jstring) :
  fence_free s -> ∀ n, startsWith (drop n s) fence_json = false.
Proof.
  intros H n. apply startsWith_false. intros [k Hk].
  specialize (H n). apply startsWith_false in H. apply H.
  rewrite Hk, fence_json_fence, <- app_assoc. by eexists.
Qed.

Lemma fence_units : fence = [96; 96; 96]%N.
Proof. reflexivity. Qed.

Lemma replace_fence_head (s r : jstring) :
  replace_g s fence [] = 96%N :: r -> ∃ t, s = 96%N :: t.
Proof.
  destruct s as [|c s]; [done |].
  destruct (startsWith (c :: s) fence) eqn:E.
  - apply startsWith_prefix in E as [k Hk]. rewrite fence_units in Hk.
    simplify_eq/=. by eexists.
  - rewrite replace_g_nomatch by done. intros [= -> _]. by eexists.
Qed.

Lemma replace_fence_head2 (s r : jstring) :
  replace_g s fence [] = 96%N :: 96%N :: r -> ∃ t, s = 96%N :: 96%N :: t.
Proof.
  destruct s as [|c s]; [done |].
  destruct (startsWith (c :: s) fence) eqn:E.
  - apply startsWith_prefix in E as [k Hk]. rewrite fence_units in Hk.
    simplify_eq/=. by eexists.
  - rewrite replace_g_nomatch by done. intros [= -> H].
    apply replace_fence_head in H as [t ->]. by eexists.
Qed.

Lemma replace_fence_free (s : jstring) : fence_free (replace_g s fence []).
Proof.
  assert (fence ≠ []) as Hne by (by rewrite fence_units).
  revert s. apply (replace_g_ind fence); [done | | |].
  - intros n. rewrite replace_g_nil, drop_nil. by rewrite fence_units.
  - intros t IH. by rewrite replace_g_match.
  - intros c s E IH [|n].
    + rewrite replace_g_nomatch by done. simpl.
      destruct (startsWith (c :: replace_g s fence []) fence) eqn:E'; [| done].
      exfalso. apply startsWith_prefix in E' as [k Hk]. rewrite fence_units in Hk.
      simpl in Hk. injection Hk as -> Hk.
      apply replace_fence_head2 in Hk as [t ->].
      by rewrite fence_units in E.
    + rewrite replace_g_nomatch by done. simpl. apply IH.
Qed.

Lemma fence_free_infix (pre s post : jstring) :
  fence_free (pre ++ s ++ post) -> fence_free s.
Proof.
  intros H n. destruct (decide (n <= length s)) as [Hn|Hn].
  - apply startsWith_false. intros [k Hk].
    specialize (H (length pre + n)). apply startsWith_false in H. apply H.
    rewrite drop_app_ge by lia. replace (length pre + n - length pre) with n by lia.
    rewrite drop_app_le by done. rewrite Hk, <- app_assoc. by eexists.
  - rewrite drop_ge by lia. by rewrite fence_units.
Qed.

Lemma trim_fence_free (s : jstring) : fence_free s -> fence_free (trim s).
Proof.
  intros H. destruct (trim_split s) as (w & w' & Hs & _).
  rewrite Hs in H. by eapply fence_free_infix.
Qed.

Lemma block_exists_infix (op pre s post : jstring) :
  block_exists op s -> block_exists op (pre ++ s ++ post).
Proof.
  intros (p & b & q & ->). exists (pre ++ p), b, (q ++ post).
  by rewrite <- !app_assoc.
Qed.

Lemma block_exists_json (text : jstring) :
  block_exists fence_json text -> block_exists fence text.
Proof.
  intros (p & b & q & ->). exists p, (js "json" ++ b), q.
  by rewrite fence_json_fence, <- !app_assoc.
Qed.

Lemma span_exists_sublist (o c : N) (s : jstring) :
  span_exists o c s <-> [o; c] `sublist_of` s.
Proof.
  split.
  - intros (pre & mid & post & ->).
    apply sublist_inserts_l. simpl. apply sublist_skip.
    apply sublist_inserts_l. simpl. apply sublist_skip. apply sublist_nil_l.
  - intros H. apply sublist_cons_l in H as (k1 & k2 & -> & H).
    apply sublist_cons_l in H as (k3 & k4 & -> & _).
    by exists k1, k3, k4.
Qed.

Lemma span_exists_mono (o c : N) (s t : jstring) :
  s `sublist_of` t -> span_exists o c s -> span_exists o c t.
Proof. rewrite !span_exists_sublist. intros H1 H2. by etrans. Qed.

Lemma span_test_iff (o c : N) (text : jstring) :
  span_test o c text = true <-> span_exists o c text.
Proof.
  split.
  - intros H. apply span_test_true in H as (pre & mid & post & Ht & Ho & _).
    exists pre, mid, post. rewrite Ht at 1. rewrite Ho. by rewrite <- !app_assoc.
  - intros H. destruct (span_test o c text) eqn:E; [done |].
    by apply span_test_false in E.
Qed.

(** A span is its own outer span. *)
Lemma outer_span_self (o c : N) (mid : jstring) :
  let y := [o] ++ mid ++ [c] in
  span_test o c y = true ∧
  substring y (indexOf y o) (lastIndexOf y c + 1) = y.
Proof.
  intros y.
  assert (span_test o c y = true) as Ht.
  { apply span_test_iff. by exists [], mid, []. }
  split; [done |].
  apply span_test_true in Ht as (pre & mid' & post & Hy & Hout & Hpre & Hpost).
  set (out := substring y (indexOf y o) (lastIndexOf y c + 1)) in *. clearbody out.
  subst out.
  assert (pre = []) as ->.
  { destruct pre as [|p pre]; [done |]. exfalso. apply Hpre.
    unfold y in Hy. simpl in Hy. injection Hy as <- _. set_solver. }
  assert (post = []) as ->.
  { destruct post as [|p post _] using rev_ind; [done |]. exfalso. apply Hpost.
    unfold y in Hy. rewrite !app_assoc in Hy.
    apply app_inj_tail in Hy as [_ <-]. set_solver. }
  simpl in Hy. by rewrite app_nil_r in Hy.
Qed.




Lemma first_unit_unique (o : N) (p1 r1 p2 r2 : jstring) :
  p1 ++ o :: r1 = p2 ++ o :: r2 -> o ∉ p1 -> o ∉ p2 -> p1 = p2 ∧ r1 = r2.
Proof.
  revert p2. induction p1 as [|x p1 IH]; intros [|y p2] H H1 H2.
  - by simplify_eq/=.
  - exfalso. simplify_eq/=. apply H2. left.
  - exfalso. simplify_eq/=. apply H1. left.
  - simpl in H. injection H as -> H.
    destruct (IH p2 H) as [-> ->]; [| | done].
    + intros Hin. apply H1. by right.
    + intros Hin. apply H2. by right.
Qed.

Lemma last_unit_unique (c : N) (p1 r1 p2 r2 : jstring) :
  p1 ++ c :: r1 = p2 ++ c :: r2 -> c ∉ r1 -> c ∉ r2 -> p1 = p2 ∧ r1 = r2.
Proof.
  intros H H1 H2. apply (f_equal reverse) in H.
  rewrite !reverse_app, !reverse_cons, <- !app_assoc in H. simpl in H.
  apply first_unit_unique in H as [Hr Hp]; [| by rewrite elem_of_reverse..].
  split; by apply (inj reverse).
Qed.

Lemma outer_span_unique (o c : N) (text out1 out2 : jstring) :
  outer_span o c text out1 -> outer_span o c text out2 -> out1 = out2.
Proof.
  intros (pre1 & mid1 & post1 & Ht1 & -> & Hp1 & Hq1)
         (pre2 & mid2 & post2 & Ht2 & -> & Hp2 & Hq2).
  rewrite Ht1 in Ht2. simpl in Ht2.
  apply first_unit_unique in Ht2 as [_ Ht2]; [| done..].
  rewrite <- !app_assoc in Ht2. simpl in Ht2.
  apply last_unit_unique in Ht2 as [-> _]; done.
Qed.

Lemma outer_span_exists (o c : N) (text out : jstring) :
  outer_span o c text out -> span_exists o c text.
Proof.
  intros (pre & mid & post & -> & -> & _). exists pre, mid, post.
  by rewrite <- !app_assoc.
Qed.

Lemma cleanJson_eq (text : jstring) :
  Frontend.cleanJson text =
  match or_else (regex_match (re_fenced fence_json) text)
                (regex_match (re_fenced fence) text) with
  | Some m1 => trim m1
  | None =>
      if span_test 91 93 text
      then substring text (indexOf text 91) (lastIndexOf text 93 + 1)
      else if span_test 123 125 text
      then substring text (indexOf text 123) (lastIndexOf text 125 + 1)
      else trim (replace_g (replace_g text fence_json []) fence [])
  end.
Proof. reflexivity. Qed.

Lemma fence_nonempty : fence ≠ [].
Proof. by rewrite fence_units. Qed.

Lemma fence_json_nonempty : fence_json ≠ [].
Proof. rewrite fence_json_fence, fence_units. done. Qed.

(** Without a fenced block, [cleanJson] is its last three steps. *)
Lemma cleanJson_unfenced (text : jstring) :
  ¬ block_exists fence text ->
  Frontend.cleanJson text =
  if span_test 91 93 text
  then substring text (indexOf text 91) (lastIndexOf text 93 + 1)
  else if span_test 123 125 text
  then substring text (indexOf text 123) (lastIndexOf text 125 + 1)
  else trim (replace_g (replace_g text fence_json []) fence []).
Proof.
  intros H. rewrite cleanJson_eq.
  assert (regex_match (re_fenced fence) text = None) as ->.
  { by apply regex_fenced_None; [apply fence_nonempty |]. }
  assert (regex_match (re_fenced fence_json) text = None) as ->.
  { apply regex_fenced_None; [apply fence_json_nonempty |].
    intros Hb. by apply H, block_exists_json. }
  done.
Qed.

Lemma Sanitized_cleanJson (text : jstring) : Sanitized text (Frontend.cleanJson text).
Proof.
  rewrite cleanJson_eq.
  destruct (regex_match (re_fenced fence_json) text) as [cap|] eqn:E1; simpl.
  { apply regex_fenced_Some in E1 as (body & Hb & <-); [| apply fence_json_nonempty].
    by apply San_json_block. }
  apply regex_fenced_None in E1; [| apply fence_json_nonempty].
  destruct (regex_match (re_fenced fence) text) as [cap|] eqn:E2.
  { apply regex_fenced_Some in E2 as (body & Hb & <-); [| apply fence_nonempty].
    by apply San_block. }
  apply regex_fenced_None in E2; [| apply fence_nonempty].
  destruct (span_test 91 93 text) eqn:E3.
  { apply San_brackets; [done |]. by apply span_test_true. }
  apply span_test_false in E3.
  destruct (span_test 123 125 text) eqn:E4.
  { apply San_braces; [done | done |]. by apply span_test_true. }
  apply span_test_false in E4.
  by apply San_plain.
Qed.


(** ** Idempotence of [cleanJson] outside fenced blocks *)

Lemma outer_span_fixed (o c : N) (text out : jstring) :
  outer_span o c text out ->
  span_test o c out = true ∧
  substring out (indexOf out o) (lastIndexOf out c + 1) = out.
Proof. intros (pre & mid & post & _ & -> & _). apply outer_span_self. Qed.

Lemma outer_span_no_block (o c : N) (text out : jstring) :
  outer_span o c text out -> ¬ block_exists fence text -> ¬ block_exists fence out.
Proof.
  intros (pre & mid & post & Ht & _) Hn Hb. apply Hn. rewrite Ht.
  by apply block_exists_infix.
Qed.

Lemma outer_span_sublist (o c : N) (text out : jstring) :
  outer_span o c text out -> out `sublist_of` text.
Proof.
  intros (pre & mid & post & Ht & _). rewrite Ht.
  by apply sublist_inserts_l, sublist_inserts_r.
Qed.

Lemma span_test_false_mono (o c : N) (s t : jstring) :
  s `sublist_of` t -> span_test o c t = false -> span_test o c s = false.
Proof.
  intros Hs Ht. destruct (span_test o c s) eqn:E; [| done].
  apply span_test_iff in E. apply (span_exists_mono _ _ _ _ Hs), span_test_iff in E.
  congruence.
Qed.

Lemma cleanJson_idempotent_unfenced (x : jstring) :
  ¬ block_exists fence x ->
  Frontend.cleanJson (Frontend.cleanJson x) = Frontend.cleanJson x.
Proof.
  intros Hx. rewrite (cleanJson_unfenced x Hx).
  destruct (span_test 91 93 x) eqn:E1.
  { apply span_test_true in E1.
    rewrite cleanJson_unfenced by (by eapply outer_span_no_block).
    apply outer_span_fixed in E1 as [-> ->]. done. }
  destruct (span_test 123 125 x) eqn:E2.
  { apply span_test_true in E2.
    rewrite cleanJson_unfenced by (by eapply outer_span_no_block).
    rewrite (span_test_false_mono 91 93 _ x); [| by eapply outer_span_sublist | done].
    apply outer_span_fixed in E2 as [-> ->]. done. }
  set (y := trim (replace_g (replace_g x fence_json []) fence [])).
  assert (fence_free y) as Hy by apply trim_fence_free, replace_fence_free.
  assert (y `sublist_of` x) as Hsub.
  { unfold y. etrans; [apply trim_sublist |].
    etrans; [apply replace_g_sublist, fence_nonempty |].
    apply replace_g_sublist, fence_json_nonempty. }
  rewrite cleanJson_unfenced by (by apply fence_free_no_block).
  rewrite (span_test_false_mono 91 93 y x), (span_test_false_mono 123 125 y x) by done.
  rewrite (replace_g_free fence_json) by (by apply fence_free_json).
  rewrite (replace_g_free fence) by done.
  apply trim_idem.
Qed.

(** ** The outcome monad *)

Lemma bind_Return {A B} (m : outcome A) (f : A -> outcome B) (b : B) :
  (m ≫= f) = Return b -> ∃ a, m = Return a ∧ f a = Return b.
Proof. destruct m; simpl; [by eexists | done | done]. Qed.

Lemma get_prop_prop (v : JSValue) (k : jstring) :
  get_prop v k = if nullish v then Throw TypeError else Return (prop v k).
Proof. by destruct v. Qed.

Lemma get_prop_Return (v x : JSValue) (k : jstring) :
  get_prop v k = Return x -> x = prop v k ∧ nullish v = false.
Proof. rewrite get_prop_prop. destruct (nullish v); [done | by intros [= <-]]. Qed.

Lemma get_prop_truthy (v : JSValue) (k : jstring) :
  truthy v = true -> get_prop v k = Return (prop v k).
Proof. by destruct v. Qed.

Lemma set_prop_Return (v x r : JSValue) (k : jstring) :
  set_prop v k x = Return r -> ∃ p, v = JObject p ∧ r = JObject (<[k := x]> p).
Proof. destruct v; simpl; try done. intros [= <-]. by eexists. Qed.

Lemma as_array_Return (v : JSValue) l : as_array v = Return l -> v = JArray l.
Proof. destruct v; simpl; try done. by intros [= <-]. Qed.

Lemma traverse_Return {A B} (f : A -> outcome B) (l : list A) (l' : list B) :
  traverse f l = Return l' -> Forall2 (fun x y => f x = Return y) l l'.
Proof.
  revert l'. induction l as [|x l IH]; intros l'; simpl.
  - intros [= <-]. constructor.
  - intros H. apply bind_Return in H as (y & Hy & H).
    apply bind_Return in H as (ys & Hys & H). injection H as <-.
    constructor; [done | by apply IH].
Qed.

Lemma traverse_id {A} (f : A -> outcome A) (l : list A) :
  Forall (fun x => f x = Return x) l -> traverse f l = Return l.
Proof. induction 1 as [|x l Hx _ IH]; simpl; [done |]. by rewrite Hx, IH. Qed.

(** ** The loops over the activities *)

Lemma for_each_activity_Return (f : JSValue -> outcome JSValue) (data r : JSValue) :
  for_each_activity f data = Return r ->
  ∃ p ds ds',
    data = JObject p ∧ p !! js "days" = Some (JArray ds) ∧
    r = JObject (<[js "days" := JArray ds']> p) ∧
    Forall2 (fun day day' =>
      ∃ pd al al',
        day = JObject pd ∧ pd !! js "activities" = Some (JArray al) ∧
        day' = JObject (<[js "activities" := JArray al']> pd) ∧
        Forall2 (fun a a' => f a = Return a') al al') ds ds'.
Proof.
  unfold for_each_activity. intros H.
  apply bind_Return in H as (days & Hd & H).
  apply bind_Return in H as (ds & Hds & H).
  apply bind_Return in H as (ds' & Hds' & H). injection H as <-.
  apply as_array_Return in Hds as ->.
  destruct data as [| | | | | |p]; simpl in Hd; try done.
  injection Hd as Hd.
  destruct (p !! js "days") as [v|] eqn:Ep; simpl in Hd; [subst v | done].
  exists p, ds, ds'. split_and!; [done..|].
  apply traverse_Return in Hds'. eapply Forall2_impl; [exact Hds' |].
  intros day day' Hday. cbv beta in Hday.
  apply bind_Return in Hday as (acts & Ha & Hday).
  apply bind_Return in Hday as (al & Hal & Hday).
  apply bind_Return in Hday as (al' & Hal' & Hday). injection Hday as <-.
  apply as_array_Return in Hal as ->.
  destruct day as [| | | | | |pd]; simpl in Ha; try done.
  injection Ha as Ha.
  destruct (pd !! js "activities") as [v|] eqn:Epd; simpl in Ha; [subst v | done].
  exists pd, al, al'. split_and!; [done..|]. by apply traverse_Return.
Qed.

Lemma for_each_activity_at (f : JSValue -> outcome JSValue) (data r : JSValue) :
  for_each_activity f data = Return r ->
  ∀ d j a, activity_at data d j = Some a ->
    ∃ a', activity_at r d j = Some a' ∧ f a = Return a'.
Proof.
  intros H d j a Ha.
  apply for_each_activity_Return in H as (p & ds & ds' & -> & Hp & -> & Hds).
  unfold activity_at, days_of, prop in *. rewrite Hp in Ha. simpl in Ha.
  rewrite lookup_insert_eq. simpl.
  destruct (ds !! d) as [day|] eqn:Ed; simpl in Ha; [| done].
  destruct (Forall2_lookup_l _ _ _ _ _ Hds Ed) as (day' & Ed' & pd & al & al' & -> & Hpd & -> & Hal).
  rewrite Ed'. simpl. unfold activities_of, prop in *. rewrite Hpd in Ha. simpl in Ha.
  rewrite lookup_insert_eq. simpl.
  destruct (Forall2_lookup_l _ _ _ _ _ Hal Ha) as (a' & Ea' & Hf). by exists a'.
Qed.

Lemma copy_map_lookup_in (keys : list jstring) g p k :
  k ∈ keys -> copy_map keys g p !! k = Some (g k).
Proof.
  unfold copy_map. revert p. induction keys as [|k' keys IH] using rev_ind; intros p Hk.
  - by apply elem_of_nil in Hk.
  - rewrite foldl_app. simpl. destruct (decide (k' = k)) as [->|Hne].
    + by rewrite lookup_insert_eq.
    + rewrite lookup_insert_ne by done. apply IH. set_solver.
Qed.

Lemma copy_map_lookup_notin (keys : list jstring) g p k :
  k ∉ keys -> copy_map keys g p !! k = p !! k.
Proof.
  unfold copy_map. revert p. induction keys as [|k' keys IH]; intros p Hk; [done |].
  simpl. rewrite IH by set_solver. apply lookup_insert_ne. set_solver.
Qed.

Lemma assign_map_lookup_notin (kvs : list (jstring * JSValue)) p k :
  k ∉ kvs.*1 -> assign_map kvs p !! k = p !! k.
Proof.
  unfold assign_map. revert p. induction kvs as [|[k' v] kvs IH]; intros p Hk; [done |].
  simpl in *. rewrite IH by set_solver. apply lookup_insert_ne. set_solver.
Qed.

(** The last binding of [k] in [kvs] is what [assign_map] leaves. *)
Lemma assign_map_lookup_last (kvs1 kvs2 : list (jstring * JSValue)) p k v :
  k ∉ kvs2.*1 -> assign_map (kvs1 ++ (k, v) :: kvs2) p !! k = Some v.
Proof.
  intros Hk. unfold assign_map. rewrite foldl_app. simpl.
  fold (assign_map kvs2 (<[k:=v]> (foldl (fun m kv => <[kv.1:=kv.2]> m) p kvs1))).
  rewrite assign_map_lookup_notin by done. apply lookup_insert_eq.
Qed.

Lemma copy_props_object (keys : list jstring) (src : JSValue) pd :
  nullish src = false ->
  copy_props keys src (JObject pd) = Return (JObject (copy_map keys (prop src) pd)).
Proof.
  intros Hs. revert pd. induction keys as [|k keys IH]; intros pd; [done |].
  simpl. rewrite get_prop_prop, Hs. simpl. apply IH.
Qed.

Lemma copy_props_Return (keys : list jstring) (src dst r : JSValue) :
  copy_props keys src dst = Return r ->
  keys = [] ∧ r = dst ∨
  ∃ pd, dst = JObject pd ∧ nullish src = false ∧
        r = JObject (copy_map keys (prop src) pd).
Proof.
  destruct keys as [|k keys]; [intros [= <-]; by left | right].
  simpl in H. apply bind_Return in H as (v & Hv & H).
  apply bind_Return in H as (dst' & Hd & H).
  apply get_prop_Return in Hv as [-> Hs].
  apply set_prop_Return in Hd as (pd & -> & ->).
  exists pd. split_and!; [done..|].
  rewrite copy_props_object in H by done. by injection H as <-.
Qed.

Lemma assign_props_object (kvs : list (jstring * JSValue)) pd :
  assign_props kvs (JObject pd) = Return (JObject (assign_map kvs pd)).
Proof.
  revert pd. induction kvs as [|[k v] kvs IH]; intros pd; [done |]. simpl. apply IH.
Qed.

Lemma assign_props_Return (kvs : list (jstring * JSValue)) (dst r : JSValue) :
  assign_props kvs dst = Return r ->
  kvs = [] ∧ r = dst ∨ ∃ pd, dst = JObject pd ∧ r = JObject (assign_map kvs pd).
Proof.
  destruct kvs as [|[k v] kvs]; [intros [= <-]; by left | right].
  simpl in H. apply bind_Return in H as (dst' & Hd & H).
  apply set_prop_Return in Hd as (pd & -> & ->).
  exists pd. split; [done |]. rewrite assign_props_object in H. by injection H as <-.
Qed.

Lemma Object_assign_Return (target source r : JSValue) :
  Object_assign target source = Return r ->
  ∃ t s, target = JObject t ∧ source = JObject s ∧ r = JObject (s ∪ t).
Proof.
  destruct target, source; simpl; try done.
  case_decide; [done |]. intros [= <-]. by eexists _, _.
Qed.

(** ** The loop body of [refineItinerary] *)

(** A prior activity that is locked: the result is the prior activity laid
    over the candidate. *)
Lemma merge_activity_locked copied defaults (m : JSMap) (act r : JSValue) pa :
  merge_activity copied defaults m act = Return r ->
  Map_get m (prop act (js "id")) = JObject pa ->
  truthy (prop (JObject pa) (js "isLocked")) = true ->
  ∃ pc, act = JObject pc ∧
        r = JObject (pa ∪ copy_map copied (prop (JObject pa)) pc).
Proof.
  unfold merge_activity. intros H Hold Hlock.
  apply bind_Return in H as (id & Hid & H).
  apply get_prop_Return in Hid as [-> _]. rewrite Hold in H. cbn [truthy] in H.
  apply bind_Return in H as (act' & Hcp & H).
  apply bind_Return in H as (locked & Hl & H).
  apply get_prop_Return in Hl as [-> _]. rewrite Hlock in H.
  apply Object_assign_Return in H as (t & s & -> & [= <-] & ->).
  apply copy_props_Return in Hcp as [[-> <-]|(pc & -> & _ & [= ->])].
  - by exists t.
  - by exists pc.
Qed.

(** A prior activity that is not locked: the copied properties are the
    prior ones, the rest is the candidate's. *)
Lemma merge_activity_unlocked copied defaults (m : JSMap) (act r old : JSValue) :
  merge_activity copied defaults m act = Return r ->
  Map_get m (prop act (js "id")) = old ->
  truthy old = true ->
  truthy (prop old (js "isLocked")) = false ->
  copied = [] ∧ r = act ∨
  ∃ pc, act = JObject pc ∧ r = JObject (copy_map copied (prop old) pc).
Proof.
  unfold merge_activity. intros H Hold Ht Hlock.
  apply bind_Return in H as (id & Hid & H).
  apply get_prop_Return in Hid as [-> _]. rewrite Hold, Ht in H.
  apply bind_Return in H as (act' & Hcp & H).
  apply bind_Return in H as (locked & Hl & H).
  apply get_prop_Return in Hl as [-> _]. rewrite Hlock in H. injection H as <-.
  apply copy_props_Return in Hcp as [[-> <-]|(pc & -> & _ & ->)]; [by left | right].
  by exists pc.
Qed.

(** No prior activity: the defaults are set, the rest is the candidate's. *)
Lemma merge_activity_new copied defaults (m : JSMap) (act r : JSValue) :
  merge_activity copied defaults m act = Return r ->
  truthy (Map_get m (prop act (js "id"))) = false ->
  defaults = [] ∧ r = act ∨
  ∃ pc, act = JObject pc ∧ r = JObject (assign_map defaults pc).
Proof.
  unfold merge_activity. intros H Hold.
  apply bind_Return in H as (id & Hid & H).
  apply get_prop_Return in Hid as [-> _]. rewrite Hold in H.
  by apply assign_props_Return in H.
Qed.

Lemma set_activities_Return (acts : list JSValue) (m m' : JSMap) :
  set_activities acts m = Return m' -> m' = reverse (keyed <$> acts) ++ m.
Proof.
  revert m. induction acts as [|a acts IH]; intros m; simpl.
  - by intros [= <-].
  - intros H. apply bind_Return in H as (id & Hid & H).
    apply get_prop_Return in Hid as [-> _]. apply IH in H as ->.
    rewrite reverse_cons, <- app_assoc. done.
Qed.

Lemma set_days_Return (days : list JSValue) (m m' : JSMap) :
  set_days days m = Return m' ->
  m' = reverse (keyed <$> (days ≫= activities_of)) ++ m.
Proof.
  revert m. induction days as [|d days IH]; intros m; simpl.
  - by intros [= <-].
  - intros H. apply bind_Return in H as (acts & Ha & H).
    apply bind_Return in H as (al & Hal & H).
    apply bind_Return in H as (m1 & Hm1 & H).
    apply as_array_Return in Hal as ->. apply get_prop_Return in Ha as [Ha _].
    apply set_activities_Return in Hm1 as ->. apply IH in H as ->.
    unfold activities_of at 2. rewrite <- Ha.
    rewrite fmap_app, reverse_app, <- app_assoc. done.
Qed.

Lemma oldActivityMap_Return (P : JSValue) (m : JSMap) :
  oldActivityMap P = Return m -> m = reverse (keyed <$> all_activities P).
Proof.
  unfold oldActivityMap. intros H.
  apply bind_Return in H as (days & Hd & H).
  apply bind_Return in H as (ds & Hds & H).
  apply as_array_Return in Hds as ->. apply get_prop_Return in Hd as [Hd _].
  apply set_days_Return in H as ->. rewrite app_nil_r.
  unfold all_activities, days_of. by rewrite <- Hd.
Qed.

Lemma find_fmap {A B} (f : B -> bool) (g : A -> B) (l : list A) :
  List.find f (g <$> l) = g <$> List.find (fun x => f (g x)) l.
Proof. induction l as [|x l IH]; simpl; [done |]. by destruct (f (g x)). Qed.

Lemma Map_get_prior (P : JSValue) (m : JSMap) (id : JSValue) :
  oldActivityMap P = Return m ->
  Map_get m id = default JUndefined (prior_activity P id).
Proof.
  intros H. apply oldActivityMap_Return in H as ->.
  unfold Map_get, prior_activity. rewrite <- fmap_reverse, find_fmap.
  by destruct (List.find _ _).
Qed.

(** The lookup holds the last activity with the id: what follows it has
    another id. *)
Lemma prior_activity_last (P id a : JSValue) (l1 l2 : list JSValue) :
  all_activities P = l1 ++ a :: l2 ->
  strict_eq_apart (prop a (js "id")) id = true ->
  Forall (fun b => strict_eq_apart (prop b (js "id")) id = false) l2 ->
  prior_activity P id = Some a.
Proof.
  intros HP Ha Hl2. unfold prior_activity. rewrite HP, reverse_app, reverse_cons.
  rewrite <- app_assoc. simpl. clear HP.
  induction l2 as [|b l2 IH] using rev_ind.
  - simpl. by rewrite Ha.
  - apply Forall_app in Hl2 as [Hl2 Hb]. apply Forall_cons in Hb as [Hb _].
    rewrite reverse_app. simpl. rewrite Hb. exact (IH Hl2).
Qed.

(** ** [refineItinerary] *)

Lemma try_catch_rethrow {A} (m : outcome A) : try_catch m (fun e => Throw e) = m.
Proof. by destruct m. Qed.

Lemma parse_Return (JSON_parse : jstring -> option JSValue) (s : jstring) (v : JSValue) :
  parse JSON_parse s = Return v <-> JSON_parse s = Some v.
Proof. unfold parse. destruct (JSON_parse s); naive_solver. Qed.

Lemma refine_copy_Return (JSON_parse : jstring -> option JSValue) (c : RefineCopy)
    (P : JSValue) (req : jstring) (resp : Completion) (r : JSValue) :
  refine_copy JSON_parse c P req resp = Return r ->
  ∃ text C, resp = Responded (Some text) ∧ text ≠ [] ∧
            JSON_parse (sanitized c text) = Some C ∧
            merge_state c P C = Return r.
Proof.
  unfold refine_copy. rewrite try_catch_rethrow. intros H.
  apply bind_Return in H as (text & Ht & H).
  destruct resp as [e|t]; simpl in Ht; [done |]. injection Ht as ->.
  destruct text as [[|x text]|]; simpl in H; [done | | done].
  apply bind_Return in H as (C & HC & H). apply parse_Return in HC.
  by exists (x :: text), C.
Qed.

Lemma days_of_falsy (C : JSValue) : truthy (prop C (js "days")) = false -> days_of C = [].
Proof. unfold days_of. by destruct (prop C (js "days")). Qed.

Lemma merge_state_Return (c : RefineCopy) (P C r : JSValue) :
  merge_state c P C = Return r ->
  ∃ m data,
    oldActivityMap P = Return m ∧
    (data = C ∧ days_of C = [] ∨
     for_each_activity (merge_activity (copied c) (defaults c) m) C = Return data) ∧
    copy_props (carried c) P data = Return r.
Proof.
  unfold merge_state. intros H.
  apply bind_Return in H as (m & Hm & H).
  apply bind_Return in H as (data & Hd & H).
  exists m, data. split_and!; [done | | done].
  destruct (guards_days c); [| by right].
  apply bind_Return in Hd as (days & Hdays & Hd).
  apply get_prop_Return in Hdays as [-> _].
  destruct (truthy (prop C (js "days"))) eqn:E; [by right | left].
  injection Hd as <-. split; [done | by apply days_of_falsy].
Qed.

(** The properties the itinerary carries over do not touch its days. *)
Lemma copy_props_activity_at (keys : list jstring) (src data r : JSValue) d j :
  js "days" ∉ keys ->
  copy_props keys src data = Return r ->
  activity_at r d j = activity_at data d j.
Proof.
  intros Hk H. apply copy_props_Return in H as [[_ ->]|(pd & -> & _ & ->)]; [done |].
  unfold activity_at, days_of, prop. by rewrite copy_map_lookup_notin.
Qed.

(** What [merge_state] does to the activity at a place of the candidate. *)
Lemma merge_state_at (c : RefineCopy) (P C r : JSValue) d j (act : JSValue) :
  js "days" ∉ carried c ->
  merge_state c P C = Return r ->
  activity_at C d j = Some act ->
  ∃ m act', oldActivityMap P = Return m ∧
            activity_at r d j = Some act' ∧
            merge_activity (copied c) (defaults c) m act = Return act'.
Proof.
  intros Hk H Hact.
  apply merge_state_Return in H as (m & data & Hm & Hloop & Hcp).
  pose proof (copy_props_activity_at _ _ _ _ d j Hk Hcp) as Hr.
  destruct Hloop as [[-> Hnil]|Hloop].
  { unfold activity_at in Hact. rewrite Hnil in Hact. done. }
  destruct (for_each_activity_at _ _ _ Hloop d j act Hact) as (act' & Ha' & Hf).
  exists m, act'. split_and!; [done | | done]. by rewrite Hr.
Qed.

Lemma copies_days (c : RefineCopy) : c ∈ copies -> js "days" ∉ carried c.
Proof.
  unfold copies. rewrite !elem_of_cons, elem_of_nil.
  intros [->|[->|[->|[->|[->|[]]]]]];
    refine (bool_decide_unpack _ _); vm_compute; exact I.
Qed.

(** C1 (amended). In every copy of [refineItinerary]: when the candidate
    holds an activity whose id is that of a prior activity (the last one
    with that id), and that prior activity is locked, the activity at the
    same place of the result has every property of the prior activity,
    with the prior value. A property the prior activity does not have is
    not removed: it keeps the candidate's value, or is [undefined] when
    it is one of the properties the copy writes from the prior activity. *)
Theorem locked_activity_kept (JSON_parse : jstring -> option JSValue) (c : RefineCopy)
    (P : JSValue) (req text : jstring) (C r : JSValue) :
  c ∈ copies ->
  JSON_parse (sanitized c text) = Some C ->
  refine_copy JSON_parse c P req (Responded (Some text)) = Return r ->
  ∀ d j act pa,
    activity_at C d j = Some act ->
    prior_activity P (prop act (js "id")) = Some (JObject pa) ->
    truthy (prop (JObject pa) (js "isLocked")) = true ->
    ∃ pc pr,
      act = JObject pc ∧ activity_at r d j = Some (JObject pr) ∧
      (∀ k v, pa !! k = Some v -> pr !! k = Some v) ∧
      (∀ k, pa !! k = None ->
            pr !! k = if bool_decide (k ∈ copied c) then Some JUndefined else pc !! k).
Proof.
  intros Hc HC H d j act pa Hact Hprior Hlock.
  apply refine_copy_Return in H as (text' & C' & [= <-] & _ & HC' & H).
  assert (C' = C) as -> by congruence.
  destruct (merge_state_at _ _ _ _ d j act (copies_days c Hc) H Hact)
    as (m & act' & Hm & Hat & Hmerge).
  pose proof (Map_get_prior P m (prop act (js "id")) Hm) as Hget.
  rewrite Hprior in Hget. simpl in Hget.
  destruct (merge_activity_locked _ _ _ _ _ _ Hmerge Hget Hlock) as (pc & -> & ->).
  exists pc, (pa ∪ copy_map (copied c) (prop (JObject pa)) pc).
  split_and!; [done | done | |].
  - intros k v Hk. by apply lookup_union_Some_l.
  - intros k Hk. rewrite lookup_union_r by done. case_bool_decide as Hin.
    + rewrite copy_map_lookup_in by done. simpl. by rewrite Hk.
    + by rewrite copy_map_lookup_notin.
Qed.

Lemma copies_defaults (c : RefineCopy) :
  c ∈ copies ->
  defaults c = [(js "feedback", str "neutral"); (js "isLocked", JBool false)] ∨
  defaults c = [(js "feedback", str "neutral"); (js "isLocked", JBool false);
                (js "isMandatory", JBool false)].
Proof.
  unfold copies. rewrite !elem_of_cons, elem_of_nil.
  intros [->|[->|[->|[->|[->|[]]]]]]; by (left + right).
Qed.

Ltac by_computation := refine (bool_decide_unpack _ _); vm_compute; exact I.

(** New activities: the defaults, and nothing else. In every copy of
    [refineItinerary], an activity of the candidate whose id no prior
    activity has comes out unlocked and with neutral feedback, not
    mandatory in the copies that set the flag, and with every other
    property (the notes among them) as the candidate gave it. *)
Lemma new_activity_defaults (JSON_parse : jstring -> option JSValue) (c : RefineCopy)
    (P : JSValue) (req text : jstring) (C r : JSValue) :
  c ∈ copies ->
  JSON_parse (sanitized c text) = Some C ->
  refine_copy JSON_parse c P req (Responded (Some text)) = Return r ->
  ∀ d j act,
    activity_at C d j = Some act ->
    prior_activity P (prop act (js "id")) = None ->
    ∃ pc pr,
      act = JObject pc ∧ activity_at r d j = Some (JObject pr) ∧
      pr !! js "isLocked" = Some (JBool false) ∧
      pr !! js "feedback" = Some (str "neutral") ∧
      (js "isMandatory" ∈ (defaults c).*1 -> pr !! js "isMandatory" = Some (JBool false)) ∧
      (∀ k, k ∉ (defaults c).*1 -> pr !! k = pc !! k).
Proof.
  intros Hc HC H d j act Hact Hprior.
  apply refine_copy_Return in H as (text' & C' & [= <-] & _ & HC' & H).
  assert (C' = C) as -> by congruence.
  destruct (merge_state_at _ _ _ _ d j act (copies_days c Hc) H Hact)
    as (m & act' & Hm & Hat & Hmerge).
  pose proof (Map_get_prior P m (prop act (js "id")) Hm) as Hget.
  rewrite Hprior in Hget. simpl in Hget.
  apply merge_activity_new in Hmerge; [| by rewrite Hget].
  destruct Hmerge as [[Hd _]|(pc & -> & ->)].
  { by destruct (copies_defaults c Hc) as [E|E]; rewrite E in Hd. }
  exists pc, (assign_map (defaults c) pc). split_and!; [done | done | | | |].
  - destruct (copies_defaults c Hc) as [->| ->].
    + apply (assign_map_lookup_last [_] []). apply not_elem_of_nil.
    + apply (assign_map_lookup_last [_] [_]). by_computation.
  - destruct (copies_defaults c Hc) as [->| ->].
    + apply (assign_map_lookup_last [] [_]). by_computation.
    + apply (assign_map_lookup_last [] [_; _]). by_computation.
  - destruct (copies_defaults c Hc) as [->| ->]; intros Hin.
    + exfalso. revert Hin. by_computation.
    + apply (assign_map_lookup_last [_; _] []). apply not_elem_of_nil.
  - intros k Hk. by apply assign_map_lookup_notin.
Qed.

(** The properties a copy carries over read the same on the prior
    itinerary and on the result. *)
Lemma carried_props (JSON_parse : jstring -> option JSValue) (c : RefineCopy)
    (P : JSValue) (req : jstring) (resp : Completion) (r : JSValue) :
  refine_copy JSON_parse c P req resp = Return r ->
  ∀ k, k ∈ carried c ->
    get_prop P k = Return (prop P k) ∧ get_prop r k = Return (prop P k).
Proof.
  intros H k Hk.
  apply refine_copy_Return in H as (text & C & _ & _ & _ & H).
  apply merge_state_Return in H as (m & data & _ & _ & Hcp).
  apply copy_props_Return in Hcp as [[E _]|(pd & _ & Hn & ->)].
  { rewrite E in Hk. by apply elem_of_nil in Hk. }
  rewrite get_prop_prop, Hn. split; [done |]. simpl.
  by rewrite copy_map_lookup_in.
Qed.

(** ** Parse failures *)

Lemma parse_None (JSON_parse : jstring -> option JSValue) (s : jstring) :
  JSON_parse s = None -> parse JSON_parse s = Throw SyntaxError.
Proof. unfold parse. by intros ->. Qed.

Lemma refine_copy_malformed (JSON_parse : jstring -> option JSValue) (c : RefineCopy)
    (P : JSValue) (req text : jstring) :
  text ≠ [] ->
  JSON_parse (sanitized c text) = None ->
  refine_copy JSON_parse c P req (Responded (Some text)) = Throw SyntaxError.
Proof.
  intros Ht Hp. unfold refine_copy. destruct text as [|x text]; [done |].
  simpl. by rewrite parse_None.
Qed.

(** ** [recalculateDaySchedule] *)

Lemma find_update_cases (us : list JSValue) (original : JSValue) :
  nullish original = false ->
  (∃ e, find_update us original = Throw e) ∨
  (find_update us original = Return JUndefined ∧
   Forall (fun u => strict_eq_apart (prop u (js "id")) (prop original (js "id")) = false) us) ∨
  (∃ u, find_update us original = Return u ∧ u ∈ us ∧
        strict_eq_apart (prop u (js "id")) (prop original (js "id")) = true).
Proof.
  intros Ho. induction us as [|u us IH]; simpl.
  - right. left. by split.
  - rewrite !get_prop_prop, Ho. destruct (nullish u) eqn:Hu; simpl; [left; by eexists |].
    destruct (strict_eq_apart _ _) eqn:E.
    + right. right. exists u. split_and!; [done | left | done].
    + destruct IH as [[e He]|[[Hr Hall]|(u' & Hr & Hin & Heq)]].
      * left. by exists e.
      * right. left. split; [done | by constructor].
      * right. right. exists u'. split_and!; [done | by right | done].
Qed.

(** What the callback of [activities.map] does to an activity that is an
    object: it returns it as it is, or with [time] and [transportToNext]
    set from an update that has its id; or it throws. *)
Lemma merge_update_object (updatedActivities : JSValue) (a : gmap jstring JSValue) :
  (∃ e, merge_update updatedActivities (JObject a) = Throw e) ∨
  merge_update updatedActivities (JObject a) = Return (JObject a) ∨
  (∃ us u, updatedActivities = JArray us ∧ u ∈ us ∧
     strict_eq_apart (prop u (js "id")) (prop (JObject a) (js "id")) = true ∧
     merge_update updatedActivities (JObject a)
     = Return (JObject (<[js "transportToNext" := prop u (js "transportToNext")]>
                       (<[js "time" := prop u (js "time")]> a)))).
Proof.
  unfold merge_update.
  destruct updatedActivities as [| | | | |us|]; simpl; try (left; by eexists).
  destruct (find_update_cases us (JObject a) eq_refl)
    as [[e He]|[[Hr Hall]|(u & Hr & Hin & Heq)]]; rewrite ?He, ?Hr; simpl.
  - left. by eexists.
  - right. by left.
  - destruct (truthy u) eqn:Hu; [| right; by left].
    rewrite !get_prop_truthy by done. simpl.
    right. right. by exists us, u.
Qed.

Lemma prompt_reads_objects (keys : list jstring) (acts : list (gmap jstring JSValue)) :
  prompt_reads keys (JObject <$> acts) = Return ().
Proof.
  unfold prompt_reads.
  assert (∀ a : gmap jstring JSValue, ∃ vs, traverse (get_prop (JObject a)) keys = Return vs) as Hk.
  { intros a. induction keys as [|k keys [vs IH]]; simpl; [by eexists |].
    rewrite IH. simpl. by eexists. }
  assert (∃ l, traverse (fun a => traverse (get_prop a) keys) (JObject <$> acts) = Return l)
    as [l Hl]; [| by rewrite Hl].
  induction acts as [|a acts [l IH]]; csimpl; [by eexists |].
  destruct (Hk a) as [vs ->]. csimpl. rewrite IH. csimpl. by eexists.
Qed.

(** The loop of the success path on activities that are objects: it throws,
    or it returns as many objects, each one the activity as it was or with
    the two properties set from a matching update. *)
Lemma merge_updates_objects (updatedActivities : JSValue) (acts : list (gmap jstring JSValue)) :
  (∃ e, traverse (merge_update updatedActivities) (JObject <$> acts) = Throw e) ∨
  ∃ out,
    traverse (merge_update updatedActivities) (JObject <$> acts) = Return (JObject <$> out) ∧
    Forall2 (fun a o =>
      o = a ∨
      ∃ us u, updatedActivities = JArray us ∧ u ∈ us ∧
        strict_eq_apart (prop u (js "id")) (prop (JObject a) (js "id")) = true ∧
        o = <[js "transportToNext" := prop u (js "transportToNext")]>
              (<[js "time" := prop u (js "time")]> a)) acts out.
Proof.
  induction acts as [|a acts IH]; csimpl.
  - right. exists []. by split.
  - destruct (merge_update_object updatedActivities a)
      as [[e He]|[Hr|(us & u & Hus & Hin & Heq & Hr)]]; rewrite ?He, ?Hr; csimpl.
    + left. by eexists.
    + destruct IH as [[e He]|(out & Hout & Hall)]; rewrite ?He, ?Hout; csimpl.
      * left. by eexists.
      * right. exists (a :: out). split; [done |]. constructor; [by left | done].
    + destruct IH as [[e He]|(out & Hout & Hall)]; rewrite ?He, ?Hout; csimpl.
      * left. by eexists.
      * right. eexists (_ :: out). split; [done |].
        constructor; [| done]. right. by exists us, u.
Qed.

Lemma recalculate_copy_fails (JSON_parse : jstring -> option JSValue)
    (keys : list jstring) (on_no_text : outcome (list JSValue))
    (acts : list (gmap jstring JSValue)) (loc : option jstring) (resp : Completion) :
  on_no_text = Return (JObject <$> acts) ∨ (∃ e, on_no_text = Throw e) ->
  pipeline_fails JSON_parse resp ->
  recalculate_copy JSON_parse keys on_no_text (JObject <$> acts) loc resp
  = Return (JObject <$> acts).
Proof.
  intros Hno Hf. unfold recalculate_copy. rewrite prompt_reads_objects. simpl.
  destruct Hf as [reason|text Ht|text Hp]; cbn [await mbind outcome_bind].
  - done.
  - rewrite Ht. by destruct Hno as [->|[e ->]].
  - destruct (no_text (Some text)) eqn:E.
    + by destruct Hno as [->|[e ->]].
    + cbn [ToString]. by rewrite parse_None.
Qed.

Lemma recalculate_copy_frame (JSON_parse : jstring -> option JSValue)
    (keys : list jstring) (on_no_text : outcome (list JSValue))
    (acts : list (gmap jstring JSValue)) (loc : option jstring) (resp : Completion) :
  on_no_text = Return (JObject <$> acts) ∨ (∃ e, on_no_text = Throw e) ->
  ∃ out,
    recalculate_copy JSON_parse keys on_no_text (JObject <$> acts) loc resp
    = Return (JObject <$> out) ∧
    Forall2 (fun a o =>
      o = a ∨
      ∃ text us u,
        resp = Responded (Some text) ∧
        JSON_parse (Frontend.cleanJson text) = Some (JArray us) ∧ u ∈ us ∧
        strict_eq_apart (prop u (js "id")) (prop (JObject a) (js "id")) = true ∧
        o = <[js "transportToNext" := prop u (js "transportToNext")]>
              (<[js "time" := prop u (js "time")]> a)) acts out.
Proof.
  intros Hno. unfold recalculate_copy. rewrite prompt_reads_objects. simpl.
  assert (Forall2 (fun a o : gmap jstring JSValue => o = a ∨
            ∃ text us u,
              resp = Responded (Some text) ∧
              JSON_parse (Frontend.cleanJson text) = Some (JArray us) ∧ u ∈ us ∧
              strict_eq_apart (prop u (js "id")) (prop (JObject a) (js "id")) = true ∧
              o = <[js "transportToNext" := prop u (js "transportToNext")]>
                    (<[js "time" := prop u (js "time")]> a)) acts acts) as Hid.
  { apply Forall2_same_length_lookup_2; [done |]. intros i x y Hx Hy. left. congruence. }
  destruct resp as [reason|[text|]]; cbn [await mbind outcome_bind].
  - by exists acts.
  - destruct (no_text (Some text)) eqn:E.
    { exists acts. split; [| done]. by destruct Hno as [->|[e ->]]. }
    cbn [ToString]. unfold parse. destruct (JSON_parse (Frontend.cleanJson text)) as [upd|] eqn:Ep; simpl;
      [| by exists acts].
    destruct (merge_updates_objects upd acts) as [[e He]|(out & Hout & Hall)];
      rewrite ?He, ?Hout; simpl; [by exists acts |].
    exists out. split; [done |].
    eapply Forall2_impl; [exact Hall |]. intros a o [->|(us & u & -> & Hin & Heq & ->)];
      [by left | right]. by exists text, us, u.
  - exists acts. split; [| done]. by destruct Hno as [->|[e ->]].
Qed.


(** C10, as stated, fails: [fenced_inside] is a JSON document, its
    sanitized form is [a[1]b], and sanitizing that gives [[1]]. *)
Lemma cleanJson_not_idempotent_on_json :
  is_Some (JSON.parse fenced_inside) ∧
  Frontend.cleanJson fenced_inside = js "a[1]b" ∧
  Frontend.cleanJson (Frontend.cleanJson fenced_inside) = js "[1]" ∧
  Frontend.cleanJson (Frontend.cleanJson fenced_inside) ≠ Frontend.cleanJson fenced_inside.
Proof.
  split_and!.
  - vm_compute. by eexists.
  - vm_compute. reflexivity.
  - vm_compute. reflexivity.
  - vm_compute. discriminate.
Qed.

(** C10 (amended). On a text that holds no fenced block (no fence with a
    later fence after it), sanitizing twice is sanitizing once. *)
Theorem cleanJson_idempotent (x : jstring) :
  ¬ block_exists fence x ->
  Frontend.cleanJson (Frontend.cleanJson x) = Frontend.cleanJson x.
Proof. apply cleanJson_idempotent_unfenced. Qed.

Lemma cleanJson_idempotent_witness :
  ¬ block_exists fence plain_document ∧
  Frontend.cleanJson (Frontend.cleanJson plain_document) = Frontend.cleanJson plain_document.
Proof.
  assert (¬ block_exists fence plain_document) as H.
  { apply regex_fenced_None; [apply fence_nonempty | vm_compute; reflexivity]. }
  split; [exact H | exact (cleanJson_idempotent plain_document H)].
Defined.

(** C1, as stated, fails. The locked activity [a1] of [prior] has no image;
    the candidate proposes one, and the activity [a1] of the result has it:
    no activity of the result is the prior activity field for field. And
    where the prior itinerary holds the id twice, the first one locked, the
    activity of the result is the candidate's, title and all. *)
Lemma locked_activity_not_a_full_copy :
  (prior_activity prior (str "a1") = Some (JObject castle_tour) ∧
   castle_tour !! js "isLocked" = Some (JBool true) ∧
   castle_tour !! js "imageUrl" = None ∧
   Services.refineItinerary JSON.parse prior request (Responded (Some candidate_text))
   = Return refined ∧
   (∀ act, act ∈ all_activities refined -> prop act (js "id") = str "a1" ->
      prop act (js "imageUrl") = str "x.png" ∧ act ≠ JObject castle_tour)) ∧
  (∃ first, activity_at prior_twice 0 0 = Some first ∧
     prop first (js "id") = str "a1" ∧ prop first (js "isLocked") = JBool true ∧
     prop first (js "title") = str "Castle Tour" ∧
     Services.refineItinerary JSON.parse prior_twice request (Responded (Some candidate_text))
     = Return refined_twice ∧
     ∀ act, act ∈ all_activities refined_twice -> prop act (js "id") = str "a1" ->
       prop act (js "title") = str "Brunch").
Proof.
  split.
  - split_and!; try (vm_compute; reflexivity).
    intros act Hin Hid.
    assert (∃ a b, all_activities refined = [a; b] ∧
              prop a (js "imageUrl") = str "x.png" ∧ prop b (js "id") = str "n1")
      as (a & b & Hall & Ha & Hb).
    { eexists _, _. split_and!; vm_compute; reflexivity. }
    rewrite Hall in Hin. rewrite !elem_of_cons, elem_of_nil in Hin.
    destruct Hin as [->|[->|[]]].
    + split; [done |]. intros E. rewrite E in Ha. vm_compute in Ha. discriminate Ha.
    + rewrite Hb in Hid. vm_compute in Hid. discriminate Hid.
  - eexists. split_and!; try (vm_compute; reflexivity).
    intros act Hin Hid.
    assert (∃ a b, all_activities refined_twice = [a; b] ∧
              prop a (js "title") = str "Brunch" ∧ prop b (js "id") = str "n1")
      as (a & b & Hall & Ha & Hb).
    { eexists _, _. split_and!; vm_compute; reflexivity. }
    rewrite Hall in Hin. rewrite !elem_of_cons, elem_of_nil in Hin.
    destruct Hin as [->|[->|[]]]; [done |].
    rewrite Hb in Hid. vm_compute in Hid. discriminate Hid.
Qed.

Lemma locked_activity_kept_witness :
  Services.copy ∈ copies ∧
  JSON.parse (sanitized Services.copy candidate_text) = Some candidate ∧
  refine_copy JSON.parse Services.copy prior request (Responded (Some candidate_text))
  = Return refined ∧
  activity_at candidate 0 0 = Some brunch ∧
  prior_activity prior (prop brunch (js "id")) = Some (JObject castle_tour) ∧
  truthy (prop (JObject castle_tour) (js "isLocked")) = true ∧
  ∃ pc pr,
    brunch = JObject pc ∧ activity_at refined 0 0 = Some (JObject pr) ∧
    (∀ k v, castle_tour !! k = Some v -> pr !! k = Some v) ∧
    (∀ k, castle_tour !! k = None ->
          pr !! k = if bool_decide (k ∈ copied Services.copy)
                    then Some JUndefined else pc !! k).
Proof.
  assert (Services.copy ∈ copies) as H1 by apply list_elem_of_here.
  assert (JSON.parse (sanitized Services.copy candidate_text) = Some candidate) as H2
    by (vm_compute; reflexivity).
  assert (refine_copy JSON.parse Services.copy prior request (Responded (Some candidate_text))
          = Return refined) as H3 by (vm_compute; reflexivity).
  assert (activity_at candidate 0 0 = Some brunch) as H4 by (vm_compute; reflexivity).
  assert (prior_activity prior (prop brunch (js "id")) = Some (JObject castle_tour)) as H5
    by (vm_compute; reflexivity).
  assert (truthy (prop (JObject castle_tour) (js "isLocked")) = true) as H6
    by (vm_compute; reflexivity).
  split_and!; [exact H1 | exact H2 | exact H3 | exact H4 | exact H5 | exact H6 |].
  exact (locked_activity_kept JSON.parse Services.copy prior request candidate_text
           candidate refined H1 H2 H3 0 0 brunch castle_tour H4 H5 H6).
Defined.

(** C4 fails on the code: the notes of a new activity are not reset. The
    candidate's new activity [n1] comes with notes (and a lock) of the
    model; after [refineItinerary] of src/unnamed/part_003 its lock,
    mandatory flag and feedback are the defaults, and its notes are still
    the model's. [generateItinerary] resets them ([act.userNotes = '']);
    the [else] branch of [refineItinerary] does not. *)
Theorem new_activity_keeps_candidate_notes :
  prior_activity prior (str "n1") = None ∧
  ∃ r pr,
    Part003.refineItinerary JSON.parse prior request (Responded (Some candidate_fenced))
    = Return r ∧
    activity_at r 0 1 = Some (JObject pr) ∧
    pr !! js "id" = Some (str "n1") ∧
    pr !! js "isLocked" = Some (JBool false) ∧
    pr !! js "isMandatory" = Some (JBool false) ∧
    pr !! js "feedback" = Some (str "neutral") ∧
    pr !! js "userNotes" = Some (str "Bring sunscreen").
Proof.
  split; [vm_compute; reflexivity |].
  eexists _, _. split_and!; vm_compute; reflexivity.
Qed.

Lemma carried_same_prop (JSON_parse : jstring -> option JSValue) (c : RefineCopy)
    (P : JSValue) (req : jstring) (resp : Completion) (r : JSValue) (k : jstring) :
  refine_copy JSON_parse c P req resp = Return r ->
  k ∈ carried c ->
  same_prop P r k.
Proof.
  intros H Hk.
  destruct (carried_props _ _ _ _ _ _ H k Hk) as [H1 H2]. by eexists.
Qed.

(** C7 (amended). Whatever the candidate holds, the itinerary that
    [refineItinerary] returns has the logistics and the wishlist of the
    prior itinerary, in every copy; in the one copy that echoes the trip
    settings (lines 194-200 of src/frontend/services/geminiService.ts) it
    also has its start date, duration, travelers and interests. *)
Theorem owner_fields_carried (JSON_parse : jstring -> option JSValue)
    (P : JSValue) (req : jstring) (resp : Completion) (r : JSValue) :
  (∀ c, c ∈ copies -> refine_copy JSON_parse c P req resp = Return r ->
     same_prop P r (js "logistics") ∧ same_prop P r (js "wishlist")) ∧
  (FrontendA.refineItinerary JSON_parse P req resp = Return r ->
     same_prop P r (js "logistics") ∧ same_prop P r (js "wishlist") ∧
     same_prop P r (js "startDate") ∧ same_prop P r (js "durationDays") ∧
     same_prop P r (js "travelers") ∧ same_prop P r (js "interests")).
Proof.
  split.
  - intros c Hc H. unfold copies in Hc. rewrite !elem_of_cons, elem_of_nil in Hc.
    destruct Hc as [->|[->|[->|[->|[->|[]]]]]];
      (split; apply (carried_same_prop _ _ _ _ _ _ _ H); by_computation).
  - intros H. change (refine_copy JSON_parse FrontendA.copy P req resp = Return r) in H.
    split_and!; apply (carried_same_prop _ _ _ _ _ _ _ H); by_computation.
Qed.

Lemma owner_fields_carried_witness :
  FrontendA.refineItinerary JSON.parse prior request (Responded (Some candidate_fenced))
  = Return (returned JNull (FrontendA.refineItinerary JSON.parse prior request
                              (Responded (Some candidate_fenced)))) ∧
  same_prop prior
    (returned JNull (FrontendA.refineItinerary JSON.parse prior request
                       (Responded (Some candidate_fenced)))) (js "logistics") ∧
  same_prop prior
    (returned JNull (FrontendA.refineItinerary JSON.parse prior request
                       (Responded (Some candidate_fenced)))) (js "startDate").
Proof.
  assert (FrontendA.refineItinerary JSON.parse prior request (Responded (Some candidate_fenced))
          = Return (returned JNull (FrontendA.refineItinerary JSON.parse prior request
                                      (Responded (Some candidate_fenced))))) as H
    by (vm_compute; reflexivity).
  split; [exact H |].
  pose proof (proj2 (owner_fields_carried JSON.parse prior request
                       (Responded (Some candidate_fenced)) _) H) as (H1 & _ & H3 & _).
  split; [exact H1 | exact H3].
Defined.

(** C7, as stated, fails for the trip settings: they are not always copied
    forward. [refineItinerary] of src/services/geminiService.ts writes the
    wishlist and the logistics of the prior itinerary (lines 174-175) and
    nothing else, as do the second frontend copy, src/unnamed/part_003 and
    src/backend/api.ts. For [prior] and the candidate it returns the start
    date of the candidate and no duration, where the prior itinerary has
    its own. *)
Lemma trip_settings_not_carried :
  Services.refineItinerary JSON.parse prior request (Responded (Some candidate_text))
  = Return refined ∧
  prop prior (js "startDate") = str "2025-05-01" ∧
  prop refined (js "startDate") = str "2030-01-01" ∧
  prop prior (js "durationDays") = JNumber 1 ∧
  prop refined (js "durationDays") = JUndefined.
Proof. split_and!; vm_compute; reflexivity. Qed.

(** ** Identity of the refined itinerary *)

(** C3, as stated of [refineItinerary], fails: the itinerary it returns has
    the id of the candidate. *)
Lemma refineItinerary_returns_candidate_id :
  Services.refineItinerary JSON.parse prior request (Responded (Some candidate_text))
  = Return refined ∧
  prop prior (js "id") = str "p" ∧
  prop refined (js "id") = str "c".
Proof. split_and!; vm_compute; reflexivity. Qed.

(** What a copy of [refineItinerary] returns is an object: the last thing
    it did was to write on it. *)
Lemma refine_copy_object (JSON_parse : jstring -> option JSValue) (c : RefineCopy)
    (P : JSValue) (req : jstring) (resp : Completion) (r : JSValue) :
  c ∈ copies ->
  refine_copy JSON_parse c P req resp = Return r ->
  ∃ p, r = JObject p.
Proof.
  intros Hc H.
  apply refine_copy_Return in H as (text & C & _ & _ & _ & H).
  apply merge_state_Return in H as (m & data & _ & _ & Hcp).
  apply copy_props_Return in Hcp as [[E _]|(pd & _ & Hn & ->)]; [| by eexists].
  unfold copies in Hc. rewrite !elem_of_cons, elem_of_nil in Hc.
  by destruct Hc as [->|[->|[->|[->|[->|[]]]]]].
Qed.

(** C3 (amended). It is [handleRefine] that fixes the id. When an itinerary
    is on screen, the request is not blank and [refineItinerary] (any copy)
    returns [updated], the itinerary that [handleRefine] leaves on screen
    is [updated] with its id set to the id of the itinerary that was there,
    whatever id the candidate had. *)
Theorem handleRefine_keeps_id (JSON_parse : jstring -> option JSValue) (c : RefineCopy)
    (st st' : AppState) (response : Completion) (updated : JSValue) :
  c ∈ copies ->
  truthy (itinerary st) = true ->
  trim (refinePrompt st) ≠ [] ->
  refine_copy JSON_parse c (itinerary st) (refinePrompt st) response = Return updated ->
  handleRefine (refine_copy JSON_parse c) st response = Return st' ->
  ∃ p, updated = JObject p ∧
       itinerary st' = JObject (<[js "id" := prop (itinerary st) (js "id")]> p) ∧
       prop (itinerary st') (js "id") = prop (itinerary st) (js "id").
Proof.
  intros Hc Hit Hreq Hup H. unfold handleRefine in H. rewrite Hit in H.
  destruct (trim (refinePrompt st)) as [|x t] eqn:Et; [done |].
  cbn [truthy negb orb] in H. unfold handleRefine_try in H.
  cbn [itinerary refinePrompt setIsRefining] in H. rewrite Hup in H.
  rewrite get_prop_truthy in H by done. cbn [mbind outcome_bind] in H.
  destruct (refine_copy_object _ _ _ _ _ _ Hc Hup) as [p ->].
  exists p. split; [done |].
  cbn [set_prop] in H. unfold saveToHistory in H.
  cbn [savedPlans setShowRefineInput setRefinePrompt setItinerary setItem_throws] in H.
  assert (∀ s : AppState, itinerary (setIsRefining false s) = itinerary s) as E1 by done.
  assert (∀ m s, itinerary (alert m s) = itinerary s) as E2 by done.
  assert (∀ v s, itinerary (setSavedPlans v s) = itinerary s) as E3 by done.
  assert (itinerary st' = JObject (<[js "id" := prop (itinerary st) (js "id")]> p)) as ->.
  { destruct (_ ≫= _) in H; [destruct (setItem_throws _) in H | |];
      try discriminate H; injection H as <-; by rewrite ?E1, ?E2, ?E3. }
  split; [done |]. simpl. by rewrite lookup_insert_eq.
Qed.

Lemma handleRefine_keeps_id_witness :
  Services.copy ∈ copies ∧
  truthy (itinerary on_screen) = true ∧
  trim (refinePrompt on_screen) ≠ [] ∧
  refine_copy JSON.parse Services.copy (itinerary on_screen) (refinePrompt on_screen)
    (Responded (Some candidate_text)) = Return refined ∧
  handleRefine (refine_copy JSON.parse Services.copy) on_screen
    (Responded (Some candidate_text)) = Return after_refine ∧
  ∃ p, refined = JObject p ∧
       itinerary after_refine
       = JObject (<[js "id" := prop (itinerary on_screen) (js "id")]> p) ∧
       prop (itinerary after_refine) (js "id") = prop (itinerary on_screen) (js "id").
Proof.
  assert (Services.copy ∈ copies) as H0 by apply list_elem_of_here.
  assert (truthy (itinerary on_screen) = true) as H1 by (vm_compute; reflexivity).
  assert (trim (refinePrompt on_screen) ≠ []) as H2 by (vm_compute; discriminate).
  assert (refine_copy JSON.parse Services.copy (itinerary on_screen) (refinePrompt on_screen)
            (Responded (Some candidate_text)) = Return refined) as H3
    by (vm_compute; reflexivity).
  assert (handleRefine (refine_copy JSON.parse Services.copy) on_screen
            (Responded (Some candidate_text)) = Return after_refine) as H4
    by (vm_compute; reflexivity).
  split_and!; [exact H0 | exact H1 | exact H2 | exact H3 | exact H4 |].
  exact (handleRefine_keeps_id JSON.parse Services.copy on_screen after_refine
           (Responded (Some candidate_text)) refined H0 H1 H2 H3 H4).
Defined.

(** C5, as stated, fails: nothing looks for [destination] or [days]. For
    the input [trip], whose prompt is built without error, a response that
    parses to an object with neither is hydrated and returned by
    [generateItinerary] of the frontend copy; one with [days] and no
    [destination] by [generateItinerary] of src/services and by
    [refineItinerary]. *)
Lemma generateItinerary_accepts_missing_fields :
  generate_prompt_reads false trip = Return () ∧
  generate_prompt_reads true trip = Return () ∧
  (∃ p, FrontendA.generateItinerary JSON.parse (fun _ => js "r")
          trip (Responded (Some (jsq "{'title':'A trip'}"))) = Return (JObject p) ∧
        p !! js "destination" = None ∧ p !! js "days" = None) ∧
  (∃ p, Services.generateItinerary JSON.parse
          trip (Responded (Some (jsq "{'days':[]}"))) = Return (JObject p) ∧
        p !! js "destination" = None) ∧
  (∃ p, Services.refineItinerary JSON.parse
          prior request (Responded (Some (jsq "{'days':[]}"))) = Return (JObject p) ∧
        p !! js "destination" = None).
Proof.
  split; [vm_compute; reflexivity |]. split; [vm_compute; reflexivity |].
  split_and!; eexists; split_and!; vm_compute; reflexivity.
Qed.

(** C5 (amended). A response whose text is not empty and, sanitized where
    the copy sanitizes it, is not JSON makes the operation throw; no
    itinerary is returned. From an input whose prompt is built without
    error, [generateItinerary] of src/services throws the [SyntaxError] of
    [JSON.parse] and [generateItinerary] of the frontend copy throws
    [Error("Failed to parse AI response")]; every copy of
    [refineItinerary] throws the [SyntaxError]. From an input that the
    prompt template cannot read, [generateItinerary] throws the error of
    that read, whatever the response. *)
Theorem malformed_response_throws (JSON_parse : jstring -> option JSValue)
    (random_id : nat -> jstring) (input : TripInput) (P : JSValue) (req text : jstring) :
  text ≠ [] ->
  (generate_prompt_reads false input = Return () ->
   JSON_parse text = None ->
   Services.generateItinerary JSON_parse input (Responded (Some text)) = Throw SyntaxError) ∧
  (generate_prompt_reads true input = Return () ->
   JSON_parse (Frontend.cleanJson text) = None ->
   FrontendA.generateItinerary JSON_parse random_id input (Responded (Some text))
   = Throw (Error (js "Failed to parse AI response"))) ∧
  (∀ e response,
     (generate_prompt_reads false input = Throw e ->
      Services.generateItinerary JSON_parse input response = Throw e) ∧
     (generate_prompt_reads true input = Throw e ->
      FrontendA.generateItinerary JSON_parse random_id input response = Throw e)) ∧
  (∀ c, JSON_parse (sanitized c text) = None ->
        refine_copy JSON_parse c P req (Responded (Some text)) = Throw SyntaxError).
Proof.
  intros Ht. split_and!.
  - intros Hr Hp. unfold Services.generateItinerary. rewrite Hr.
    destruct text as [|x text]; [done |].
    cbn [await no_text mbind outcome_bind ToString]. by rewrite parse_None.
  - intros Hr Hp. unfold FrontendA.generateItinerary. rewrite Hr.
    destruct text as [|x text]; [done |].
    cbn [await no_text mbind outcome_bind ToString]. by rewrite parse_None.
  - intros e response. unfold Services.generateItinerary, FrontendA.generateItinerary.
    split; by intros ->.
  - intros c Hp. by apply refine_copy_malformed.
Qed.

Lemma malformed_response_throws_witness :
  apology ≠ [] ∧
  generate_prompt_reads false trip = Return () ∧
  generate_prompt_reads true trip = Return () ∧
  JSON.parse apology = None ∧
  Services.generateItinerary JSON.parse trip (Responded (Some apology)) = Throw SyntaxError ∧
  JSON.parse (Frontend.cleanJson apology) = None ∧
  FrontendA.generateItinerary JSON.parse (fun _ => js "r") trip (Responded (Some apology))
  = Throw (Error (js "Failed to parse AI response")).
Proof.
  assert (apology ≠ []) as H0 by (vm_compute; discriminate).
  assert (generate_prompt_reads false trip = Return ()) as Hr by (vm_compute; reflexivity).
  assert (generate_prompt_reads true trip = Return ()) as Hr' by (vm_compute; reflexivity).
  assert (JSON.parse apology = None) as H1 by (vm_compute; reflexivity).
  assert (JSON.parse (Frontend.cleanJson apology) = None) as H2 by (vm_compute; reflexivity).
  destruct (malformed_response_throws JSON.parse (fun _ => js "r") trip prior request
              apology H0) as (G1 & G2 & _).
  split_and!; [exact H0 | exact Hr | exact Hr' | exact H1 | exact (G1 Hr H1) | exact H2
              | exact (G2 Hr' H2)].
Defined.

(** ** [analyzeSocialContent] *)

(** C2, as stated, fails: the completion call of [analyzeSocialContent]
    stands before its [try], so a call that fails rejects the promise the
    function returns. *)
Lemma analyzeSocialContent_rejects :
  Services.analyzeSocialContent JSON.parse (js "1") (js "https://example.org/p/1")
    (Rejected (Rejection (js "503"))) = Throw (Rejection (js "503")) ∧
  FrontendA.analyzeSocialContent JSON.parse (js "1") (js "https://example.org/p/1")
    (Rejected (Rejection (js "503"))) = Throw (Rejection (js "503")).
Proof. split; reflexivity. Qed.

(** C2 (amended). Once the completion call has resolved,
    [analyzeSocialContent] returns a wishlist item for the content it was
    given, whatever the text of the response; and when what it hands to
    [JSON.parse] is not JSON (or, in the copies that sanitize, when the
    response has no text to sanitize), the analysis of the item is the
    placeholder. *)
Theorem analyzeSocialContent_resolved (JSON_parse : jstring -> option JSValue)
    (now content : jstring) (text : option jstring) :
  (∀ f, f ∈ analyzers_raw JSON_parse ->
     ∃ item, f now content (Responded text) = Return item ∧
             item_content item = content ∧
             (JSON_parse (ToString text) = None -> item_analysis item = placeholder)) ∧
  (∀ f, f ∈ analyzers_sanitizing JSON_parse ->
     ∃ item, f now content (Responded text) = Return item ∧
             item_content item = content ∧
             ((∀ s, text = Some s -> JSON_parse (Frontend.cleanJson s) = None) ->
              item_analysis item = placeholder)).
Proof.
  split; intros f Hf.
  - assert (f = analyze_copy JSON_parse (fun text => Return (ToString text))) as ->.
    { unfold analyzers_raw in Hf. rewrite !elem_of_cons, elem_of_nil in Hf.
      by destruct Hf as [->|[->|[->|[]]]]. }
    unfold analyze_copy. cbn [await mbind outcome_bind]. unfold parse.
    destruct (JSON_parse (ToString text)) as [v|]; cbn [try_catch];
      (eexists; split_and!; [reflexivity | reflexivity | done]).
  - assert (f = analyze_copy JSON_parse cleanJson_of) as ->.
    { unfold analyzers_sanitizing in Hf. rewrite !elem_of_cons, elem_of_nil in Hf.
      by destruct Hf as [->|[->|[]]]. }
    unfold analyze_copy. cbn [await mbind outcome_bind]. unfold parse.
    destruct text as [s|]; cbn [cleanJson_of mbind outcome_bind].
    + destruct (JSON_parse (Frontend.cleanJson s)) as [v|] eqn:E; cbn [try_catch];
        (eexists; split_and!; [reflexivity | reflexivity |]); [| done].
      intros H. specialize (H s eq_refl). congruence.
    + cbn [try_catch]. eexists; split_and!; [reflexivity | reflexivity | done].
Qed.

(** ** [recalculateDaySchedule] *)

(** C6. When the completion call is rejected, the response has no text or
    the sanitized text is not JSON, [recalculateDaySchedule] returns the
    activities it was given: the same list. *)
Theorem recalculateDaySchedule_fails_open (JSON_parse : jstring -> option JSValue)
    (activities : list (gmap jstring JSValue)) (previousLocation : option jstring)
    (response : Completion) :
  pipeline_fails JSON_parse response ->
  FrontendA.recalculateDaySchedule JSON_parse (JObject <$> activities) previousLocation response
  = Return (JObject <$> activities) ∧
  FrontendB.recalculateDaySchedule JSON_parse (JObject <$> activities) previousLocation response
  = Return (JObject <$> activities) ∧
  Part003.recalculateDaySchedule JSON_parse (JObject <$> activities) previousLocation response
  = Return (JObject <$> activities).
Proof.
  intros H. split_and!; apply recalculate_copy_fails; eauto.
Qed.

Lemma recalculateDaySchedule_fails_open_witness :
  pipeline_fails JSON.parse (Responded (Some apology)) ∧
  FrontendA.recalculateDaySchedule JSON.parse (JObject <$> day_one) None
    (Responded (Some apology)) = Return (JObject <$> day_one) ∧
  Part003.recalculateDaySchedule JSON.parse (JObject <$> day_one) None
    (Responded (Some apology)) = Return (JObject <$> day_one).
Proof.
  assert (pipeline_fails JSON.parse (Responded (Some apology))) as H.
  { apply fails_parse. vm_compute. reflexivity. }
  destruct (recalculateDaySchedule_fails_open JSON.parse day_one None
              (Responded (Some apology)) H) as (G1 & _ & G3).
  split_and!; [exact H | exact G1 | exact G3].
Defined.

Lemma recalculate_copy_keeps_frame (JSON_parse : jstring -> option JSValue)
    (keys : list jstring) (on_no_text : outcome (list JSValue))
    (activities : list (gmap jstring JSValue)) (previousLocation : option jstring)
    (response : Completion) :
  on_no_text = Return (JObject <$> activities) ∨ (∃ e, on_no_text = Throw e) ->
  keeps_frame JSON_parse response activities
    (recalculate_copy JSON_parse keys on_no_text (JObject <$> activities)
       previousLocation response).
Proof.
  intros Hno.
  destruct (recalculate_copy_frame JSON_parse keys on_no_text activities previousLocation
              response Hno) as (out & -> & Hall).
  exists out. split_and!; [done | symmetry; by eapply Forall2_length |].
  eapply Forall2_impl; [exact Hall |]. intros a o H. split; [| exact H].
  intros k Hk1 Hk2. destruct H as [->|(text & us & u & _ & _ & _ & _ & ->)]; [done |].
  by rewrite !lookup_insert_ne.
Qed.

(** C8. [recalculateDaySchedule] returns as many activities as it was
    given, in their order; each one has every property of the activity at
    its place, [time] and [transportToNext] apart (so the same id, image,
    notes and costs); and it is that activity itself unless the parsed
    response holds an update with its id, from which the two properties are
    then taken. *)
Theorem recalculateDaySchedule_frame (JSON_parse : jstring -> option JSValue)
    (activities : list (gmap jstring JSValue)) (previousLocation : option jstring)
    (response : Completion) :
  keeps_frame JSON_parse response activities
    (FrontendA.recalculateDaySchedule JSON_parse (JObject <$> activities)
       previousLocation response) ∧
  keeps_frame JSON_parse response activities
    (FrontendB.recalculateDaySchedule JSON_parse (JObject <$> activities)
       previousLocation response) ∧
  keeps_frame JSON_parse response activities
    (Part003.recalculateDaySchedule JSON_parse (JObject <$> activities)
       previousLocation response).
Proof.
  split_and!; apply recalculate_copy_keeps_frame; eauto.
Qed.

(** * More of the sanitizers *)

(** The short [cleanJson] of src/backend/api.ts leaves no fence marker in
    what it returns, and no white space at either end. *)
Theorem Backend_cleanJson_fence_free (text : jstring) :
  fence_free (Backend.cleanJson text) ∧
  trim (Backend.cleanJson text) = Backend.cleanJson text.
Proof.
  unfold Backend.cleanJson. split.
  - apply trim_fence_free, replace_fence_free.
  - apply trim_idem.
Qed.

(** A text without a fence marker is left as it is by the two
    replacements. *)
Lemma replace_fences_free (s : jstring) :
  fence_free s -> replace_g (replace_g s fence_json []) fence [] = s.
Proof.
  intros H. rewrite (replace_g_free fence_json) by by apply fence_free_json.
  by apply replace_g_free.
Qed.

(** The short [cleanJson] of src/backend/api.ts is idempotent on every
    text. *)
Theorem Backend_cleanJson_idempotent (text : jstring) :
  Backend.cleanJson (Backend.cleanJson text) = Backend.cleanJson text.
Proof.
  unfold Backend.cleanJson at 1.
  rewrite replace_fences_free; [apply trim_idem |].
  unfold Backend.cleanJson. apply trim_fence_free, replace_fence_free.
Qed.

(** Both sanitizers only remove: what they return is the text with some of
    its units left out, in the same order, so it is never longer than the
    text. *)
Theorem cleanJson_sublist (text : jstring) :
  Frontend.cleanJson text `sublist_of` text ∧
  Backend.cleanJson text `sublist_of` text ∧
  length (Frontend.cleanJson text) <= length text ∧
  length (Backend.cleanJson text) <= length text.
Proof.
  assert (trim (replace_g (replace_g text fence_json []) fence []) `sublist_of` text) as Hplain.
  { etrans; [apply trim_sublist |]. etrans; [apply replace_g_sublist, fence_nonempty |].
    apply replace_g_sublist, fence_json_nonempty. }
  assert (∀ op body, fenced_block op text body -> trim body `sublist_of` text) as Hblock.
  { intros op body (pre & post & [-> _] & _). etrans; [apply trim_sublist |].
    apply sublist_inserts_l, sublist_inserts_l, sublist_inserts_r. done. }
  assert (Frontend.cleanJson text `sublist_of` text) as HF.
  { destruct (Sanitized_cleanJson text); eauto using outer_span_sublist. }
  split_and!; [done | done | by apply sublist_length | by apply sublist_length].
Qed.

(** Brackets win over braces. A text without a fence marker that is a
    JSON object around an array, [{ a [ mid ] b }] with no [[] in [a] and no
    []] in [b], is cut down to the array: [cleanJson] returns [[ mid ]], not
    the object. *)
Theorem cleanJson_cuts_object_to_array (a mid b : jstring) :
  let text := [123%N] ++ a ++ [91%N] ++ mid ++ [93%N] ++ b ++ [125%N] in
  fence_free text ->
  91%N ∉ a ->
  93%N ∉ b ->
  Frontend.cleanJson text = [91%N] ++ mid ++ [93%N] ∧
  Frontend.cleanJson text ≠ text.
Proof.
  intros text Hfree Ha Hb.
  assert (Frontend.cleanJson text = [91%N] ++ mid ++ [93%N]) as E.
  { assert (outer_span 91 93 text ([91%N] ++ mid ++ [93%N])) as Hspan.
    { exists ([123%N] ++ a), mid, (b ++ [125%N]). split_and!.
      - unfold text. by rewrite <- !(assoc_L (++)).
      - done.
      - rewrite elem_of_app, list_elem_of_singleton. intros [[=]|?]. done.
      - rewrite elem_of_app, list_elem_of_singleton. intros [?|[=]]. done. }
    rewrite cleanJson_unfenced by by apply fence_free_no_block.
    pose proof (outer_span_exists _ _ _ _ Hspan) as Hex.
    apply span_test_iff in Hex. rewrite Hex.
    eapply outer_span_unique; [by apply span_test_true | done]. }
  split; [done |]. rewrite E. unfold text. simpl. intros [=].
Qed.

Lemma cleanJson_cuts_object_to_array_witness :
  object_with_array = [123%N] ++ jsq "'days':" ++ [91%N] ++ js "1" ++ [93%N] ++ [] ++ [125%N] ∧
  Frontend.cleanJson object_with_array = js "[1]" ∧
  Frontend.cleanJson object_with_array ≠ object_with_array.
Proof.
  assert (fence_free ([123%N] ++ jsq "'days':" ++ [91%N] ++ js "1" ++ [93%N] ++ [] ++ [125%N]))
    as H1.
  { intros n. do 13 (destruct n as [|n]; [vm_compute; reflexivity |]).
    rewrite drop_ge; [vm_compute; reflexivity | vm_compute; lia]. }
  assert (91%N ∉ jsq "'days':") as H2 by by_computation.
  assert (93%N ∉ @nil N) as H3 by apply not_elem_of_nil.
  split; [vm_compute; reflexivity |].
  exact (cleanJson_cuts_object_to_array (jsq "'days':") (js "1") [] H1 H2 H3).
Defined.

Lemma new_activity_defaults_witness :
  Services.copy ∈ copies ∧
  JSON.parse (sanitized Services.copy candidate_text) = Some candidate ∧
  refine_copy JSON.parse Services.copy prior request (Responded (Some candidate_text))
  = Return refined ∧
  activity_at candidate 0 1 = Some tram ∧
  prior_activity prior (prop tram (js "id")) = None ∧
  ∃ pc pr,
    tram = JObject pc ∧ activity_at refined 0 1 = Some (JObject pr) ∧
    pr !! js "isLocked" = Some (JBool false) ∧
    pr !! js "feedback" = Some (str "neutral") ∧
    (js "isMandatory" ∈ (defaults Services.copy).*1 ->
     pr !! js "isMandatory" = Some (JBool false)) ∧
    (∀ k, k ∉ (defaults Services.copy).*1 -> pr !! k = pc !! k).
Proof.
  assert (Services.copy ∈ copies) as H1 by apply list_elem_of_here.
  assert (JSON.parse (sanitized Services.copy candidate_text) = Some candidate) as H2
    by (vm_compute; reflexivity).
  assert (refine_copy JSON.parse Services.copy prior request (Responded (Some candidate_text))
          = Return refined) as H3 by (vm_compute; reflexivity).
  assert (activity_at candidate 0 1 = Some tram) as H4 by (vm_compute; reflexivity).
  assert (prior_activity prior (prop tram (js "id")) = None) as H5
    by (vm_compute; reflexivity).
  split_and!; [exact H1 | exact H2 | exact H3 | exact H4 | exact H5 |].
  exact (new_activity_defaults JSON.parse Services.copy prior request candidate_text
           candidate refined H1 H2 H3 0 1 tram H4 H5).
Defined.

(** In every copy of [refineItinerary], an activity of the candidate whose
    id is that of a prior activity that is not locked takes the user's
    fields of the copy (feedback, actual cost, notes, ...) from the prior
    activity, also where the prior activity has none ([undefined]), and
    keeps every other property as the candidate gave it. *)
Theorem unlocked_activity_user_fields (JSON_parse : jstring -> option JSValue)
    (c : RefineCopy) (P : JSValue) (req text : jstring) (C r : JSValue) :
  c ∈ copies ->
  JSON_parse (sanitized c text) = Some C ->
  refine_copy JSON_parse c P req (Responded (Some text)) = Return r ->
  ∀ d j act old,
    activity_at C d j = Some act ->
    prior_activity P (prop act (js "id")) = Some old ->
    truthy old = true ->
    truthy (prop old (js "isLocked")) = false ->
    ∃ pc pr,
      act = JObject pc ∧ activity_at r d j = Some (JObject pr) ∧
      (∀ k, k ∈ copied c -> pr !! k = Some (prop old k)) ∧
      (∀ k, k ∉ copied c -> pr !! k = pc !! k).
Proof.
  intros Hc HC H d j act old Hact Hprior Hold Hlock.
  apply refine_copy_Return in H as (text' & C' & [= <-] & _ & HC' & H).
  assert (C' = C) as -> by congruence.
  destruct (merge_state_at _ _ _ _ d j act (copies_days c Hc) H Hact)
    as (m & act' & Hm & Hat & Hmerge).
  pose proof (Map_get_prior P m (prop act (js "id")) Hm) as Hget.
  rewrite Hprior in Hget. simpl in Hget.
  destruct (merge_activity_unlocked _ _ _ _ _ _ Hmerge Hget Hold Hlock)
    as [[E _]|(pc & -> & ->)].
  { exfalso. unfold copies in Hc. rewrite !elem_of_cons, elem_of_nil in Hc.
    by destruct Hc as [->|[->|[->|[->|[->|[]]]]]]. }
  exists pc, (copy_map (copied c) (prop old) pc). split_and!; [done | done | |].
  - intros k Hk. by apply copy_map_lookup_in.
  - intros k Hk. by apply copy_map_lookup_notin.
Qed.

Lemma unlocked_activity_user_fields_witness :
  Services.copy ∈ copies ∧
  JSON.parse (sanitized Services.copy candidate_text) = Some candidate ∧
  refine_copy JSON.parse Services.copy prior_open request (Responded (Some candidate_text))
  = Return refined_open ∧
  activity_at candidate 0 0 = Some brunch ∧
  prior_activity prior_open (prop brunch (js "id")) = Some castle_tour_open ∧
  truthy castle_tour_open = true ∧
  truthy (prop castle_tour_open (js "isLocked")) = false ∧
  ∃ pc pr,
    brunch = JObject pc ∧ activity_at refined_open 0 0 = Some (JObject pr) ∧
    (∀ k, k ∈ copied Services.copy -> pr !! k = Some (prop castle_tour_open k)) ∧
    (∀ k, k ∉ copied Services.copy -> pr !! k = pc !! k).
Proof.
  assert (Services.copy ∈ copies) as H1 by apply list_elem_of_here.
  assert (JSON.parse (sanitized Services.copy candidate_text) = Some candidate) as H2
    by (vm_compute; reflexivity).
  assert (refine_copy JSON.parse Services.copy prior_open request
            (Responded (Some candidate_text)) = Return refined_open) as H3
    by (vm_compute; reflexivity).
  assert (activity_at candidate 0 0 = Some brunch) as H4 by (vm_compute; reflexivity).
  assert (prior_activity prior_open (prop brunch (js "id")) = Some castle_tour_open) as H5
    by (vm_compute; reflexivity).
  assert (truthy castle_tour_open = true) as H6 by (vm_compute; reflexivity).
  assert (truthy (prop castle_tour_open (js "isLocked")) = false) as H7
    by (vm_compute; reflexivity).
  split_and!; [exact H1 | exact H2 | exact H3 | exact H4 | exact H5 | exact H6 | exact H7 |].
  exact (unlocked_activity_user_fields JSON.parse Services.copy prior_open request
           candidate_text candidate refined_open H1 H2 H3 0 0 brunch castle_tour_open
           H4 H5 H6 H7).
Defined.

(** A candidate that parses to an object without [days]: the copies whose
    loop runs unguarded throw the [TypeError] of [data.days.forEach]; the
    copy that tests [if (data.days)] returns the candidate with the
    properties it carries over from the prior itinerary. *)
Theorem refine_candidate_without_days (JSON_parse : jstring -> option JSValue)
    (c : RefineCopy) (P : JSValue) (req text : jstring) (p : gmap jstring JSValue)
    (m : JSMap) :
  text ≠ [] ->
  JSON_parse (sanitized c text) = Some (JObject p) ->
  p !! js "days" = None ->
  oldActivityMap P = Return m ->
  refine_copy JSON_parse c P req (Responded (Some text)) =
  if guards_days c
  then Return (JObject (copy_map (carried c) (prop P) p))
  else Throw TypeError.
Proof.
  intros Ht Hp Hd Hm. unfold refine_copy. destruct text as [|x text]; [done |].
  cbn [await no_text mbind outcome_bind ToString]. unfold parse. rewrite Hp.
  cbn [mbind outcome_bind]. unfold merge_state. rewrite Hm. cbn [mbind outcome_bind].
  assert (nullish P = false) as HP.
  { unfold oldActivityMap in Hm. apply bind_Return in Hm as (days & Hdays & _).
    apply get_prop_Return in Hdays. tauto. }
  destruct (guards_days c).
  - cbn [get_prop mbind outcome_bind]. rewrite Hd. cbn [default truthy mbind outcome_bind].
    by rewrite copy_props_object.
  - unfold for_each_activity. cbn [get_prop mbind outcome_bind]. rewrite Hd. done.
Qed.

Lemma refine_candidate_without_days_witness :
  no_days_text ≠ [] ∧
  (∃ r, FrontendA.refineItinerary JSON.parse prior request (Responded (Some no_days_text))
        = Return r ∧ prop r (js "logistics") = prop prior (js "logistics")) ∧
  Services.refineItinerary JSON.parse prior request (Responded (Some no_days_text))
  = Throw TypeError.
Proof.
  assert (no_days_text ≠ []) as H1 by (vm_compute; discriminate).
  assert (∃ p, JSON.parse no_days_text = Some (JObject p) ∧ p !! js "days" = None)
    as (p & H2 & H3).
  { eexists. split; vm_compute; reflexivity. }
  assert (JSON.parse (sanitized FrontendA.copy no_days_text) = Some (JObject p)) as H2'.
  { rewrite <- H2. vm_compute. reflexivity. }
  assert (∃ m, oldActivityMap prior = Return m) as [m H4].
  { eexists. vm_compute. reflexivity. }
  split_and!; [exact H1 | |].
  - eexists. split.
    + exact (refine_candidate_without_days JSON.parse FrontendA.copy prior request
               no_days_text p m H1 H2' H3 H4).
    + cbn [prop]. rewrite copy_map_lookup_in by by_computation. done.
  - exact (refine_candidate_without_days JSON.parse Services.copy prior request
             no_days_text p m H1 H2 H3 H4).
Defined.

(** ** The shape of the result *)

Lemma Map_get_string_id (P : JSValue) (m : JSMap) (s : jstring) :
  oldActivityMap P = Return m ->
  truthy (Map_get m (JString s)) = true ->
  prop (Map_get m (JString s)) (js "id") = JString s.
Proof.
  intros Hm Ht. rewrite (Map_get_prior P m _ Hm) in *.
  unfold prior_activity in *.
  destruct (List.find _ _) as [a|] eqn:E; [| done]. simpl.
  apply List.find_some in E as [_ E]. unfold strict_eq_apart in E.
  destruct (prop a (js "id")); simpl in E; try done.
  by apply bool_decide_eq_true in E as ->.
Qed.

(** The loop body keeps the id of an activity, where it is a string. *)
Lemma merge_activity_id (P : JSValue) (m : JSMap) copied defaults
    (act act' : JSValue) (s : jstring) :
  oldActivityMap P = Return m ->
  js "id" ∉ copied ->
  js "id" ∉ defaults.*1 ->
  merge_activity copied defaults m act = Return act' ->
  prop act (js "id") = JString s ->
  prop act' (js "id") = JString s.
Proof.
  intros Hm Hc Hd H Hid.
  assert (truthy (Map_get m (prop act (js "id"))) = true ->
          prop (Map_get m (prop act (js "id"))) (js "id") = JString s) as Hs.
  { rewrite Hid. by apply Map_get_string_id with P. }
  destruct (truthy (Map_get m (prop act (js "id")))) eqn:Hold.
  - specialize (Hs eq_refl).
    destruct (truthy (prop (Map_get m (prop act (js "id"))) (js "isLocked"))) eqn:Hl.
    + destruct (Map_get m (prop act (js "id"))) as [| | | | | |pa] eqn:Hpa; try done.
      destruct (merge_activity_locked _ _ _ _ _ _ H Hpa Hl) as (pc & -> & ->).
      cbn [prop] in Hs |- *.
      destruct (pa !! js "id") as [v|] eqn:Ev; [| done].
      by rewrite (lookup_union_Some_l _ _ _ _ Ev).
    + destruct (merge_activity_unlocked _ _ _ _ _ _ H eq_refl Hold Hl)
        as [[_ ->]|(pc & -> & ->)]; [done |].
      cbn [prop] in Hid |- *. rewrite copy_map_lookup_notin by done. exact Hid.
  - destruct (merge_activity_new _ _ _ _ _ H Hold) as [[_ ->]|(pc & -> & ->)]; [done |].
    cbn [prop] in Hid |- *. rewrite assign_map_lookup_notin by done. exact Hid.
Qed.

Lemma copy_props_days_of (keys : list jstring) (src data r : JSValue) :
  js "days" ∉ keys ->
  copy_props keys src data = Return r ->
  days_of r = days_of data.
Proof.
  intros Hk H. apply copy_props_Return in H as [[_ ->]|(pd & -> & _ & ->)]; [done |].
  unfold days_of. simpl. by rewrite copy_map_lookup_notin.
Qed.

(** [refineItinerary] adds no activity, drops none and moves none: the
    itinerary it returns has the days of the candidate, each with as many
    activities, and each activity is at the place of the candidate's
    activity that has its id. *)
Theorem refine_keeps_shape (JSON_parse : jstring -> option JSValue) (c : RefineCopy)
    (P : JSValue) (req text : jstring) (C r : JSValue) :
  c ∈ copies ->
  JSON_parse (sanitized c text) = Some C ->
  refine_copy JSON_parse c P req (Responded (Some text)) = Return r ->
  same_shape C r.
Proof.
  intros Hc HC H.
  apply refine_copy_Return in H as (text' & C' & [= <-] & _ & HC' & H).
  assert (C' = C) as -> by congruence.
  apply merge_state_Return in H as (m & data & Hm & Hdata & Hcp).
  unfold same_shape. rewrite (copy_props_days_of _ _ _ _ (copies_days c Hc) Hcp).
  destruct Hdata as [[-> E]|Hfor].
  { rewrite E. constructor. }
  apply for_each_activity_Return in Hfor as (p & ds & ds' & -> & Hds & -> & Hall).
  unfold days_of. simpl. rewrite Hds, lookup_insert_eq. simpl.
  eapply Forall2_impl; [exact Hall |].
  intros day day' (pd & al & al' & -> & Hal & -> & Hacts).
  unfold activities_of. simpl. rewrite Hal, lookup_insert_eq. simpl.
  eapply Forall2_impl; [exact Hacts |].
  intros a a' Hmerge s Hid.
  assert ((js "id" ∉ copied c) ∧ (js "id" ∉ (defaults c).*1)) as [H1 H2].
  { unfold copies in Hc. rewrite !elem_of_cons, elem_of_nil in Hc.
    destruct Hc as [->|[->|[->|[->|[->|[]]]]]]; split; by_computation. }
  exact (merge_activity_id P m _ _ a a' s Hm H1 H2 Hmerge Hid).
Qed.

Lemma refine_keeps_shape_witness :
  Services.copy ∈ copies ∧
  JSON.parse (sanitized Services.copy candidate_text) = Some candidate ∧
  refine_copy JSON.parse Services.copy prior request (Responded (Some candidate_text))
  = Return refined ∧
  same_shape candidate refined.
Proof.
  assert (Services.copy ∈ copies) as H1 by apply list_elem_of_here.
  assert (JSON.parse (sanitized Services.copy candidate_text) = Some candidate) as H2
    by (vm_compute; reflexivity).
  assert (refine_copy JSON.parse Services.copy prior request (Responded (Some candidate_text))
          = Return refined) as H3 by (vm_compute; reflexivity).
  split_and!; [exact H1 | exact H2 | exact H3 |].
  exact (refine_keeps_shape JSON.parse Services.copy prior request candidate_text
           candidate refined H1 H2 H3).
Defined.

Lemma string_id_get_prop (v : JSValue) (s : jstring) :
  string_id v = Some s -> get_prop v (js "id") = Return (JString s).
Proof.
  destruct v as [| | | | | |p]; try done. simpl.
  destruct (p !! js "id") as [[| | | |x| |]|]; try done. by intros [= ->].
Qed.

Lemma filter_others_string_ids (plan : JSValue) (plans : list JSValue) :
  is_Some (string_id plan) ->
  Forall (fun q => is_Some (string_id q)) plans ->
  filter_others plan plans = Return (others plan plans).
Proof.
  intros [s Hs] Hall. induction Hall as [|q plans [t Ht] _ IH]; [done |].
  cbn [filter_others]. rewrite (string_id_get_prop _ _ Ht), (string_id_get_prop _ _ Hs).
  cbn [mbind outcome_bind strict_eq]. rewrite IH. cbn [mbind outcome_bind].
  unfold others. rewrite filter_cons, Ht, Hs. case_bool_decide as E.
  - subst t. by rewrite decide_False by (intros H; by apply H).
  - rewrite decide_True; [done |]. by intros [= ->].
Qed.

(** [saveToHistory] keeps the ids of the history apart. When the saved
    plans and the plan to save are objects with string ids, the history
    after the call starts with the plan, followed by the plans that were
    saved under another id, in their order: so it has grown by one plan at
    most, and if no two saved plans shared an id before, none do after.
    This holds also when [localStorage.setItem] throws. *)
Theorem saveToHistory_keeps_ids_apart (plan : JSValue) (st : AppState)
    (plans : list JSValue) :
  savedPlans st = JArray plans ->
  is_Some (string_id plan) ->
  Forall (fun q => is_Some (string_id q)) plans ->
  savedPlans (saveToHistory plan st).1 = JArray (plan :: others plan plans) ∧
  (string_id plan ∉ string_id <$> others plan plans) ∧
  (∀ q, q ∈ plans -> string_id q ≠ string_id plan -> q ∈ others plan plans) ∧
  length (plan :: others plan plans) <= S (length plans) ∧
  (NoDup (string_id <$> plans) -> NoDup (string_id <$> plan :: others plan plans)).
Proof.
  intros Hs Hp Hall. unfold saveToHistory. rewrite Hs. cbn [as_array mbind outcome_bind].
  rewrite filter_others_string_ids by done.
  assert (string_id plan ∉ string_id <$> others plan plans) as Hnotin.
  { intros (q & E & Hq)%list_elem_of_fmap. unfold others in Hq.
    apply list_elem_of_filter in Hq as [Hne _]. by apply Hne. }
  split_and!.
  - by destruct (setItem_throws st).
  - done.
  - intros q Hq Hne. unfold others. by apply list_elem_of_filter.
  - simpl. apply le_n_S. unfold others. apply length_filter.
  - intros Hnd. rewrite fmap_cons. apply NoDup_cons. split; [done |].
    eapply sublist_NoDup; [exact Hnd | apply fmap_sublist, sublist_filter].
Qed.

Lemma saveToHistory_keeps_ids_apart_witness :
  savedPlans with_history = JArray [earlier_plan; prior] ∧
  is_Some (string_id prior) ∧
  savedPlans (saveToHistory prior with_history).1 = JArray [prior; earlier_plan].
Proof.
  assert (savedPlans with_history = JArray [earlier_plan; prior]) as H1 by reflexivity.
  assert (is_Some (string_id prior)) as H2 by (vm_compute; by eexists).
  assert (Forall (fun q => is_Some (string_id q)) [earlier_plan; prior]) as H3.
  { repeat constructor; vm_compute; by eexists. }
  split_and!; [exact H1 | exact H2 |].
  rewrite (proj1 (saveToHistory_keeps_ids_apart prior with_history _ H1 H2 H3)).
  vm_compute. reflexivity.
Defined.

(** A refinement that is applied. When an itinerary with a string id is on
    screen, the request is not blank and [refineItinerary] returns an
    object, [handleRefine] puts that object on screen under the id of the
    itinerary it replaces, clears the request, hides the input, and saves
    the new itinerary in the place of the old one at the head of the
    history. If [localStorage.setItem] then throws, all of this has
    happened already and the user is still told [Refinement failed.]. *)
Theorem handleRefine_applies
    (refineItinerary : JSValue -> jstring -> Completion -> outcome JSValue)
    (st : AppState) (response : Completion)
    (p : gmap jstring JSValue) (s : jstring) (plans : list JSValue) :
  string_id (itinerary st) = Some s ->
  trim (refinePrompt st) ≠ [] ->
  refineItinerary (itinerary st) (refinePrompt st) response = Return (JObject p) ->
  savedPlans st = JArray plans ->
  Forall (fun q => is_Some (string_id q)) plans ->
  let updated := JObject (<[js "id" := JString s]> p) in
  ∃ st',
    handleRefine refineItinerary st response = Return st' ∧
    itinerary st' = updated ∧
    refinePrompt st' = [] ∧
    showRefineInput st' = false ∧
    isRefining st' = false ∧
    savedPlans st' = JArray (updated :: others (itinerary st) plans) ∧
    alerts st' = match setItem_throws st with
                 | None => alerts st
                 | Some _ => js "Refinement failed." :: alerts st
                 end.
Proof.
  intros Hid Hreq Hup Hs Hall updated.
  assert (truthy (itinerary st) = true) as Hit.
  { destruct (itinerary st); done. }
  assert (prop (itinerary st) (js "id") = JString s) as Hprop.
  { pose proof (string_id_get_prop _ _ Hid) as H. apply get_prop_Return in H. by destruct H. }
  assert (string_id updated = Some s) as Hu.
  { unfold updated. simpl. by rewrite lookup_insert_eq. }
  assert (others updated plans = others (itinerary st) plans) as Ho.
  { unfold others. by rewrite Hu, Hid. }
  unfold handleRefine. rewrite Hit.
  destruct (trim (refinePrompt st)) as [|x t] eqn:Et; [done |].
  cbn [truthy negb orb]. unfold handleRefine_try.
  cbn [itinerary refinePrompt setIsRefining]. rewrite Hup.
  rewrite get_prop_truthy by done. rewrite Hprop. cbn [mbind outcome_bind set_prop].
  fold updated. unfold saveToHistory.
  cbn [savedPlans setShowRefineInput setRefinePrompt setItinerary setItem_throws
       setIsRefining].
  rewrite Hs. cbn [as_array mbind outcome_bind].
  rewrite filter_others_string_ids by (done || by eexists). rewrite Ho.
  destruct (setItem_throws st); eexists; (split; [reflexivity |]); done.
Qed.

(** A refinement that fails. When an itinerary is on screen, the request
    is not blank and [refineItinerary] throws, [handleRefine] catches the
    error: it returns, the user is told [Refinement failed.], and the
    itinerary, the request that was typed, the input and the history are
    what they were. *)
Theorem handleRefine_failure
    (refineItinerary : JSValue -> jstring -> Completion -> outcome JSValue)
    (st : AppState) (response : Completion) (e : Exn) :
  truthy (itinerary st) = true ->
  trim (refinePrompt st) ≠ [] ->
  refineItinerary (itinerary st) (refinePrompt st) response = Throw e ->
  ∃ st',
    handleRefine refineItinerary st response = Return st' ∧
    itinerary st' = itinerary st ∧
    refinePrompt st' = refinePrompt st ∧
    showRefineInput st' = showRefineInput st ∧
    savedPlans st' = savedPlans st ∧
    isRefining st' = false ∧
    alerts st' = js "Refinement failed." :: alerts st.
Proof.
  intros Hit Hreq Hup. unfold handleRefine. rewrite Hit.
  destruct (trim (refinePrompt st)) as [|x t] eqn:Et; [done |].
  cbn [truthy negb orb]. unfold handleRefine_try.
  cbn [itinerary refinePrompt setIsRefining]. rewrite Hup. cbn [mbind outcome_bind].
  eexists. split; [reflexivity |]. done.
Qed.

Lemma handleRefine_applies_witness :
  ∃ p st',
    string_id (itinerary with_history) = Some (js "p") ∧
    trim (refinePrompt with_history) ≠ [] ∧
    Services.refineItinerary JSON.parse (itinerary with_history) (refinePrompt with_history)
      (Responded (Some candidate_text)) = Return (JObject p) ∧
    handleRefine (Services.refineItinerary JSON.parse) with_history
      (Responded (Some candidate_text)) = Return st' ∧
    itinerary st' = JObject (<[js "id" := str "p"]> p) ∧
    savedPlans st' = JArray [JObject (<[js "id" := str "p"]> p); earlier_plan] ∧
    alerts st' = [].
Proof.
  destruct (refine_copy_object JSON.parse Services.copy prior request
              (Responded (Some candidate_text)) refined) as [p Hp].
  { apply list_elem_of_here. }
  { vm_compute. reflexivity. }
  assert (string_id (itinerary with_history) = Some (js "p")) as H1
    by (vm_compute; reflexivity).
  assert (trim (refinePrompt with_history) ≠ []) as H2 by (vm_compute; discriminate).
  assert (Services.refineItinerary JSON.parse (itinerary with_history)
            (refinePrompt with_history) (Responded (Some candidate_text))
          = Return (JObject p)) as H3.
  { rewrite <- Hp. vm_compute. reflexivity. }
  assert (savedPlans with_history = JArray [earlier_plan; prior]) as H4 by reflexivity.
  assert (Forall (fun q => is_Some (string_id q)) [earlier_plan; prior]) as H5.
  { repeat constructor; vm_compute; by eexists. }
  destruct (handleRefine_applies (Services.refineItinerary JSON.parse) with_history
              (Responded (Some candidate_text)) p (js "p") _ H1 H2 H3 H4 H5)
    as (st' & G1 & G2 & _ & _ & _ & G3 & G4).
  exists p, st'. split_and!; [exact H1 | exact H2 | exact H3 | exact G1 | exact G2 | |].
  - rewrite G3. vm_compute. reflexivity.
  - exact G4.
Defined.

Lemma handleRefine_failure_witness :
  ∃ st',
    truthy (itinerary with_history) = true ∧
    trim (refinePrompt with_history) ≠ [] ∧
    Services.refineItinerary JSON.parse (itinerary with_history) (refinePrompt with_history)
      (Responded (Some apology)) = Throw SyntaxError ∧
    handleRefine (Services.refineItinerary JSON.parse) with_history
      (Responded (Some apology)) = Return st' ∧
    itinerary st' = prior ∧
    alerts st' = [js "Refinement failed."].
Proof.
  assert (truthy (itinerary with_history) = true) as H1 by (vm_compute; reflexivity).
  assert (trim (refinePrompt with_history) ≠ []) as H2 by (vm_compute; discriminate).
  assert (Services.refineItinerary JSON.parse (itinerary with_history)
            (refinePrompt with_history) (Responded (Some apology)) = Throw SyntaxError) as H3
    by (vm_compute; reflexivity).
  destruct (handleRefine_failure (Services.refineItinerary JSON.parse) with_history
              (Responded (Some apology)) SyntaxError H1 H2 H3)
    as (st' & G1 & G2 & _ & _ & _ & _ & G3).
  exists st'. split_and!; [exact H1 | exact H2 | exact H3 | exact G1 | exact G2 | exact G3].
Defined.

Lemma hydrate_base (p : gmap jstring JSValue) :
  let act := JObject p in
  let act' := JObject (<[js "userNotes" := str ""]>
                (<[js "isLocked" := if truthy (prop act (js "isLocked"))
                                    then prop act (js "isLocked") else JBool false]>
                (<[js "feedback" := str "neutral"]> p))) in
  hydrated act act' ∧ prop act' (js "id") = prop act (js "id").
Proof.
  intros act act'. unfold hydrated, act', act. cbn [prop].
  assert (js "userNotes" ≠ js "isLocked") as N1 by by_computation.
  assert (js "userNotes" ≠ js "feedback") as N2 by by_computation.
  assert (js "isLocked" ≠ js "feedback") as N3 by by_computation.
  assert (js "userNotes" ≠ js "id") as N4 by by_computation.
  assert (js "isLocked" ≠ js "id") as N5 by by_computation.
  assert (js "feedback" ≠ js "id") as N6 by by_computation.
  split_and!.
  - by rewrite lookup_insert_ne, lookup_insert_ne, lookup_insert_eq.
  - by rewrite lookup_insert_eq.
  - by rewrite lookup_insert_ne, lookup_insert_eq.
  - intros k Hk. rewrite !not_elem_of_cons in Hk. destruct Hk as (K1 & K2 & K3 & _).
    by rewrite !lookup_insert_ne.
  - by rewrite !lookup_insert_ne.
Qed.

Lemma Services_hydrate_Return (act act' : JSValue) :
  Services.hydrate act = Return act' ->
  hydrated act act' ∧ prop act' (js "id") = prop act (js "id").
Proof.
  unfold Services.hydrate. destruct act as [| | | | | |p]; try done.
  cbn [set_prop get_prop mbind outcome_bind].
  rewrite lookup_insert_ne by by_computation.
  intros [= <-]. apply hydrate_base.
Qed.

(** [generateItinerary] of src/services/geminiService.ts returns only for
    an input whose prompt it could build (interests that are an array,
    logistics with an arrival, a departure and an accommodation), and only
    an itinerary it parsed from a response with text; the itinerary has
    the logistics of the input and an empty wishlist, the days and
    activities of the response one for one, and every activity hydrated,
    under the id it came with. *)
Theorem Services_generateItinerary_hydrates (JSON_parse : jstring -> option JSValue)
    (input : TripInput) (response : Completion) (r : JSValue) :
  Services.generateItinerary JSON_parse input response = Return r ->
  generate_prompt_reads false input = Return () ∧
  ∃ text C,
    response = Responded (Some text) ∧ JSON_parse text = Some C ∧
    prop r (js "logistics") = logistics input ∧
    prop r (js "wishlist") = JArray [] ∧
    activity_wise (fun a a' => hydrated a a' ∧ prop a' (js "id") = prop a (js "id")) C r.
Proof.
  unfold Services.generateItinerary. rewrite try_catch_rethrow.
  destruct (generate_prompt_reads _ input) as [[]| |]; [| done | done].
  cbn [mbind outcome_bind]. intros H. split; [done |]. revert H.
  destruct response as [e|[text|]]; try done.
  cbn [await mbind outcome_bind]. destruct (no_text (Some text)) eqn:Ent; [done |].
  cbn [ToString]. unfold parse. destruct (JSON_parse text) as [C|] eqn:EC; [| done].
  cbn [mbind outcome_bind]. destruct C as [| | | | | |pC]; try done.
  cbn [set_prop mbind outcome_bind]. intros H. exists text, (JObject pC).
  apply for_each_activity_Return in H as (p & ds & ds' & [= <-] & Hds & -> & Hall).
  rewrite !lookup_insert_ne in Hds by by_computation.
  split_and!; [done | done | | |].
  - cbn [prop]. by rewrite lookup_insert_ne, lookup_insert_ne, lookup_insert_eq by by_computation.
  - cbn [prop]. by rewrite lookup_insert_ne, lookup_insert_eq by by_computation.
  - unfold activity_wise, days_of. cbn [prop]. rewrite Hds, lookup_insert_eq. simpl.
    eapply Forall2_impl; [exact Hall |].
    intros day day' (pd & al & al' & -> & Hal & -> & Hacts).
    unfold activities_of. cbn [prop]. rewrite Hal, lookup_insert_eq. simpl.
    eapply Forall2_impl; [exact Hacts |]. intros a a'. apply Services_hydrate_Return.
Qed.

Lemma Services_generateItinerary_hydrates_witness :
  Services.generateItinerary JSON.parse trip (Responded (Some generated_text))
  = Return generated ∧
  generate_prompt_reads false trip = Return () ∧
  prop generated (js "logistics") = logistics trip ∧
  prop generated (js "wishlist") = JArray [].
Proof.
  assert (Services.generateItinerary JSON.parse trip (Responded (Some generated_text))
          = Return generated) as H by (vm_compute; reflexivity).
  destruct (Services_generateItinerary_hydrates JSON.parse trip _ generated H)
    as (G0 & text & C & _ & _ & G1 & G2 & _).
  split_and!; [exact H | exact G0 | exact G1 | exact G2].
Defined.

(** ** The frontend copy *)






Lemma map_day_Return (f : JSValue -> outcome JSValue) (dayIndex : nat) (ds : list JSValue) :
  ∀ idx ds',
    map_day f dayIndex idx ds = Return ds' ->
    Forall2 (fun day day' => day' = day ∨ f day = Return day') ds ds' ∧
    ∀ i day day', ds !! i = Some day -> ds' !! i = Some day' ->
      if bool_decide (idx + i = dayIndex) then f day = Return day' else day' = day.
Proof.
  induction ds as [|day ds IH]; intros idx ds'; simpl.
  - intros [= <-]. split; [constructor | done].
  - destruct (if bool_decide (idx = dayIndex) then f day else Return day)
      as [day1| |] eqn:E1; try done.
    cbn [mbind outcome_bind].
    destruct (map_day f dayIndex (S idx) ds) as [ds1| |] eqn:E2; try done.
    cbn [mbind outcome_bind]. intros [= <-].
    destruct (IH _ _ E2) as [IH1 IH2]. split.
    + constructor; [| done]. case_bool_decide; [by right | left; congruence].
    + intros [|i] d d'; simpl.
      * intros [= <-] [= <-]. rewrite Nat.add_0_r.
        case_bool_decide; [done | congruence].
      * intros Hd Hd'. specialize (IH2 i d d' Hd Hd').
        by replace (idx + S i) with (S idx + i) by lia.
Qed.

Lemma update_activity_Return (activityId : jstring) (updates : gmap jstring JSValue)
    (a a' : JSValue) :
  update_activity activityId updates a = Return a' -> edited activityId updates a a'.
Proof.
  unfold update_activity, edited. rewrite get_prop_prop.
  destruct (nullish a) eqn:En; [done |]. cbn [mbind outcome_bind].
  destruct (prop a (js "id")) as [| | | |x| |] eqn:Eid; cbn [strict_eq];
    try (intros [= <-]; by right).
  case_bool_decide as Ex.
  - subst x. destruct a as [| | | | | |pa]; try done. cbn [spread mbind outcome_bind].
    intros [= <-]. left. split; [done | by eexists].
  - intros [= <-]. right. split; [congruence | done].
Qed.

Lemma with_day_updated_in (dayIndex : nat) (activityId : jstring)
    (updates : gmap jstring JSValue) (it n : JSValue) :
  truthy it = true ->
  with_day (update_day (update_activity activityId updates)) dayIndex it = Return n ->
  updated_in dayIndex activityId updates it n.
Proof.
  intros Hit En. unfold with_day in En.
  destruct it as [| |b|q|s|l|p];
    [done | done | discriminate En | discriminate En | destruct s; discriminate En
    | destruct l; discriminate En |].
  cbn [spread get_prop mbind outcome_bind] in En.
  destruct (default JUndefined (p !! js "days")) as [| | | | |ds|] eqn:Ed; try done.
  cbn [as_array mbind outcome_bind] in En.
  destruct (map_day _ _ _ _) as [ds'| |] eqn:Em; try done. injection En as <-.
  apply map_day_Return in Em as [Hall Hat].
  unfold updated_in, days_of. cbn [prop]. rewrite Ed, lookup_insert_eq. simpl. split_and!.
  - intros k Hk. by rewrite lookup_insert_ne.
  - symmetry. by eapply Forall2_length.
  - intros d day day' Hd Hd'. specialize (Hat d day day' Hd Hd'). simpl in Hat.
    case_bool_decide; [| done].
    unfold update_day in Hat.
    destruct day as [| |b|q|s|l|pd];
      [discriminate Hat | discriminate Hat | discriminate Hat | discriminate Hat
      | destruct s; discriminate Hat | destruct l; discriminate Hat |].
    cbn [spread get_prop mbind outcome_bind] in Hat.
    destruct (default JUndefined (pd !! js "activities")) as [| | | | |al|] eqn:Ea; try done.
    cbn [as_array mbind outcome_bind] in Hat.
    destruct (traverse _ al) as [al'| |] eqn:Et; try done. injection Hat as <-.
    split.
    + intros k Hk. cbn [prop]. by rewrite lookup_insert_ne.
    + unfold activities_of. cbn [prop]. rewrite Ea, lookup_insert_eq. simpl.
      apply traverse_Return in Et. eapply Forall2_impl; [exact Et |].
      intros a a'. apply update_activity_Return.
Qed.

(** The frame of [handleUpdateActivity], which has no [try]. When it
    returns, the itinerary on screen is the one that was there, updated in
    the day and at the id asked for and nowhere else, and it heads the
    history. When it throws, one of two things has happened. Either the
    new itinerary could not be built, and the state is what it was. Or the
    throw comes from [saveToHistory], after [setItinerary]: the itinerary
    on screen is the updated one all the same, and the history is what it
    was unless the throw is that of [localStorage.setItem], which comes
    after [setSavedPlans], so that the updated itinerary heads the history
    too. *)
Theorem handleUpdateActivity_frame (dayIndex : nat) (activityId : jstring)
    (updates : gmap jstring JSValue) (st st' : AppState) (o : outcome unit) :
  truthy (itinerary st) = true ->
  handleUpdateActivity dayIndex activityId updates st = (st', o) ->
  (o = Return () ->
     updated_in dayIndex activityId updates (itinerary st) (itinerary st') ∧
     ∃ rest, savedPlans st' = JArray (itinerary st' :: rest)) ∧
  (∀ e, o = Throw e ->
     st' = st ∨
     updated_in dayIndex activityId updates (itinerary st) (itinerary st') ∧
     (savedPlans st' = savedPlans st ∨
      setItem_throws st = Some e ∧ ∃ rest, savedPlans st' = JArray (itinerary st' :: rest))).
Proof.
  intros Hit H. unfold handleUpdateActivity in H. rewrite Hit in H. cbn [negb] in H.
  destruct (with_day _ _ _) as [n| |] eqn:En.
  2:{ injection H as <- <-. split; [done |]. intros e' _. by left. }
  2:{ injection H as <- <-. split; [done |]. intros e' [=]. }
  pose proof (with_day_updated_in _ _ _ _ _ Hit En) as Hup.
  unfold saveToHistory in H. cbn [savedPlans setItinerary setItem_throws] in H.
  destruct (_ ≫= _) as [rest| |] in H.
  - destruct (setItem_throws st) as [e0|] eqn:Es; injection H as <- <-.
    + split; [done |]. intros e' [= <-]. right. split; [done |]. right.
      split; [done |]. by exists rest.
    + split; [| done]. intros _. split; [done |]. by exists rest.
  - injection H as <- <-. split; [done |]. intros e' _. right. split; [done |]. by left.
  - injection H as <- <-. split; [done |]. intros e' [=].
Qed.

Lemma handleUpdateActivity_frame_witness :
  truthy (itinerary with_history) = true ∧
  handleUpdateActivity 0 (js "a1") note with_history = (noted, Return ()) ∧
  updated_in 0 (js "a1") note (itinerary with_history) (itinerary noted) ∧
  default JNull (activity_at (itinerary noted) 0 0) = JObject (note ∪ castle_tour) ∧
  handleUpdateActivity 0 (js "a1") note storage_full
  = (noted_unsaved, Throw (Error (js "QuotaExceededError"))) ∧
  noted_unsaved ≠ storage_full ∧
  updated_in 0 (js "a1") note (itinerary storage_full) (itinerary noted_unsaved) ∧
  default JNull (activity_at (itinerary noted_unsaved) 0 0) = JObject (note ∪ castle_tour).
Proof.
  assert (truthy (itinerary with_history) = true) as H1 by (vm_compute; reflexivity).
  assert (handleUpdateActivity 0 (js "a1") note with_history = (noted, Return ())) as H2
    by (vm_compute; reflexivity).
  assert (truthy (itinerary storage_full) = true) as H3 by (vm_compute; reflexivity).
  assert (handleUpdateActivity 0 (js "a1") note storage_full
          = (noted_unsaved, Throw (Error (js "QuotaExceededError")))) as H4
    by (vm_compute; reflexivity).
  assert (default JNull (activity_at (itinerary noted_unsaved) 0 0)
          = JObject (note ∪ castle_tour)) as H5 by (vm_compute; reflexivity).
  assert (noted_unsaved ≠ storage_full) as H6.
  { intros E. rewrite E in H5. vm_compute in H5.
    apply (f_equal (fun v => prop v (js "userNotes"))) in H5. vm_compute in H5.
    discriminate H5. }
  destruct (handleUpdateActivity_frame 0 (js "a1") note with_history noted (Return ())
              H1 H2) as [G _].
  destruct (handleUpdateActivity_frame 0 (js "a1") note storage_full noted_unsaved _
              H3 H4) as [_ G'].
  destruct (G' _ eq_refl) as [E|[Hup _]]; [by destruct H6 |].
  split_and!; [exact H1 | exact H2 | exact (proj1 (G eq_refl)) | vm_compute; reflexivity
              | exact H4 | exact H6 | exact Hup | exact H5].
Defined.

(** ** [handleAnalyzeLink] *)

(** [handleAnalyzeLink] contains the failures of [analyzeSocialContent].
    With a link typed in, when the completion call is rejected the handler
    returns all the same: the user is told [Could not analyze link.], the
    link stays in the input, the spinner is off, and the itinerary and the
    history are what they were. This holds for every copy of
    [analyzeSocialContent]. *)
Theorem handleAnalyzeLink_rejected (JSON_parse : jstring -> option JSValue)
    (read : option jstring -> outcome jstring) (now : jstring)
    (view : ViewState) (st : AppState) (reason : Exn) :
  wishlistUrl view ≠ [] ->
  handleAnalyzeLink (analyze_copy JSON_parse read) now view st (Rejected reason)
  = Return ({| wishlistUrl := wishlistUrl view; analyzingLink := false |},
            alert (js "Could not analyze link.") st).
Proof.
  intros Hurl. unfold handleAnalyzeLink. destruct (wishlistUrl view); done.
Qed.

Lemma handleAnalyzeLink_rejected_witness :
  wishlistUrl pasted ≠ [] ∧
  handleAnalyzeLink (FrontendA.analyzeSocialContent JSON.parse) (js "1") pasted with_history
    (Rejected (Rejection (js "503")))
  = Return (pasted, alert (js "Could not analyze link.") with_history).
Proof.
  assert (wishlistUrl pasted ≠ []) as H by (vm_compute; discriminate).
  split; [exact H |].
  exact (handleAnalyzeLink_rejected JSON.parse cleanJson_of (js "1") pasted with_history
           (Rejection (js "503")) H).
Defined.

Lemma analyze_copy_resolved (JSON_parse : jstring -> option JSValue)
    (read : option jstring -> outcome jstring) (now content : jstring)
    (text : option jstring) :
  read text ≠ Unmodelled ->
  ∃ item, analyze_copy JSON_parse read now content (Responded text) = Return item ∧
          item_content item = content.
Proof.
  intros Hread. unfold analyze_copy. cbn [await mbind outcome_bind].
  destruct (read text) as [s| |]; [| by eexists | done].
  cbn [mbind outcome_bind]. unfold parse. destruct (JSON_parse s); by eexists.
Qed.

(** A link that is analyzed. With a link typed in, an itinerary on screen
    whose wishlist is an array (or missing) and a history of plans with
    string ids, once the completion call has resolved the handler adds one
    item to the end of the wishlist, whatever the text of the response
    was: the item holds the link as its content. The spinner is off; and
    unless [localStorage.setItem] throws, the input is cleared and nothing
    is reported to the user. *)
Theorem handleAnalyzeLink_adds (JSON_parse : jstring -> option JSValue)
    (read : option jstring -> outcome jstring) (now : jstring)
    (view : ViewState) (st : AppState) (text : option jstring)
    (p : gmap jstring JSValue) (l plans : list JSValue) :
  wishlistUrl view ≠ [] ->
  read text ≠ Unmodelled ->
  itinerary st = JObject p ->
  is_Some (string_id (itinerary st)) ->
  p !! js "wishlist" = Some (JArray l) ∨ p !! js "wishlist" = None ∧ l = [] ->
  savedPlans st = JArray plans ->
  Forall (fun q => is_Some (string_id q)) plans ->
  ∃ item view' st',
    analyze_copy JSON_parse read now (wishlistUrl view) (Responded text) = Return item ∧
    item_content item = wishlistUrl view ∧
    handleAnalyzeLink (analyze_copy JSON_parse read) now view st (Responded text)
    = Return (view', st') ∧
    analyzingLink view' = false ∧
    itinerary st' = JObject (<[js "wishlist" := JArray (l ++ [item_value item])]> p) ∧
    (setItem_throws st = None -> wishlistUrl view' = [] ∧ alerts st' = alerts st).
Proof.
  intros Hurl Hread Hit Hid Hw Hs Hall.
  destruct (analyze_copy_resolved JSON_parse read now (wishlistUrl view) text Hread)
    as (item & Hitem & Hcontent).
  exists item. unfold handleAnalyzeLink. destruct (wishlistUrl view) as [|c url]; [done |].
  rewrite Hitem. unfold handleAddWishlistItem. rewrite Hit.
  cbn [truthy negb spread get_prop mbind outcome_bind].
  assert (iterate (if truthy (default JUndefined (p !! js "wishlist"))
                   then default JUndefined (p !! js "wishlist") else JArray [])
          = Return l) as ->.
  { by destruct Hw as [-> |[-> ->]]. }
  cbn [mbind outcome_bind]. unfold saveToHistory.
  cbn [savedPlans setItinerary setItem_throws]. rewrite Hs. cbn [as_array mbind outcome_bind].
  rewrite filter_others_string_ids; [| | done].
  2:{ destruct Hid as [s Hsid]. exists s. rewrite Hit in Hsid. simpl in Hsid |- *.
      rewrite lookup_insert_ne by by_computation. done. }
  destruct (setItem_throws st);
    eexists _, _; (split_and!; [done | done | reflexivity | done | done | done]).
Qed.

Lemma handleAnalyzeLink_adds_witness :
  ∃ item view' st',
    wishlistUrl pasted ≠ [] ∧
    Services.analyzeSocialContent JSON.parse (js "1") (wishlistUrl pasted)
      (Responded (Some analyzed_text)) = Return item ∧
    item_content item = wishlistUrl pasted ∧
    handleAnalyzeLink (Services.analyzeSocialContent JSON.parse) (js "1") pasted with_history
      (Responded (Some analyzed_text)) = Return (view', st') ∧
    prop (itinerary st') (js "wishlist") = JArray [str "tram"; item_value item] ∧
    wishlistUrl view' = [].
Proof.
  assert (wishlistUrl pasted ≠ []) as H1 by (vm_compute; discriminate).
  assert ((fun t : option jstring => Return (ToString t)) (Some analyzed_text)
          ≠ Unmodelled) as H2 by discriminate.
  assert (∃ p, itinerary with_history = JObject p ∧
               p !! js "wishlist" = Some (JArray [str "tram"])) as (p & H3 & H5).
  { eexists. split; vm_compute; reflexivity. }
  assert (is_Some (string_id (itinerary with_history))) as H4 by (vm_compute; by eexists).
  assert (savedPlans with_history = JArray [earlier_plan; prior]) as H6 by reflexivity.
  assert (Forall (fun q => is_Some (string_id q)) [earlier_plan; prior]) as H7.
  { repeat constructor; vm_compute; by eexists. }
  destruct (handleAnalyzeLink_adds JSON.parse (fun t => Return (ToString t)) (js "1")
              pasted with_history (Some analyzed_text) p [str "tram"] _
              H1 H2 H3 H4 (or_introl H5) H6 H7)
    as (item & view' & st' & G1 & G2 & G3 & _ & G4 & G5).
  exists item, view', st'.
  split_and!; [exact H1 | exact G1 | exact G2 | exact G3 | | exact (proj1 (G5 eq_refl))].
  rewrite G4. cbn [prop]. by rewrite lookup_insert_eq.
Defined.

(** ** The transport options *)

Lemma split_no_sep (sep : N) (s : jstring) : Forall (fun t => sep ∉ t) (split sep s).
Proof.
  induction s as [|c s IH]; simpl.
  - repeat constructor. apply not_elem_of_nil.
  - destruct (N.eqb_spec c sep) as [->|Hne].
    + constructor; [apply not_elem_of_nil | done].
    + destruct (split sep s) as [|h t]; inversion IH; subst.
      * repeat constructor. rewrite list_elem_of_singleton. congruence.
      * constructor; [| done]. rewrite not_elem_of_cons. split; [congruence | done].
Qed.

(** The options that [TransportDisplay] shows for a text: none of them is
    empty, none has white space at either end, none holds a bar; and each
    is a piece of the text. A text of bars and white space only gives no
    option at all. *)
Theorem transport_options_clean (rawText : jstring) :
  Forall (fun o => o ≠ [] ∧ trim o = o ∧ (124%N ∉ o) ∧ o `sublist_of` rawText)
    (transport_options rawText) ∧
  (Forall (fun c => c = 124%N ∨ is_ws c = true) rawText -> transport_options rawText = []).
Proof.
  assert (∀ s, Forall (fun t => t `sublist_of` s) (split 124 s)) as Hsub.
  { induction s as [|c s IH]; simpl; [by repeat constructor |].
    destruct (c =? 124)%N.
    - constructor; [apply sublist_nil_l |].
      eapply Forall_impl; [exact IH |]. intros t Ht. by apply sublist_cons.
    - destruct (split 124 s) as [|h t].
      + constructor; [| constructor]. apply sublist_skip, sublist_nil_l.
      + inversion IH; subst. constructor; [by apply sublist_skip |].
        eapply Forall_impl; [eassumption |]. intros u Hu. by apply sublist_cons. }
  split.
  - unfold transport_options. apply Forall_forall. intros o Ho.
    apply list_elem_of_filter in Ho as [Hne Ho].
    apply list_elem_of_fmap in Ho as (t & -> & Ht).
    pose proof (split_no_sep 124 rawText) as Hsep.
    rewrite Forall_forall in Hsep. specialize (Hsep t Ht).
    specialize (Hsub rawText). rewrite Forall_forall in Hsub. specialize (Hsub t Ht).
    split_and!; [done | apply trim_idem | |].
    + intros Hin. apply Hsep. eapply elem_of_sublist; [exact Hin | apply trim_sublist].
    + etrans; [apply trim_sublist | done].
  - intros Hall. unfold transport_options.
    assert (Forall (fun t => trim t = []) (split 124 rawText)) as Hblank.
    { assert (∀ s, Forall (fun c => c = 124%N ∨ is_ws c = true) s ->
                   Forall (ws_run) (split 124 s)) as Hws.
      { induction s as [|c s IH]; simpl; intros Hs; [by repeat constructor |].
        inversion Hs as [|? ? Hc Hs']; subst. specialize (IH Hs').
        destruct (N.eqb_spec c 124) as [->|Hne]; [by repeat constructor |].
        destruct Hc as [->|Hc]; [done |].
        destruct (split 124 s) as [|h t]; inversion IH; subst; by repeat constructor. }
      eapply Forall_impl; [exact (Hws rawText Hall) |]. intros t Ht.
      rewrite <- (app_nil_r t), <- (app_nil_l (t ++ [])).
      change ([] ++ t ++ []) with (t ++ [] ++ []).
      rewrite (trim_ws_around t [] []); [done | done | constructor]. }
    induction Hblank as [|t ts Ht _ IH]; [done |].
    rewrite fmap_cons, filter_cons, Ht. by rewrite decide_False by (intros H; by apply H).
Qed.

(** The frame of [handleReorderActivities]. When it returns, the day asked
    for has the activities it was given and every other property it had;
    every other day is the same day, no day is added or dropped, and the
    other properties of the itinerary are what they were. The history is
    not touched and nothing is written to storage: in this shell a new
    order is shown and not saved. *)
Theorem handleReorderActivities_frame (dayIndex : nat) (newActivities : list JSValue)
    (st st' : AppState) :
  truthy (itinerary st) = true ->
  handleReorderActivities dayIndex newActivities st = (st', Return ()) ->
  savedPlans st' = savedPlans st ∧
  alerts st' = alerts st ∧
  (∀ k, k ≠ js "days" -> prop (itinerary st') k = prop (itinerary st) k) ∧
  length (days_of (itinerary st')) = length (days_of (itinerary st)) ∧
  ∀ d day day',
    days_of (itinerary st) !! d = Some day ->
    days_of (itinerary st') !! d = Some day' ->
    if bool_decide (d = dayIndex)
    then activities_of day' = newActivities ∧
         ∀ k, k ≠ js "activities" -> prop day' k = prop day k
    else day' = day.
Proof.
  intros Hit H. unfold handleReorderActivities in H. rewrite Hit in H. cbn [negb] in H.
  destruct (with_day _ _ _) as [n| |] eqn:En; [| discriminate H | discriminate H].
  injection H as <-. cbn [savedPlans alerts itinerary setItinerary].
  split; [done |]. split; [done |].
  unfold with_day in En.
  destruct (itinerary st) as [| |b|q|s|l|p] eqn:Ei;
    [done | done | discriminate En | discriminate En | destruct s; discriminate En
    | destruct l; discriminate En |].
  cbn [spread get_prop mbind outcome_bind] in En.
  destruct (default JUndefined (p !! js "days")) as [| | | | |ds|] eqn:Ed; try done.
  cbn [as_array mbind outcome_bind] in En.
  destruct (map_day _ _ _ _) as [ds'| |] eqn:Em; try done. injection En as <-.
  apply map_day_Return in Em as [Hall Hat].
  unfold days_of. cbn [prop]. rewrite Ed, lookup_insert_eq. simpl. split_and!.
  - intros k Hk. by rewrite lookup_insert_ne.
  - symmetry. by eapply Forall2_length.
  - intros d day day' Hd Hd'. specialize (Hat d day day' Hd Hd'). simpl in Hat.
    case_bool_decide; [| done].
    assert (∃ pd, JObject (<[js "activities" := JArray newActivities]> pd) = day' ∧
                  ∀ k, prop day k = default JUndefined (pd !! k)) as (pd & <- & Hpd).
    { destruct day as [| |b|q|s|l|pd]; cbn [spread mbind outcome_bind] in Hat;
        try (destruct s; [| discriminate Hat]); try (destruct l; [| discriminate Hat]);
        cbn [mbind outcome_bind] in Hat; injection Hat as <-;
        eexists; (split; [reflexivity |]); intros k; cbn [prop]; by rewrite ?lookup_empty. }
    unfold activities_of. cbn [prop]. rewrite lookup_insert_eq.
    split; [done |]. intros k Hk. by rewrite lookup_insert_ne, Hpd.
Qed.

Lemma handleReorderActivities_frame_witness :
  truthy (itinerary with_history) = true ∧
  handleReorderActivities 0 [walk; JObject castle_tour] with_history
  = (reordered, Return ()) ∧
  savedPlans reordered = savedPlans with_history ∧
  all_activities (itinerary reordered) = [walk; JObject castle_tour].
Proof.
  assert (truthy (itinerary with_history) = true) as H1 by (vm_compute; reflexivity).
  assert (handleReorderActivities 0 [walk; JObject castle_tour] with_history
          = (reordered, Return ())) as H2 by (vm_compute; reflexivity).
  split_and!; [exact H1 | exact H2 | | vm_compute; reflexivity].
  exact (proj1 (handleReorderActivities_frame 0 _ with_history reordered H1 H2)).
Defined.

(** [handleCreateItinerary] gives the itinerary its id and contains every
    failure. When [generateItinerary] returns an object, the handler shows
    it under the id [Date.now().toString()], whatever id the response
    had, switches to the planner, puts it at the head of the history and
    ends the loading state; the user is alerted only if
    [localStorage.setItem] throws. When [generateItinerary] throws, the
    handler returns all the same: the user is alerted, the loading state
    ends, and the itinerary, the view and the history are what they
    were. *)
Theorem handleCreateItinerary_outcomes
    (generateItinerary : TripInput -> Completion -> outcome JSValue) (now : jstring)
    (input : TripInput) (pl : Planner) (response : Completion) (plans : list JSValue) :
  savedPlans (shell pl) = JArray plans ->
  Forall (fun q => is_Some (string_id q)) plans ->
  (∀ p, generateItinerary input response = Return (JObject p) ->
     let result := JObject (<[js "id" := JString now]> p) in
     ∃ pl', handleCreateItinerary generateItinerary now input pl response = Return pl' ∧
            itinerary (shell pl') = result ∧
            view pl' = js "planner" ∧
            isLoading pl' = false ∧
            savedPlans (shell pl') = JArray (result :: others result plans) ∧
            alerts (shell pl')
            = match setItem_throws (shell pl) with
              | None => alerts (shell pl)
              | Some _ => js "Failed to generate itinerary. Please try again."
                          :: alerts (shell pl)
              end) ∧
  (∀ e, generateItinerary input response = Throw e ->
     ∃ pl', handleCreateItinerary generateItinerary now input pl response = Return pl' ∧
            itinerary (shell pl') = itinerary (shell pl) ∧
            savedPlans (shell pl') = savedPlans (shell pl) ∧
            view pl' = view pl ∧
            isLoading pl' = false ∧
            alerts (shell pl')
            = js "Failed to generate itinerary. Please try again." :: alerts (shell pl)).
Proof.
  intros Hs Hall. split.
  - intros p Hgen result. unfold handleCreateItinerary. rewrite Hgen.
    cbn [mbind outcome_bind set_prop]. fold result. unfold saveToHistory.
    cbn [savedPlans setItinerary setItem_throws]. rewrite Hs.
    cbn [as_array mbind outcome_bind].
    rewrite filter_others_string_ids; [| | done].
    2:{ exists now. unfold result. simpl. by rewrite lookup_insert_eq. }
    destruct (setItem_throws (shell pl)); eexists; (split; [reflexivity |]); done.
  - intros e Hgen. unfold handleCreateItinerary. rewrite Hgen. cbn [mbind outcome_bind].
    eexists. split; [reflexivity |]. done.
Qed.

Lemma handleCreateItinerary_outcomes_witness :
  savedPlans (shell at_home) = JArray [earlier_plan; prior] ∧
  (∃ pl', handleCreateItinerary (Services.generateItinerary JSON.parse) (js "1700000000000")
            trip at_home (Responded (Some generated_text)) = Return pl' ∧
          prop (itinerary (shell pl')) (js "id") = str "1700000000000" ∧
          view pl' = js "planner") ∧
  (∃ pl', handleCreateItinerary (Services.generateItinerary JSON.parse) (js "1700000000000")
            trip at_home (Responded (Some apology)) = Return pl' ∧
          itinerary (shell pl') = prior ∧
          alerts (shell pl') = [js "Failed to generate itinerary. Please try again."]).
Proof.
  assert (savedPlans (shell at_home) = JArray [earlier_plan; prior]) as H1 by reflexivity.
  assert (Forall (fun q => is_Some (string_id q)) [earlier_plan; prior]) as H2.
  { repeat constructor; vm_compute; by eexists. }
  split_and!; [exact H1 | |].
  - destruct (handleCreateItinerary_outcomes (Services.generateItinerary JSON.parse)
                (js "1700000000000") trip at_home (Responded (Some generated_text)) _ H1 H2)
      as [G _].
    assert (∃ p, Services.generateItinerary JSON.parse trip (Responded (Some generated_text))
                 = Return (JObject p)) as [p Hp].
    { eexists. vm_compute. reflexivity. }
    destruct (G p Hp) as (pl' & E1 & E2 & E3 & _).
    exists pl'. split_and!; [exact E1 | | exact E3].
    rewrite E2. cbn [prop]. by rewrite lookup_insert_eq.
  - destruct (handleCreateItinerary_outcomes (Services.generateItinerary JSON.parse)
                (js "1700000000000") trip at_home (Responded (Some apology)) _ H1 H2)
      as [_ G].
    assert (Services.generateItinerary JSON.parse trip (Responded (Some apology))
            = Throw SyntaxError) as Hp by (vm_compute; reflexivity).
    destruct (G SyntaxError Hp) as (pl' & E1 & E2 & _ & _ & _ & E3).
    exists pl'. split_and!; [exact E1 | exact E2 | exact E3].
Defined.
